(** * CancellationManager (tensorflow/core/framework/cancellation.cc)

    A shallow embedding of the cancellation manager and a verification of
    its registration, deregistration and cancellation protocol.

    The development has three layers:
    - the critical sections of each member function, as pure functions on
      the fields of one manager;
    - a sequential semantics on a heap of managers, in which [StartCancel]
      runs its callbacks (a callback of a child manager calls the child's
      [StartCancel]), with the constructors and the destructor;
    - an interleaving semantics in which every critical section, every
      call of a callback and every return from one is an atomic step of
      a thread, and whose executions are the sequentially consistent
      executions of the member functions.

    The bodies of the callbacks that collaborators register are not part
    of the program: such a callback is known by a number, and calling it
    is recorded but touches no manager.  The members declared in
    cancellation.h only ([get_cancellation_token], [IsCancelled]) follow
    the specification. *)

From stdpp Require Import gmap list sorting.

(** ** Data model *)

(** [CancellationToken] is a signed integer ([kInvalidToken] is -1). *)
Abbreviation CancellationToken := Z (only parsing).

Definition kInvalidToken : CancellationToken := (-1)%Z.

(** Managers live at addresses; [parent_] and the [this] captured by the
    callback of a child are addresses. *)
Abbreviation addr := nat (only parsing).

(** [CancelCallback] is [std::function<void()>].  Two kinds of callbacks
    reach a registry: the ones collaborators supply, whose bodies are
    opaque to the manager (identified here by a number; running one is
    recorded in the log of invocations), and the lambda
    [[this]() { this->StartCancel(); }] that the constructor of a child
    registers with its parent. *)
Inductive CancelCallback : Type :=
  | Closure (id : nat)
  | ChildStartCancel (this : addr).

#[global] Instance CancelCallback_eq_dec : EqDecision CancelCallback.
Proof. solve_decision. Defined.

(** [State]: the lazily allocated block holding the notification and the
    registry.  The notification is one-shot: the flag says whether
    [Notify] has been called. *)
Record State : Type := mkState {
  cancelled_notification : bool;
  callbacks : gmap Z CancelCallback;
}.

Record CancellationManager : Type := mkCancellationManager {
  is_cancelling_ : bool;
  is_cancelled_ : bool;
  next_cancellation_token_ : Z;
  state_ : option State;
  parent_ : option addr;
  parent_token_ : Z;
}.

(** The three states of the specification, read off the two flags in the
    order the code tests them. *)
Inductive ManagerState : Type := Idle | Cancelling | Cancelled.

#[global] Instance ManagerState_eq_dec : EqDecision ManagerState.
Proof. solve_decision. Defined.

Definition manager_state (m : CancellationManager) : ManagerState :=
  if is_cancelled_ m then Cancelled
  else if is_cancelling_ m then Cancelling
  else Idle.

(** The registry of a manager; empty when no [State] was allocated. *)
Definition registry (m : CancellationManager) : gmap Z CancelCallback :=
  match state_ m with
  | Some st => callbacks st
  | None => ∅
  end.

(** Has the notification of the manager been signalled? *)
Definition notified (m : CancellationManager) : bool :=
  match state_ m with
  | Some st => cancelled_notification st
  | None => false
  end.

(** Field updates. *)
Definition set_is_cancelling (b : bool) (m : CancellationManager) :=
  mkCancellationManager b (is_cancelled_ m) (next_cancellation_token_ m)
    (state_ m) (parent_ m) (parent_token_ m).

Definition set_is_cancelled (b : bool) (m : CancellationManager) :=
  mkCancellationManager (is_cancelling_ m) b (next_cancellation_token_ m)
    (state_ m) (parent_ m) (parent_token_ m).

Definition set_next_cancellation_token (n : Z) (m : CancellationManager) :=
  mkCancellationManager (is_cancelling_ m) (is_cancelled_ m) n
    (state_ m) (parent_ m) (parent_token_ m).

Definition set_state (st : option State) (m : CancellationManager) :=
  mkCancellationManager (is_cancelling_ m) (is_cancelled_ m)
    (next_cancellation_token_ m) st (parent_ m) (parent_token_ m).

Definition set_callbacks (cbs : gmap Z CancelCallback) (st : State) : State :=
  mkState (cancelled_notification st) cbs.

(** ** Critical sections *)

(** [CancellationManager::CancellationManager()], lines 26-29.  The
    default member initializer leaves [parent_] null (the destructor tests
    it). *)
Definition CancellationManager_ctor : CancellationManager :=
  mkCancellationManager false false 0 None None 0.

(** [absl::make_unique<State>()]: a fresh notification and an empty map. *)
Definition State_new : State := mkState false ∅.

(** Modelled from the spec: [get_cancellation_token] is defined in
    cancellation.h, which is not among the sources.  Section 4.1: "under
    the manager's lock, returns the current counter value and increments
    it".  The counter is an unbounded integer, as the specification's
    "opaque integer". *)
Definition get_cancellation_token (m : CancellationManager)
  : CancellationToken * CancellationManager :=
  (next_cancellation_token_ m,
   set_next_cancellation_token (next_cancellation_token_ m + 1) m).

(** Modelled from the spec: [IsCancelled] is defined in cancellation.h.
    Section 4.2: "a lock-free query reflecting the terminal flag". *)
Definition IsCancelled (m : CancellationManager) : bool := is_cancelled_ m.

(** [StartCancel], first critical section, lines 47-57.  [None] is the
    early [return]; otherwise the manager after the section, the map
    swapped into [callbacks_to_run], and whether the captured
    [cancelled_notification] pointer is non-null. *)
Definition StartCancel_acquire (m : CancellationManager)
  : option (CancellationManager * gmap Z CancelCallback * bool) :=
  if is_cancelled_ m || is_cancelling_ m then None
  else
    let m1 := set_is_cancelling true m in
    match state_ m1 with
    | Some st => Some (set_state (Some (set_callbacks ∅ st)) m1, callbacks st, true)
    | None => Some (m1, ∅, false)
    end.

(** [StartCancel], second critical section, lines 66-70. *)
Definition StartCancel_release (m : CancellationManager) : CancellationManager :=
  set_is_cancelled true (set_is_cancelling false m).

(** [cancelled_notification->Notify()], line 72, through the pointer into
    [state_]. *)
Definition Notify (m : CancellationManager) : CancellationManager :=
  match state_ m with
  | Some st => set_state (Some (mkState true (callbacks st))) m
  | None => m
  end.

Definition erase (token : CancellationToken) (m : CancellationManager)
  : CancellationManager :=
  match state_ m with
  | Some st => set_state (Some (set_callbacks (delete token (callbacks st)) st)) m
  | None => m
  end.

(** What [DeregisterCallback] does once it has released the lock: return
    a value, or wait for the notification and then return false. *)
Inductive Deregistration : Type :=
  | Returns (b : bool)
  | WaitsForNotification.

(** [DeregisterCallback], the part under [mu_], lines 91-113. *)
Definition DeregisterCallback_locked (token : CancellationToken)
    (m : CancellationManager) : Deregistration * CancellationManager :=
  if is_cancelled_ m then (Returns false, m)
  else if is_cancelling_ m then
    match state_ m with
    | Some _ => (WaitsForNotification, m)
    | None => (Returns false, m)
    end
  else (Returns true, erase token m).

(** [TryDeregisterCallback], lines 116-126. *)
Definition TryDeregisterCallback (token : CancellationToken)
    (m : CancellationManager) : bool * CancellationManager :=
  if is_cancelled_ m || is_cancelling_ m then (false, m)
  else (true, erase token m).

(** ** Outcomes, heaps and invocations *)

(** The result of running code on a single thread: it returns, or it
    waits for a notification that no other thread will ever set, or a
    [DCHECK] fails, or it uses a manager that does not exist (undefined
    behaviour), or the interpreter ran out of fuel. *)
Inductive Outcome (A : Type) : Type :=
  | Done (a : A)
  | Deadlock
  | Aborted
  | Undefined
  | OutOfFuel.
Arguments Done {A} a.
Arguments Deadlock {A}.
Arguments Aborted {A}.
Arguments Undefined {A}.
Arguments OutOfFuel {A}.

#[global] Instance Outcome_ret : MRet Outcome := λ A a, Done a.
#[global] Instance Outcome_bind : MBind Outcome := λ A B f o,
  match o with
  | Done a => f a
  | Deadlock => Deadlock
  | Aborted => Aborted
  | Undefined => Undefined
  | OutOfFuel => OutOfFuel
  end.

Abbreviation heap := (gmap nat CancellationManager) (only parsing).

(** Dereferencing a pointer to a manager. *)
Definition deref (h : heap) (this : addr) : Outcome CancellationManager :=
  match h !! this with
  | Some m => Done m
  | None => Undefined
  end.

(** One iteration of the loop of [StartCancel]: the callback registered
    under [token] of manager [this] was called. *)
Record Invocation : Type := Invoked {
  inv_manager : addr;
  inv_token : Z;
  inv_callback : CancelCallback;
}.

#[global] Instance Invocation_eq_dec : EqDecision Invocation.
Proof. solve_decision. Defined.

(** ** The build, registration and the sequential semantics *)

Section Build.

(** [DCHECK_LT] comes from logging.h: it aborts the process in debug
    builds and is compiled out otherwise.  The build is a parameter. *)
Variable dcheck_is_on : bool.

Definition DCHECK_LT (a b : Z) : bool :=
  negb dcheck_is_on || bool_decide (a < b)%Z.

(** [RegisterCallback], lines 76-88.  [None] is the fatal failure of the
    [DCHECK_LT]; otherwise the value returned and the manager after the
    call.  [std::swap(state_->callbacks[token], callback)] leaves the new
    callback under [token] and destroys the previous one, if any, with the
    parameter. *)
Definition RegisterCallback (token : CancellationToken)
    (callback : CancelCallback) (m : CancellationManager)
  : option (bool * CancellationManager) :=
  if DCHECK_LT token (next_cancellation_token_ m) then
    let should_register := negb (is_cancelled_ m) && negb (is_cancelling_ m) in
    if should_register then
      let st := match state_ m with
                | Some st => st
                | None => State_new
                end in
      Some (should_register,
            set_state (Some (set_callbacks (<[token := callback]> (callbacks st)) st)) m)
    else Some (should_register, m)
  else None.

(** [key_and_value.second()], where [StartCancel] is the member function
    the lambda of a child calls. *)
Definition call_callback (StartCancel : addr → heap → Outcome (list Invocation * heap))
    (callback : CancelCallback) (h : heap) : Outcome (list Invocation * heap) :=
  match callback with
  | Closure _ => Done ([], h)
  | ChildStartCancel child => StartCancel child h
  end.

(** The loop of [StartCancel], lines 63-65, over the entries of
    [callbacks_to_run] in iteration order. *)
Fixpoint run_callbacks (StartCancel : addr → heap → Outcome (list Invocation * heap))
    (this : addr) (callbacks_to_run : list (Z * CancelCallback)) (h : heap)
  : Outcome (list Invocation * heap) :=
  match callbacks_to_run with
  | [] => Done ([], h)
  | key_and_value :: rest =>
      '(log1, h1) ← call_callback StartCancel key_and_value.2 h;
      '(log2, h2) ← run_callbacks StartCancel this rest h1;
      Done (Invoked this key_and_value.1 key_and_value.2 :: log1 ++ log2, h2)
  end.

(** [StartCancel], lines 44-74.  The iteration order of the [FlatMap] is
    the order of [map_to_list]; no theorem depends on it.  The fuel bounds
    the depth of nested calls. *)
Fixpoint StartCancel (fuel : nat) (this : addr) (h : heap)
  : Outcome (list Invocation * heap) :=
  match fuel with
  | 0 => OutOfFuel
  | S fuel =>
      m ← deref h this;
      match StartCancel_acquire m with
      | None => Done ([], h)
      | Some (m1, callbacks_to_run, cancelled_notification) =>
          '(log, h1) ← run_callbacks (StartCancel fuel) this
                         (map_to_list callbacks_to_run) (<[this := m1]> h);
          m2 ← deref h1 this;
          let m3 := StartCancel_release m2 in
          let m4 := if cancelled_notification then Notify m3 else m3 in
          Done (log, <[this := m4]> h1)
      end
  end.

(** The member functions that take [mu_] once, on the heap. *)
Definition call_get_cancellation_token (this : addr) (h : heap) : Outcome (CancellationToken * heap) :=
  m ← deref h this;
  let '(token, m1) := get_cancellation_token m in
  Done (token, <[this := m1]> h).

Definition call_RegisterCallback (this : addr) (token : CancellationToken)
    (callback : CancelCallback) (h : heap) : Outcome (bool * heap) :=
  m ← deref h this;
  match RegisterCallback token callback m with
  | Some (registered, m1) => Done (registered, <[this := m1]> h)
  | None => Aborted
  end.

(** [DeregisterCallback], lines 90-114: on a single thread, waiting for a
    notification that is not yet set never ends. *)
Definition DeregisterCallback (this : addr) (token : CancellationToken) (h : heap)
  : Outcome (bool * heap) :=
  m ← deref h this;
  match DeregisterCallback_locked token m with
  | (Returns b, m1) => Done (b, <[this := m1]> h)
  | (WaitsForNotification, m1) =>
      if notified m1 then Done (false, <[this := m1]> h) else Deadlock
  end.

Definition call_TryDeregisterCallback (this : addr) (token : CancellationToken) (h : heap)
  : Outcome (bool * heap) :=
  m ← deref h this;
  let '(b, m1) := TryDeregisterCallback token m in
  Done (b, <[this := m1]> h).

(** [new CancellationManager()]. *)
Definition new_CancellationManager (h : heap) : addr * heap :=
  let this := fresh (dom h) in
  (this, <[this := CancellationManager_ctor]> h).

(** [new CancellationManager(parent)], lines 31-42. *)
Definition new_CancellationManager_child (parent : addr) (h : heap) : Outcome (addr * heap) :=
  let this := fresh (dom h) in
  '(parent_token, h1) ← call_get_cancellation_token parent h;
  '(registered, h2) ← call_RegisterCallback parent parent_token (ChildStartCancel this) h1;
  let m := mkCancellationManager false false 0 None (Some parent) parent_token in
  let m1 := if negb registered then set_is_cancelled true m else m in
  Done (this, <[this := m1]> h2).

(** [delete this], lines 128-135, followed by the release of the memory. *)
Definition delete_CancellationManager (fuel : nat) (this : addr) (h : heap)
  : Outcome (list Invocation * heap) :=
  m ← deref h this;
  h1 ← match parent_ m with
       | Some parent => '(_, h1) ← DeregisterCallback parent (parent_token_ m) h; Done h1
       | None => Done h
       end;
  m1 ← deref h1 this;
  '(log, h2) ← match state_ m1 with
               | Some _ => StartCancel fuel this h1
               | None => Done ([], h1)
               end;
  Done (log, delete this h2).

(** ** Interleaving semantics *)

(** The operations a thread performs on the managers it knows. *)
Inductive Op : Type :=
  | OpNew
  | OpNewChild (parent : addr)
  | OpGetToken (this : addr)
  | OpRegisterCallback (this : addr) (token : CancellationToken) (callback : CancelCallback)
  | OpDeregisterCallback (this : addr) (token : CancellationToken)
  | OpTryDeregisterCallback (this : addr) (token : CancellationToken)
  | OpStartCancel (this : addr)
  | OpIsCancelled (this : addr).

Inductive Value : Type :=
  | VBool (b : bool)
  | VToken (token : CancellationToken)
  | VAddr (this : addr).

(** What an observer of the execution sees: a pass of [StartCancel]
    starting with the callbacks it captured, a callback being called, a
    callback having returned, a token being issued, an operation
    returning a value. *)
Inductive Event : Type :=
  | EvPass (this : addr) (callbacks_to_run : gmap Z CancelCallback)
  | EvInvoke (i : Invocation)
  | EvReturned (i : Invocation)
  | EvToken (this : addr) (token : CancellationToken)
  | EvReturn (op : Op) (v : Value).

(** The program points at which a thread can be between two atomic
    steps, with the local variables live there.  A thread is a stack of
    these: the head is where it executes, the rest is what it returns to. *)
Inductive Frame : Type :=
  | AtCall (op : Op)
      (* about to call a member function *)
  | InConstructor (parent : addr) (parent_token : CancellationToken)
      (* line 37: [parent_token_] initialised, about to register *)
  | InStartCancel (this : addr) (running : option (Z * CancelCallback))
      (callbacks_to_run : list (Z * CancelCallback))
      (cancelled_notification : bool)
      (* lines 63-70: in the loop, inside the call of the callback of
         entry [running] if any, these entries still to visit; with none
         left, it takes [mu_] for the second time next *)
  | InCallback (id : nat)
      (* inside the body of a collaborator's callback *)
  | AtNotify (this : addr)
      (* line 72 *)
  | AtWaitForNotification (this : addr) (token : CancellationToken).
      (* line 104 *)

(** Calling a callback: the body of a collaborator's callback runs for a
    while; the lambda of a child calls [StartCancel]. *)
Definition enter_callback (callback : CancelCallback) : Frame :=
  match callback with
  | Closure id => InCallback id
  | ChildStartCancel child => AtCall (OpStartCancel child)
  end.

(** The call of the callback of an entry is over. *)
Definition callback_returned (this : addr) (running : option (Z * CancelCallback))
  : list Event :=
  match running with
  | Some key_and_value => [EvReturned (Invoked this key_and_value.1 key_and_value.2)]
  | None => []
  end.

(** One atomic step of the frame at the head of a stack: the frames that
    replace it, the heap after it and the events it emits.  [None]: the
    thread cannot move (it waits, or the process aborted, or the
    behaviour is undefined). *)
Definition frame_step (f : Frame) (h : heap)
  : option (list Frame * heap * list Event) :=
  match f with
  | AtCall OpNew =>
      let '(this, h1) := new_CancellationManager h in
      Some ([], h1, [EvReturn OpNew (VAddr this)])
  | AtCall (OpNewChild parent) =>
      m ← h !! parent;
      let '(parent_token, m1) := get_cancellation_token m in
      Some ([InConstructor parent parent_token], <[parent := m1]> h,
            [EvToken parent parent_token])
  | InConstructor parent parent_token =>
      let this := fresh (dom h) in
      p ← h !! parent;
      '(registered, p1) ← RegisterCallback parent_token (ChildStartCancel this) p;
      let m := mkCancellationManager false false 0 None (Some parent) parent_token in
      let m1 := if negb registered then set_is_cancelled true m else m in
      Some ([], <[this := m1]> (<[parent := p1]> h),
            [EvReturn (OpNewChild parent) (VAddr this)])
  | AtCall (OpGetToken this) =>
      m ← h !! this;
      let '(token, m1) := get_cancellation_token m in
      Some ([], <[this := m1]> h,
            [EvToken this token; EvReturn (OpGetToken this) (VToken token)])
  | AtCall (OpRegisterCallback this token callback) =>
      m ← h !! this;
      '(registered, m1) ← RegisterCallback token callback m;
      Some ([], <[this := m1]> h,
            [EvReturn (OpRegisterCallback this token callback) (VBool registered)])
  | AtCall (OpDeregisterCallback this token) =>
      m ← h !! this;
      match DeregisterCallback_locked token m with
      | (Returns b, m1) =>
          Some ([], <[this := m1]> h,
                [EvReturn (OpDeregisterCallback this token) (VBool b)])
      | (WaitsForNotification, m1) =>
          Some ([AtWaitForNotification this token], <[this := m1]> h, [])
      end
  | AtWaitForNotification this token =>
      m ← h !! this;
      if notified m
      then Some ([], h, [EvReturn (OpDeregisterCallback this token) (VBool false)])
      else None
  | AtCall (OpTryDeregisterCallback this token) =>
      m ← h !! this;
      let '(b, m1) := TryDeregisterCallback token m in
      Some ([], <[this := m1]> h,
            [EvReturn (OpTryDeregisterCallback this token) (VBool b)])
  | AtCall (OpIsCancelled this) =>
      m ← h !! this;
      Some ([], h, [EvReturn (OpIsCancelled this) (VBool (IsCancelled m))])
  | AtCall (OpStartCancel this) =>
      m ← h !! this;
      match StartCancel_acquire m with
      | None => Some ([], h, [])
      | Some (m1, callbacks_to_run, cancelled_notification) =>
          Some ([InStartCancel this None (map_to_list callbacks_to_run)
                   cancelled_notification],
                <[this := m1]> h, [EvPass this callbacks_to_run])
      end
  | InStartCancel this running (key_and_value :: rest) cancelled_notification =>
      Some ([enter_callback key_and_value.2;
             InStartCancel this (Some key_and_value) rest cancelled_notification],
            h,
            callback_returned this running ++
            [EvInvoke (Invoked this key_and_value.1 key_and_value.2)])
  | InCallback _ => Some ([], h, [])
  | InStartCancel this running [] cancelled_notification =>
      m ← h !! this;
      Some (if cancelled_notification then [AtNotify this] else [],
            <[this := StartCancel_release m]> h, callback_returned this running)
  | AtNotify this =>
      m ← h !! this;
      Some ([], <[this := Notify m]> h, [])
  end.

(** A configuration: the heap, the stack of every thread and the events
    so far, oldest first. *)
Record Config : Type := mkConfig {
  cfg_heap : gmap nat CancellationManager;
  cfg_threads : list (list Frame);
  cfg_trace : list Event;
}.

(** Thread [tid] takes one step. *)
Definition thread_step (tid : nat) (c : Config) : option Config :=
  match cfg_threads c !! tid with
  | Some (f :: stack) =>
      '(frames, h1, events) ← frame_step f (cfg_heap c);
      Some (mkConfig h1 (<[tid := frames ++ stack]> (cfg_threads c))
              (cfg_trace c ++ events))
  | _ => None
  end.

Definition step (c c' : Config) : Prop :=
  ∃ tid, thread_step tid c = Some c'.

(** Threads start with the operations they will perform, on an empty
    heap. *)
Definition initial (programs : list (list Op)) : Config :=
  mkConfig ∅ (map (map AtCall) programs) [].

Definition reachable (c : Config) : Prop :=
  ∃ programs, rtc step (initial programs) c.

(** Running a schedule: the thread whose turn it is moves, if it can. *)
Fixpoint run_schedule (schedule : list nat) (c : Config) : Config :=
  match schedule with
  | [] => c
  | tid :: schedule =>
      run_schedule schedule (default c (thread_step tid c))
  end.

End Build.

(** ** Vocabulary of the verification *)

(** The manager [StartCancel] leaves behind when it found it idle. *)
Definition finished (m : CancellationManager) : CancellationManager :=
  match StartCancel_acquire m with
  | Some (m1, _, cancelled_notification) =>
      let m3 := StartCancel_release m1 in
      if cancelled_notification then Notify m3 else m3
  | None => m
  end.

(** The invocations of manager [this] for the entries of a map. *)
Definition invocations (this : addr) (entries : list (Z * CancelCallback))
  : list Invocation :=
  (λ key_and_value, Invoked this key_and_value.1 key_and_value.2) <$> entries.

(** The invocations a log attributes to manager [this]. *)
Definition by_manager (this : addr) (log : list Invocation) : list Invocation :=
  filter (λ i, inv_manager i = this) log.

(** For one manager, a call of [StartCancel] somewhere in the heap either
    leaves it alone, or finds it idle and runs its pass to the end. *)
Definition untouched (this : addr) (h : gmap nat CancellationManager)
    (log : list Invocation) (h' : gmap nat CancellationManager) : Prop :=
  h' !! this = h !! this ∧ by_manager this log = [].

Definition cancelled_by_pass (this : addr) (h : gmap nat CancellationManager)
    (log : list Invocation) (h' : gmap nat CancellationManager) : Prop :=
  ∃ m, h !! this = Some m ∧ manager_state m = Idle ∧
       h' !! this = Some (finished m) ∧
       by_manager this log = invocations this (map_to_list (registry m)).

Definition pass_post (h : gmap nat CancellationManager) (log : list Invocation)
    (h' : gmap nat CancellationManager) : Prop :=
  ∀ this, untouched this h log h' ∨ cancelled_by_pass this h log h'.

(** Every lambda of a child in a registry points to a manager that
    exists. *)
Definition callback_valid (h : gmap nat CancellationManager)
    (callback : CancelCallback) : bool :=
  match callback with
  | Closure _ => true
  | ChildStartCancel child => bool_decide (is_Some (h !! child))
  end.

Definition closed (h : gmap nat CancellationManager) : Prop :=
  map_Forall (λ _ m, map_Forall (λ _ callback, callback_valid h callback = true)
                       (registry m)) h.

Definition idle_managers (h : gmap nat CancellationManager) : gset nat :=
  dom (filter (λ kv, manager_state kv.2 = Idle) h).

(** [StartCancel] called [n] times in a row on the same manager. *)
Fixpoint StartCancel_times (fuel n : nat) (this : addr)
    (h : gmap nat CancellationManager)
  : Outcome (list Invocation * gmap nat CancellationManager) :=
  match n with
  | 0 => Done ([], h)
  | S n =>
      '(log1, h1) ← StartCancel fuel this h;
      '(log2, h2) ← StartCancel_times fuel n this h1;
      Done (log1 ++ log2, h2)
  end.

(** A sequence of registrations on one manager, every one of which
    returns true. *)
Fixpoint register_all (dcheck_is_on : bool) (registrations : list (Z * CancelCallback))
    (m : CancellationManager) : option CancellationManager :=
  match registrations with
  | [] => Some m
  | (token, callback) :: registrations =>
      match RegisterCallback dcheck_is_on token callback m with
      | Some (true, m1) => register_all dcheck_is_on registrations m1
      | _ => None
      end
  end.

(** ** Vocabulary of the interleaving semantics *)

(** What a trace says about one manager: the tokens it issued, the
    passes it started, the entries whose callback it called, the entries
    whose callback has returned. *)
Definition tokens_issued (this : addr) (trace : list Event) : list Z :=
  omap (λ e, match e with
             | EvToken x token => if decide (x = this) then Some token else None
             | _ => None
             end) trace.

Definition passes_started (this : addr) (trace : list Event)
  : list (gmap Z CancelCallback) :=
  omap (λ e, match e with
             | EvPass x callbacks_to_run =>
                 if decide (x = this) then Some callbacks_to_run else None
             | _ => None
             end) trace.

Definition invoked (this : addr) (trace : list Event) : list (Z * CancelCallback) :=
  omap (λ e, match e with
             | EvInvoke i =>
                 if decide (inv_manager i = this)
                 then Some (inv_token i, inv_callback i) else None
             | _ => None
             end) trace.

Definition returned (this : addr) (trace : list Event) : list (Z * CancelCallback) :=
  omap (λ e, match e with
             | EvReturned i =>
                 if decide (inv_manager i = this)
                 then Some (inv_token i, inv_callback i) else None
             | _ => None
             end) trace.

(** Is the frame the pass of [this]: between the two critical sections of
    a [StartCancel] that found [this] idle? *)
Definition in_pass (this : addr) (f : Frame) : bool :=
  match f with
  | InStartCancel x _ _ _ => bool_decide (x = this)
  | _ => false
  end.

(** The frames of all threads. *)
Definition frames_of (c : Config) : list Frame := concat (cfg_threads c).

(** How many frames are the pass of [this]. *)
Definition in_flight (this : addr) (frames : list Frame) : nat :=
  length (filter (λ f, in_pass this f = true) frames).

(** What holds of a frame in every reachable configuration. *)
Definition frame_ok (h : gmap nat CancellationManager) (trace : list Event)
    (f : Frame) : Prop :=
  match f with
  | InStartCancel this running todo cancelled_notification =>
      ∃ m cbs, h !! this = Some m ∧ manager_state m = Cancelling ∧
               cancelled_notification = bool_decide (is_Some (state_ m)) ∧
               passes_started this trace = [cbs] ∧
               invoked this trace = returned this trace ++ option_list running ∧
               invoked this trace ++ todo = map_to_list cbs ∧
               (cancelled_notification = false → cbs = ∅)
  | AtNotify this =>
      ∃ m, h !! this = Some m ∧ manager_state m = Cancelled ∧ is_Some (state_ m)
  | _ => True
  end.

(** What holds of a manager in every reachable configuration. *)
Record manager_ok (frames : list Frame) (trace : list Event)
    (this : addr) (m : CancellationManager) : Prop := {
  ok_flags : is_cancelling_ m = true → is_cancelled_ m = false;
  ok_in_flight :
    in_flight this frames = if decide (manager_state m = Cancelling) then 1 else 0;
  ok_notified : notified m = true → manager_state m = Cancelled;
  ok_drained : manager_state m ≠ Idle → registry m = ∅;
  ok_idle : manager_state m = Idle → passes_started this trace = [];
  ok_invoked :
    match passes_started this trace with
    | [] => invoked this trace = [] ∧ returned this trace = []
    | [cbs] =>
        manager_state m = Cancelled →
        invoked this trace = map_to_list cbs ∧ returned this trace = map_to_list cbs
    | _ => False
    end;
  ok_sorted : StronglySorted Z.lt (tokens_issued this trace);
  ok_issued :
    Forall (λ token, (token < next_cancellation_token_ m)%Z)
      (tokens_issued this trace);
}.

Record invariant (h : gmap nat CancellationManager) (frames : list Frame)
    (trace : list Event) : Prop := {
  inv_frames : Forall (frame_ok h trace) frames;
  inv_managers : map_Forall (manager_ok frames trace) h;
  inv_absent : ∀ this, h !! this = None →
    passes_started this trace = [] ∧ invoked this trace = [] ∧
    returned this trace = [] ∧ tokens_issued this trace = [];
}.

(** Frames that are neither in a pass nor about to notify. *)
Definition inert (f : Frame) : Prop :=
  match f with
  | InStartCancel _ _ _ _ | AtNotify _ => False
  | _ => True
  end.

(** The manager whose pass or notification a frame stands for. *)
Definition frame_manager (f : Frame) : option addr :=
  match f with
  | InStartCancel this _ _ _ | AtNotify this => Some this
  | _ => None
  end.

(** What every critical section other than those of [StartCancel] keeps
    of a manager: the flags; unless the manager is idle, the presence of
    the state block and the registry; the notification, unless the
    manager is cancelled. *)
Definition keeps_state (m m' : CancellationManager) : Prop :=
  is_cancelling_ m' = is_cancelling_ m ∧
  is_cancelled_ m' = is_cancelled_ m ∧
  (manager_state m ≠ Idle →
   (is_Some (state_ m') ↔ is_Some (state_ m)) ∧ registry m' = registry m) ∧
  (notified m' = true → notified m = true ∨ manager_state m = Cancelled).

(** The cancelling case of [DeregisterCallback] as the specification
    words it: the call always waits for the notification of the pass. *)
Definition DeregisterCallback_waits_whenever_cancelling : Prop :=
  ∀ token m,
    manager_state m = Cancelling →
    (DeregisterCallback_locked token m).1 = WaitsForNotification.

(** A manager on which no callback was ever registered; one thread calls
    [StartCancel] and is between its two critical sections when another
    thread calls [DeregisterCallback] and then [IsCancelled]. *)
Definition deregister_during_pass : Config :=
  run_schedule true [0; 0; 1; 1]
    (initial [[OpNew; OpStartCancel 0];
              [OpDeregisterCallback 0 0; OpIsCancelled 0]]).

(** No registry of the heap holds the lambda of the manager at [this]. *)
Definition unreferenced (this : addr) (h : gmap nat CancellationManager) : Prop :=
  ∀ x mx token, h !! x = Some mx → registry mx !! token ≠ Some (ChildStartCancel this).

#[global] Instance closed_dec (h : gmap nat CancellationManager) : Decision (closed h).
Proof. unfold closed. apply _. Defined.

(** ** Concrete managers, heaps and executions *)

(** A manager that issued tokens 0 and 1. *)
Definition two_tokens : CancellationManager :=
  (get_cancellation_token (get_cancellation_token CancellationManager_ctor).2).2.

(** The same with two callbacks registered under them. *)
Definition two_callbacks : CancellationManager :=
  default two_tokens
    (register_all true [(0%Z, Closure 7); (1%Z, Closure 8)] two_tokens).

(** A manager whose pass is over. *)
Definition cancelled_manager : CancellationManager := finished two_callbacks.

(** A parent at address 0 with a child at address 1, built by the
    constructors. *)
Definition parent_and_child : gmap nat CancellationManager :=
  let '(parent, h) := new_CancellationManager ∅ in
  match new_CancellationManager_child true parent h with
  | Done (_, h) => h
  | _ => h
  end.

(** One thread creates a manager, takes a token, registers a callback and
    cancels; the other asks whether the manager is cancelled. *)
Definition cancel_and_ask : list (list Op) :=
  [[OpNew; OpGetToken 0; OpRegisterCallback 0 0 (Closure 7); OpStartCancel 0];
   [OpIsCancelled 0]].

(** ... up to the registration, *)
Definition registered_config : Config :=
  run_schedule true [0; 0; 0] (initial cancel_and_ask).

(** ... and to the end. *)
Definition cancelled_config : Config :=
  run_schedule true [0; 0; 0; 0; 0; 0; 0; 1] (initial cancel_and_ask).

(** The invocations among the events of a trace. *)
Definition invocations_of (events : list Event) : list Invocation :=
  omap (λ e, match e with
             | EvInvoke i => Some i
             | _ => None
             end) events.

(** A token, a registration and a cancellation, then a second
    registration and a second cancellation, on one thread: what the two
    registrations return, what the two passes call, and [IsCancelled] at
    the end. *)
Definition register_then_cancel
  : Outcome (bool * list Invocation * bool * list Invocation * option bool) :=
  let '(m, h) := new_CancellationManager ∅ in
  '(t1, h) ← call_get_cancellation_token m h;
  '(r1, h) ← call_RegisterCallback true m t1 (Closure 7) h;
  '(log1, h) ← StartCancel 2 m h;
  '(t2, h) ← call_get_cancellation_token m h;
  '(r2, h) ← call_RegisterCallback true m t2 (Closure 8) h;
  '(log2, h) ← StartCancel 2 m h;
  Done (r1, log1, r2, log2, IsCancelled <$> h !! m).

(** A parent, a child bound to it, a callback registered on the child,
    and the parent cancelled: what the passes call, and [IsCancelled] of
    the child at the end. *)
Definition cancel_cascades : Outcome (list Invocation * option bool) :=
  let '(p, h) := new_CancellationManager ∅ in
  '(c, h) ← new_CancellationManager_child true p h;
  '(t, h) ← call_get_cancellation_token c h;
  '(_, h) ← call_RegisterCallback true c t (Closure 7) h;
  '(log, h) ← StartCancel 3 p h;
  Done (log, IsCancelled <$> h !! c).

(** ** Vocabulary of the further invariants *)

(** The constructor of a child registers under a token its parent
    issued. *)
Definition constructor_ok (trace : list Event) (f : Frame) : Prop :=
  match f with
  | InConstructor parent parent_token => parent_token ∈ tokens_issued parent trace
  | _ => True
  end.

(** The registrations a trace shows for manager [this]: a call of
    [RegisterCallback] that returned true, or the construction of a
    child, whose lambda the constructor registers. *)
Definition registered_in (trace : list Event) (this : addr)
    (token : CancellationToken) (callback : CancelCallback) : Prop :=
  EvReturn (OpRegisterCallback this token callback) (VBool true) ∈ trace ∨
  ∃ child, callback = ChildStartCancel child ∧
           EvReturn (OpNewChild this) (VAddr child) ∈ trace.

(** A thread waits in [DeregisterCallback] only for a manager that left
    the idle state with a [State] allocated. *)
Definition waiter_ok (h : gmap nat CancellationManager) (f : Frame) : Prop :=
  match f with
  | AtWaitForNotification this _ =>
      ∃ m, h !! this = Some m ∧ manager_state m ≠ Idle ∧ is_Some (state_ m)
  | _ => True
  end.

(** The notification of a cancelled manager is set, or the thread that
    ran the pass is about to set it. *)
Definition will_notify (h : gmap nat CancellationManager) (frames : list Frame)
  : Prop :=
  ∀ this m, h !! this = Some m → manager_state m = Cancelled → is_Some (state_ m) →
            notified m = true ∨ AtNotify this ∈ frames.

(** Inverting a step of a frame: one goal for each way the step can be
    taken, with the frames, the heap and the events it produces. *)
Ltac step_inv H :=
  simpl in H;
  repeat match type of H with
  | context [@lookup _ _ _ _ ?x ?h] =>
      let E := fresh "Hlookup" in
      destruct (h !! x) eqn:E; simpl in H; [|discriminate H]
  | context [RegisterCallback ?d ?t ?cb ?m] =>
      let E := fresh "Hregister" in
      destruct (RegisterCallback d t cb m) as [[? ?]|] eqn:E; simpl in H;
      [|discriminate H]
  | context [DeregisterCallback_locked ?t ?m] =>
      let E := fresh "Hderegister" in
      destruct (DeregisterCallback_locked t m) as [[?|] ?] eqn:E; simpl in H
  | context [TryDeregisterCallback ?t ?m] =>
      let E := fresh "Hderegister" in
      destruct (TryDeregisterCallback t m) as [? ?] eqn:E; simpl in H
  | context [StartCancel_acquire ?m] =>
      let E := fresh "Hacquire" in
      destruct (StartCancel_acquire m) as [[[? ?] ?]|] eqn:E; simpl in H
  | context [notified ?m] =>
      let E := fresh "Hnotified" in
      destruct (notified m) eqn:E; simpl in H; [|discriminate H]
  end;
  injection H as <- <- <-.

Ltac frame_cases f H :=
  destruct f as [[| | | | | | | ] | |? ? [|? ?] ?| | | ]; step_inv H.


(** A manager alone on the heap, at address 0. *)
Definition lone_manager : gmap nat CancellationManager :=
  (new_CancellationManager ∅).2.

(** The manager with two callbacks, alone on the heap. *)
Definition lone_two_callbacks : gmap nat CancellationManager :=
  <[0 := two_callbacks]> ∅.

(** The parent and its child after a [StartCancel] of the parent. *)
Definition cancelled_family : gmap nat CancellationManager :=
  match StartCancel 3 0 parent_and_child with
  | Done (_, h) => h
  | _ => parent_and_child
  end.

(** A thread created a manager and is in the constructor of a child of
    it, between lines 36 and 37. *)
Definition child_under_construction : Config :=
  run_schedule true [0; 0] (initial [[OpNew; OpNewChild 0]]).

(** One thread registered a callback and is in the pass, before the call
    of the callback; another called [DeregisterCallback] and waits. *)
Definition waiting_config : Config :=
  run_schedule true [0; 0; 0; 0; 1]
    (initial [[OpNew; OpGetToken 0; OpRegisterCallback 0 0 (Closure 7);
               OpStartCancel 0];
              [OpDeregisterCallback 0 0]]).

(** Two threads take tokens of one manager in turn; the first cancels
    the manager before the second takes its last token. *)
Definition tokens_config : Config :=
  run_schedule true [0; 0; 1; 0; 1; 0; 0; 1]
    (initial [[OpNew; OpGetToken 0; OpGetToken 0; OpStartCancel 0];
              [OpGetToken 0; OpGetToken 0; OpGetToken 0]]).

(** * Verification *)

(** ** The critical sections, state by state *)

Lemma manager_state_Idle m :
  manager_state m = Idle ↔ is_cancelled_ m = false ∧ is_cancelling_ m = false.
Proof.
  unfold manager_state.
  destruct (is_cancelled_ m), (is_cancelling_ m); intuition congruence.
Qed.

Lemma manager_state_Cancelling m :
  manager_state m = Cancelling ↔ is_cancelled_ m = false ∧ is_cancelling_ m = true.
Proof.
  unfold manager_state.
  destruct (is_cancelled_ m), (is_cancelling_ m); intuition congruence.
Qed.

Lemma manager_state_Cancelled m :
  manager_state m = Cancelled ↔ is_cancelled_ m = true.
Proof.
  unfold manager_state.
  destruct (is_cancelled_ m), (is_cancelling_ m); intuition congruence.
Qed.

(** What [erase] changes: the entry of the token, and nothing else. *)
Lemma registry_erase token m : registry (erase token m) = delete token (registry m).
Proof.
  unfold registry, erase. destruct (state_ m) as [st|] eqn:E; simpl.
  - done.
  - rewrite E. symmetry. apply delete_empty.
Qed.

Lemma erase_frame token m :
  is_cancelling_ (erase token m) = is_cancelling_ m ∧
  is_cancelled_ (erase token m) = is_cancelled_ m ∧
  next_cancellation_token_ (erase token m) = next_cancellation_token_ m ∧
  parent_ (erase token m) = parent_ m ∧
  parent_token_ (erase token m) = parent_token_ m ∧
  notified (erase token m) = notified m ∧
  (is_Some (state_ (erase token m)) ↔ is_Some (state_ m)).
Proof.
  unfold erase, notified. destruct (state_ m) as [st|] eqn:E; simpl; rewrite ?E;
    repeat split; auto; intros []; eauto.
Qed.

Lemma erase_absent token m : registry m !! token = None → erase token m = m.
Proof.
  unfold registry, erase. destruct m as [? ? ? [[n cbs]|] ? ?]; simpl; [|done].
  intros H. unfold set_state, set_callbacks; simpl. by rewrite delete_id.
Qed.

Lemma StartCancel_acquire_None m :
  StartCancel_acquire m = None ↔ manager_state m ≠ Idle.
Proof.
  unfold StartCancel_acquire, manager_state.
  destruct (is_cancelled_ m), (is_cancelling_ m); simpl;
    try (split; [done|]; intros; congruence); try (split; congruence).
  destruct (state_ m); split; congruence.
Qed.

Lemma StartCancel_acquire_Some m :
  manager_state m = Idle →
  ∃ m1, StartCancel_acquire m = Some (m1, registry m, bool_decide (is_Some (state_ m))) ∧
        manager_state m1 = Cancelling ∧ registry m1 = ∅ ∧
        (is_Some (state_ m1) ↔ is_Some (state_ m)) ∧
        notified m1 = notified m ∧
        next_cancellation_token_ m1 = next_cancellation_token_ m ∧
        parent_ m1 = parent_ m ∧ parent_token_ m1 = parent_token_ m.
Proof.
  intros [Hc Hg]%manager_state_Idle.
  unfold StartCancel_acquire, registry, notified. rewrite Hc, Hg. simpl.
  destruct (state_ m) as [st|] eqn:E; simpl; eexists; (split; [reflexivity|]);
    unfold manager_state; simpl; rewrite ?Hc, ?E; repeat split; auto; intros []; eauto; done.
Qed.

Lemma finished_Idle m :
  manager_state m = Idle →
  manager_state (finished m) = Cancelled ∧ is_cancelling_ (finished m) = false ∧
  registry (finished m) = ∅ ∧
  notified (finished m) = bool_decide (is_Some (state_ m)) ∧
  next_cancellation_token_ (finished m) = next_cancellation_token_ m ∧
  parent_ (finished m) = parent_ m ∧ parent_token_ (finished m) = parent_token_ m.
Proof.
  intros [Hc Hg]%manager_state_Idle.
  unfold finished, StartCancel_acquire. rewrite Hc, Hg. simpl.
  destruct (state_ m) as [st|] eqn:E; simpl; unfold registry, notified; simpl;
    rewrite ?E; repeat split; auto.
Qed.

(** ** [StartCancel] on a heap: what a pass does *)

Lemma by_manager_app this log1 log2 :
  by_manager this (log1 ++ log2) = by_manager this log1 ++ by_manager this log2.
Proof. apply filter_app. Qed.

Lemma by_manager_other this x token cb log :
  x ≠ this → by_manager this (Invoked x token cb :: log) = by_manager this log.
Proof. intros. unfold by_manager. by rewrite filter_cons_False. Qed.

Lemma by_manager_same this token cb log :
  by_manager this (Invoked this token cb :: log) =
  Invoked this token cb :: by_manager this log.
Proof. unfold by_manager. by rewrite filter_cons_True. Qed.

Lemma pass_post_refl h : pass_post h [] h.
Proof. intros this. left. by split. Qed.

(** A manager that is not idle is left alone. *)
Lemma pass_post_not_Idle h log h' this m :
  pass_post h log h' → h !! this = Some m → manager_state m ≠ Idle →
  h' !! this = Some m ∧ by_manager this log = [].
Proof.
  intros Hp Hm Hs. destruct (Hp this) as [[H1 H2]|(m' & H1 & H2 & _)].
  - by rewrite H1.
  - congruence.
Qed.

Lemma pass_post_trans h log1 h1 log2 h2 :
  pass_post h log1 h1 → pass_post h1 log2 h2 → pass_post h (log1 ++ log2) h2.
Proof.
  intros H1 H2 this. unfold untouched, cancelled_by_pass in *.
  rewrite by_manager_app.
  destruct (H1 this) as [[Ha Hb]|(m & Ha & Hb & Hc & Hd)].
  - destruct (H2 this) as [[Ha' Hb']|(m' & Ha' & Hb' & Hc' & Hd')].
    + left. rewrite Hb, Hb'. split; [congruence|done].
    + right. exists m'. rewrite Hb, Hd'. split_and!; try done. congruence.
  - destruct (pass_post_not_Idle _ _ _ this (finished m) H2 Hc) as [Ha' Hb'].
    { destruct (finished_Idle m Hb) as [Hf _]. congruence. }
    right. exists m. rewrite Hd, Hb', app_nil_r. done.
Qed.

Lemma pass_post_dom h log h' this :
  pass_post h log h' → is_Some (h' !! this) ↔ is_Some (h !! this).
Proof.
  intros Hp. destruct (Hp this) as [[H1 _]|(m & H1 & _ & H2 & _)].
  - by rewrite H1.
  - rewrite H1, H2. split; eauto.
Qed.

(** The loop, for a manager that is in its pass. *)
Lemma run_callbacks_post call this m :
  (∀ child h log h', call child h = Done (log, h') → pass_post h log h') →
  manager_state m ≠ Idle →
  ∀ todo h log h',
    h !! this = Some m →
    run_callbacks call this todo h = Done (log, h') →
    h' !! this = Some m ∧
    by_manager this log = invocations this todo ∧
    ∀ x, x ≠ this → untouched x h log h' ∨ cancelled_by_pass x h log h'.
Proof.
  intros Hcall Hs todo. induction todo as [|[token cb] rest IH]; intros h log h' Hm Hrun.
  - simpl in Hrun. injection Hrun as <- <-. split_and!; [done..|].
    intros x _. apply pass_post_refl.
  - simpl in Hrun.
    destruct (call_callback call cb h) as [[log1 h1]| | | |] eqn:E1; try done.
    simpl in Hrun.
    destruct (run_callbacks call this rest h1) as [[log2 h2]| | | |] eqn:E2; try done.
    simpl in Hrun. injection Hrun as <- <-.
    assert (pass_post h log1 h1) as Hp1.
    { destruct cb; simpl in E1.
      - injection E1 as <- <-. apply pass_post_refl.
      - by eapply Hcall. }
    destruct (pass_post_not_Idle _ _ _ _ _ Hp1 Hm Hs) as [Hm1 Hl1].
    destruct (IH _ _ _ Hm1 E2) as (Hm2 & Hl2 & Hx).
    split_and!; [done| |].
    + rewrite by_manager_same, by_manager_app, Hl1, Hl2. done.
    + intros x Hne.
      unfold untouched, cancelled_by_pass in *.
      rewrite by_manager_other, by_manager_app by done.
      destruct (Hp1 x) as [[Ha Hb]|(mx & Ha & Hb & Hc & Hd)].
      * destruct (Hx x Hne) as [[Ha' Hb']|(m' & Ha' & Hb' & Hc' & Hd')].
        -- left. rewrite Hb, Hb'. split; [congruence|done].
        -- right. exists m'. rewrite Hb, Hd'. split_and!; try done. congruence.
      * destruct (Hx x Hne) as [[Ha' Hb']|(m' & Ha' & Hb' & Hc' & Hd')].
        -- right. exists mx. rewrite Hd, Hb', app_nil_r. split_and!; try done. congruence.
        -- destruct (finished_Idle mx Hb) as [Hf _]. congruence.
Qed.

(** A call of [StartCancel] that returns. *)
Lemma StartCancel_post fuel :
  ∀ this h log h',
    StartCancel fuel this h = Done (log, h') →
    pass_post h log h' ∧
    ∀ m, h !! this = Some m → manager_state m = Idle →
         cancelled_by_pass this h log h'.
Proof.
  induction fuel as [|fuel IH]; intros this h log h' Hrun; [done|].
  simpl in Hrun. unfold deref in Hrun.
  destruct (h !! this) as [m|] eqn:Hm; [|done]. simpl in Hrun.
  destruct (StartCancel_acquire m) as [[[m1 cbs] n]|] eqn:Hacq.
  2:{ injection Hrun as <- <-. split; [apply pass_post_refl|].
      intros m' [= <-] Hs. apply StartCancel_acquire_None in Hacq. done. }
  assert (manager_state m = Idle) as Hidle.
  { destruct (decide (manager_state m = Idle)) as [|Hn]; [done|].
    apply StartCancel_acquire_None in Hn. congruence. }
  destruct (StartCancel_acquire_Some m Hidle) as (m1' & Hacq' & Hs1 & Hr1 & _).
  rewrite Hacq in Hacq'. injection Hacq' as <- -> ->.
  destruct (run_callbacks (StartCancel fuel) this (map_to_list (registry m))
              (<[this := m1]> h)) as [[log1 h1]| | | |] eqn:E1; try done.
  simpl in Hrun.
  assert (manager_state m1 ≠ Idle) as Hn1 by congruence.
  destruct (run_callbacks_post (StartCancel fuel) this m1
              (λ c h log h' H, proj1 (IH c h log h' H)) Hn1 _ _ _ _
              (lookup_insert_eq h this m1) E1) as (Hm1 & Hl1 & Hx).
  rewrite Hm1 in Hrun. simpl in Hrun. injection Hrun as <- <-.
  assert (cancelled_by_pass this h log1
            (<[this := if bool_decide (is_Some (state_ m))
                       then Notify (StartCancel_release m1)
                       else StartCancel_release m1]> h1)) as Hthis.
  { exists m. split_and!; [done..| |done].
    rewrite lookup_insert_eq. f_equal. unfold finished. by rewrite Hacq. }
  split; [|by intros].
  intros x. destruct (decide (x = this)) as [->|Hne]; [by right|].
  unfold untouched, cancelled_by_pass in *.
  rewrite lookup_insert_ne by done.
  destruct (Hx x Hne) as [[Ha Hb]|(mx & Ha & Hb & Hc & Hd)].
  - left. rewrite lookup_insert_ne in Ha by done. done.
  - right. exists mx. rewrite lookup_insert_ne in Ha by done. done.
Qed.

(** ** [StartCancel] returns *)

Lemma closed_alt h :
  closed h ↔
  ∀ this m token child,
    h !! this = Some m → registry m !! token = Some (ChildStartCancel child) →
    is_Some (h !! child).
Proof.
  unfold closed. split.
  - intros H this m token child Hm Hr.
    specialize (H this m Hm token _ Hr). simpl in H. by apply bool_decide_eq_true in H.
  - intros H this m Hm token [id|child] Hr; simpl; [done|].
    apply bool_decide_eq_true. eauto.
Qed.

Lemma elem_of_idle_managers h this :
  this ∈ idle_managers h ↔ ∃ m, h !! this = Some m ∧ manager_state m = Idle.
Proof.
  unfold idle_managers. rewrite elem_of_dom. unfold is_Some.
  setoid_rewrite map_lookup_filter_Some. simpl. done.
Qed.

Lemma pass_post_idle_managers h log h' :
  pass_post h log h' → idle_managers h' ⊆ idle_managers h.
Proof.
  intros Hp x. rewrite !elem_of_idle_managers. intros (m & Hm & Hs).
  destruct (Hp x) as [[H1 _]|(m' & H1 & H2 & H3 & _)].
  - exists m. by rewrite <- H1.
  - destruct (finished_Idle m' H2) as [Hf _]. congruence.
Qed.

Lemma pass_post_closed h log h' : pass_post h log h' → closed h → closed h'.
Proof.
  rewrite !closed_alt. intros Hp Hc this m token child Hm Hr.
  apply (pass_post_dom _ _ _ child Hp).
  destruct (Hp this) as [[H1 _]|(m' & H1 & H2 & H3 & _)].
  - rewrite H1 in Hm. eauto.
  - destruct (finished_Idle m' H2) as (_ & _ & Hf & _).
    rewrite H3 in Hm. injection Hm as <-. rewrite Hf in Hr. done.
Qed.

Lemma idle_managers_acquire h this m m1 :
  h !! this = Some m → manager_state m = Idle → manager_state m1 ≠ Idle →
  size (idle_managers (<[this := m1]> h)) < size (idle_managers h).
Proof.
  intros Hm Hs Hs1. apply subset_size. apply elem_of_subset. split.
  - intros x. rewrite !elem_of_idle_managers. intros (mx & Hx & Hsx).
    destruct (decide (x = this)) as [->|Hne].
    + rewrite lookup_insert_eq in Hx. congruence.
    + rewrite lookup_insert_ne in Hx by done. eauto.
  - intros Hall. specialize (Hall this). rewrite !elem_of_idle_managers in Hall.
    destruct Hall as (mx & Hx & Hsx); [eauto|].
    rewrite lookup_insert_eq in Hx. congruence.
Qed.

Lemma closed_insert h this m1 :
  closed h → is_Some (h !! this) → registry m1 = ∅ → closed (<[this := m1]> h).
Proof.
  rewrite !closed_alt. intros Hc Hthis Hr x m token child Hx Hreg.
  destruct (decide (x = this)) as [->|Hne].
  - rewrite lookup_insert_eq in Hx. injection Hx as <-. rewrite Hr in Hreg. done.
  - rewrite lookup_insert_ne in Hx by done.
    destruct (Hc _ _ _ _ Hx Hreg) as [mc Hmc].
    destruct (decide (child = this)) as [->|Hne'].
    + rewrite lookup_insert_eq. eauto.
    + rewrite lookup_insert_ne by done. eauto.
Qed.

Lemma run_callbacks_total fuel this m :
  (∀ x h, closed h → is_Some (h !! x) → size (idle_managers h) < fuel →
          ∃ log h', StartCancel fuel x h = Done (log, h')) →
  manager_state m ≠ Idle →
  ∀ todo h,
    h !! this = Some m → closed h → size (idle_managers h) < fuel →
    (∀ token child, (token, ChildStartCancel child) ∈ todo → is_Some (h !! child)) →
    ∃ log h', run_callbacks (StartCancel fuel) this todo h = Done (log, h').
Proof.
  intros IH Hs todo. induction todo as [|[token cb] rest IHl]; intros h Hm Hc Hsz Hch.
  - simpl. eauto.
  - assert (∃ log1 h1, call_callback (StartCancel fuel) cb h = Done (log1, h1) ∧
                        pass_post h log1 h1) as (log1 & h1 & E1 & Hp1).
    { destruct cb as [id|child]; simpl.
      - exists [], h. split; [done|apply pass_post_refl].
      - destruct (IH child h Hc) as (log1 & h1 & E); [|done|].
        { apply (Hch token). left. }
        exists log1, h1. split; [done|]. by apply StartCancel_post in E as [? _]. }
    destruct (pass_post_not_Idle _ _ _ _ _ Hp1 Hm Hs) as [Hm1 _].
    destruct (IHl h1 Hm1) as (log2 & h2 & E2).
    + by eapply pass_post_closed.
    + eapply Nat.le_lt_trans; [|exact Hsz].
      apply subseteq_size. by eapply pass_post_idle_managers.
    + intros token' child' Hin. apply (pass_post_dom _ _ _ child' Hp1).
      apply (Hch token'). by right.
    + simpl. rewrite E1. simpl. rewrite E2. simpl. eauto.
Qed.

Theorem StartCancel_total fuel :
  ∀ this h,
    closed h → is_Some (h !! this) → size (idle_managers h) < fuel →
    ∃ log h', StartCancel fuel this h = Done (log, h').
Proof.
  induction fuel as [|fuel IH]; intros this h Hc [m Hm] Hsz; [lia|].
  simpl. unfold deref. rewrite Hm. simpl.
  destruct (StartCancel_acquire m) as [[[m1 cbs] n]|] eqn:Hacq; [|eauto].
  assert (manager_state m = Idle) as Hidle.
  { destruct (decide (manager_state m = Idle)) as [|Hn]; [done|].
    apply StartCancel_acquire_None in Hn. congruence. }
  destruct (StartCancel_acquire_Some m Hidle) as (m1' & Hacq' & Hs1 & Hr1 & _).
  rewrite Hacq in Hacq'. injection Hacq' as <- -> ->.
  assert (manager_state m1 ≠ Idle) as Hn1 by congruence.
  destruct (run_callbacks_total fuel this m1 IH Hn1 (map_to_list (registry m))
              (<[this := m1]> h)) as (log1 & h1 & E1).
  - apply lookup_insert_eq.
  - apply closed_insert; eauto.
  - pose proof (idle_managers_acquire h this m m1 Hm Hidle Hn1). lia.
  - intros token child Hin%elem_of_map_to_list.
    destruct (proj1 (closed_alt h) Hc _ _ _ _ Hm Hin) as [mc Hmc].
    destruct (decide (child = this)) as [->|Hne].
    + rewrite lookup_insert_eq. eauto.
    + rewrite lookup_insert_ne by done. eauto.
  - rewrite E1. simpl.
    destruct (run_callbacks_post (StartCancel fuel) this m1
                (λ c h log h' H, proj1 (StartCancel_post fuel c h log h' H)) Hn1 _ _ _ _
                (lookup_insert_eq h this m1) E1) as (Hm1 & _).
    rewrite Hm1. simpl. eauto.
Qed.

(** ** Repeated calls and registrations *)

Lemma StartCancel_not_Idle fuel this (h : gmap nat CancellationManager) m :
  h !! this = Some m → manager_state m ≠ Idle →
  StartCancel (S fuel) this h = Done ([], h).
Proof.
  intros Hm Hs%StartCancel_acquire_None. simpl. unfold deref. rewrite Hm. simpl.
  by rewrite Hs.
Qed.

Lemma StartCancel_times_not_Idle fuel n this (h : gmap nat CancellationManager) m :
  h !! this = Some m → manager_state m ≠ Idle →
  StartCancel_times (S fuel) n this h = Done ([], h).
Proof.
  intros Hm Hs. induction n as [|n IH]; [done|].
  cbn [StartCancel_times]. rewrite (StartCancel_not_Idle _ _ _ _ Hm Hs). simpl.
  rewrite IH. done.
Qed.

Lemma NoDup_invocations this (r : gmap Z CancelCallback) :
  NoDup (invocations this (map_to_list r)).
Proof.
  unfold invocations. apply NoDup_fmap_2.
  - intros [t1 c1] [t2 c2]. simpl. congruence.
  - apply NoDup_map_to_list.
Qed.

Lemma elem_of_invocations this (r : gmap Z CancelCallback) x token cb :
  Invoked x token cb ∈ invocations this (map_to_list r) ↔
  x = this ∧ r !! token = Some cb.
Proof.
  unfold invocations. rewrite list_elem_of_fmap. split.
  - intros ([t c] & [= -> -> ->] & Hin%elem_of_map_to_list). done.
  - intros [-> H]. exists (token, cb). split; [done|]. by apply elem_of_map_to_list.
Qed.

Lemma elem_of_by_manager this i log :
  i ∈ by_manager this log ↔ inv_manager i = this ∧ i ∈ log.
Proof. unfold by_manager. by rewrite list_elem_of_filter. Qed.

Section Registrations.
Variable dcheck_is_on : bool.

Lemma RegisterCallback_Idle token callback m :
  manager_state m = Idle →
  DCHECK_LT dcheck_is_on token (next_cancellation_token_ m) = true →
  ∃ m', RegisterCallback dcheck_is_on token callback m = Some (true, m') ∧
        registry m' = <[token := callback]> (registry m) ∧
        is_Some (state_ m') ∧
        manager_state m' = Idle ∧
        notified m' = notified m ∧
        next_cancellation_token_ m' = next_cancellation_token_ m ∧
        parent_ m' = parent_ m ∧ parent_token_ m' = parent_token_ m.
Proof.
  intros [Hc Hg]%manager_state_Idle Hd. unfold RegisterCallback.
  rewrite Hd, Hc, Hg. simpl. eexists. split; [reflexivity|].
  unfold registry, notified, manager_state. simpl. rewrite Hc, Hg.
  destruct (state_ m); simpl; eauto 10.
Qed.

Lemma RegisterCallback_not_Idle token callback m :
  manager_state m ≠ Idle →
  DCHECK_LT dcheck_is_on token (next_cancellation_token_ m) = true →
  RegisterCallback dcheck_is_on token callback m = Some (false, m).
Proof.
  intros Hs Hd. unfold RegisterCallback. rewrite Hd.
  unfold manager_state in Hs.
  destruct (is_cancelled_ m), (is_cancelling_ m); simpl; done.
Qed.

Lemma RegisterCallback_true token callback m m' :
  RegisterCallback dcheck_is_on token callback m = Some (true, m') →
  manager_state m = Idle ∧ manager_state m' = Idle ∧
  registry m' = <[token := callback]> (registry m).
Proof.
  intros H. assert (DCHECK_LT dcheck_is_on token (next_cancellation_token_ m) = true) as Hd.
  { unfold RegisterCallback in H. by destruct (DCHECK_LT _ _ _). }
  destruct (decide (manager_state m = Idle)) as [Hs|Hs].
  - destruct (RegisterCallback_Idle token callback m Hs Hd) as (m1 & E & ? & ? & ? & _).
    rewrite E in H. injection H as <-. done.
  - rewrite (RegisterCallback_not_Idle token callback m Hs Hd) in H. done.
Qed.

Lemma register_all_registry registrations : ∀ m m',
  register_all dcheck_is_on registrations m = Some m' →
  registry m' = foldl (λ r kv, <[kv.1 := kv.2]> r) (registry m) registrations ∧
  (registrations ≠ [] → manager_state m = Idle) ∧
  manager_state m' = manager_state m.
Proof.
  induction registrations as [|[token cb] l IH]; intros m m' H; simpl in *.
  - injection H as <-. done.
  - destruct (RegisterCallback dcheck_is_on token cb m) as [[[] m1]|] eqn:E; try done.
    apply RegisterCallback_true in E as (Hs & Hs1 & Hr).
    destruct (IH _ _ H) as (Hr' & _ & Hs'). rewrite Hr', Hr. split_and!; [done|done|congruence].
Qed.

End Registrations.

(** ** Registration, state by state *)

Section RegisterCallbackCases.
Variable dcheck_is_on : bool.

(** C2. When its [DCHECK] passes, [RegisterCallback] returns true exactly
    when the manager is idle.  Idle: the callback is stored under the
    token, in a state block that exists afterwards (allocated now if
    there was none), and nothing else changes.  Cancelling or cancelled:
    it returns false and the manager is unchanged, and since it is not
    idle every later [StartCancel] on it returns at once without running
    any callback. *)
Theorem RegisterCallback_succeeds_iff_Idle token callback m :
  DCHECK_LT dcheck_is_on token (next_cancellation_token_ m) = true →
  ∃ registered m',
    RegisterCallback dcheck_is_on token callback m = Some (registered, m') ∧
    (registered = true ↔ manager_state m = Idle) ∧
    match manager_state m with
    | Idle =>
        registry m' = <[token := callback]> (registry m) ∧
        is_Some (state_ m') ∧
        manager_state m' = Idle ∧
        notified m' = notified m ∧
        next_cancellation_token_ m' = next_cancellation_token_ m ∧
        parent_ m' = parent_ m ∧ parent_token_ m' = parent_token_ m
    | _ =>
        registered = false ∧ m' = m ∧
        ∀ fuel n this (h : gmap nat CancellationManager),
          h !! this = Some m' →
          StartCancel_times (S fuel) n this h = Done ([], h)
    end.
Proof.
  intros Hd. destruct (decide (manager_state m = Idle)) as [Hs|Hs].
  - destruct (RegisterCallback_Idle dcheck_is_on token callback m Hs Hd) as (m' & E & H).
    exists true, m'. rewrite Hs. done.
  - exists false, m.
    rewrite (RegisterCallback_not_Idle dcheck_is_on token callback m Hs Hd).
    split_and!; [done|split; [done|intros; done]|].
    destruct (manager_state m) eqn:E; [done| |];
      (split_and!; [done..|]); intros fuel n this h Hm;
      (eapply StartCancel_times_not_Idle; [done|congruence]).
Qed.

(** C10. Registering under a token that already has a callback, on an
    idle manager: the call returns true, the registry has the new callback
    under the token and is otherwise the same.  The pass of a later
    [StartCancel] calls, for that token, the new callback and only it; if
    the replaced callback was registered under no other token, the
    manager never calls it. *)
Theorem RegisterCallback_replaces token old new m :
  manager_state m = Idle →
  registry m !! token = Some old →
  DCHECK_LT dcheck_is_on token (next_cancellation_token_ m) = true →
  ∃ m',
    RegisterCallback dcheck_is_on token new m = Some (true, m') ∧
    registry m' = <[token := new]> (registry m) ∧
    registry m' !! token = Some new ∧
    dom (registry m') = dom (registry m) ∧
    manager_state m' = Idle ∧
    ∀ this (h : gmap nat CancellationManager) fuel,
      h !! this = Some m' → closed h → size (idle_managers h) < fuel →
      ∃ log h',
        StartCancel fuel this h = Done (log, h') ∧
        (∀ callback, Invoked this token callback ∈ log ↔ callback = new) ∧
        ((∀ t, registry m !! t = Some old → t = token) → old ≠ new →
         ∀ t, Invoked this t old ∉ log) ∧
        ∀ k, StartCancel_times fuel k this h' = Done ([], h').
Proof.
  intros Hs Hold Hd.
  destruct (RegisterCallback_Idle dcheck_is_on token new m Hs Hd)
    as (m' & E & Hr & _ & Hs' & _).
  exists m'. split_and!; [done|done| | |done|].
  - rewrite Hr. apply lookup_insert_eq.
  - rewrite Hr, dom_insert_L. apply elem_of_dom_2 in Hold. set_solver.
  - intros this h fuel Hm Hc Hfuel.
    destruct (StartCancel_total fuel this h Hc (mk_is_Some _ _ Hm) Hfuel) as (log & h' & Erun).
    exists log, h'. destruct fuel as [|fuel]; [lia|].
    destruct (StartCancel_post _ _ _ _ _ Erun) as [_ Hp].
    destruct (Hp m' Hm Hs') as (m1 & Hm1 & _ & Hf & Hl).
    rewrite Hm in Hm1. injection Hm1 as <-.
    destruct (finished_Idle m' Hs') as (Hfs & _).
    assert (∀ t cb, Invoked this t cb ∈ log ↔ registry m' !! t = Some cb) as Hin.
    { intros t cb.
      pose proof (elem_of_invocations this (registry m') this t cb) as Hin.
      rewrite <- Hl, elem_of_by_manager in Hin. simpl in Hin. tauto. }
    split_and!; [done| | |].
    + intros cb. rewrite Hin, Hr, lookup_insert_eq. split; congruence.
    + intros Honly Hne t. rewrite Hin, Hr. intros Hlk.
      destruct (decide (t = token)) as [->|Hnt].
      * rewrite lookup_insert_eq in Hlk. congruence.
      * rewrite lookup_insert_ne in Hlk by done. apply Honly in Hlk. done.
    + intros k. eapply StartCancel_times_not_Idle; [done|congruence].
Qed.

End RegisterCallbackCases.

(** ** Deregistration *)

Lemma DeregisterCallback_locked_Idle token m :
  manager_state m = Idle →
  DeregisterCallback_locked token m = (Returns true, erase token m).
Proof.
  intros [Hc Hg]%manager_state_Idle. unfold DeregisterCallback_locked.
  by rewrite Hc, Hg.
Qed.

Lemma TryDeregisterCallback_Idle token m :
  manager_state m = Idle →
  TryDeregisterCallback token m = (true, erase token m).
Proof.
  intros [Hc Hg]%manager_state_Idle. unfold TryDeregisterCallback.
  by rewrite Hc, Hg.
Qed.

Lemma TryDeregisterCallback_not_Idle token m :
  manager_state m ≠ Idle → TryDeregisterCallback token m = (false, m).
Proof.
  unfold manager_state, TryDeregisterCallback.
  destruct (is_cancelled_ m), (is_cancelling_ m); done.
Qed.

Section TryDeregisterCallbackCases.
Variable dcheck_is_on : bool.

(** C8. [TryDeregisterCallback] completes in one step of the calling
    thread in every state: it never waits.  Idle: it returns true and
    removes the entry of the token if there is one, changing nothing
    else, exactly as [DeregisterCallback] does.  Cancelling or cancelled:
    it returns false and the manager is unchanged. *)
Theorem TryDeregisterCallback_never_blocks token m :
  (∀ this (h : gmap nat CancellationManager),
     h !! this = Some m →
     frame_step dcheck_is_on (AtCall (OpTryDeregisterCallback this token)) h =
     Some ([], <[this := (TryDeregisterCallback token m).2]> h,
           [EvReturn (OpTryDeregisterCallback this token)
              (VBool (TryDeregisterCallback token m).1)])) ∧
  match manager_state m with
  | Idle =>
      ∃ m', TryDeregisterCallback token m = (true, m') ∧
            DeregisterCallback_locked token m = (Returns true, m') ∧
            registry m' = delete token (registry m) ∧
            (registry m !! token = None → m' = m) ∧
            manager_state m' = Idle ∧
            notified m' = notified m ∧
            (is_Some (state_ m') ↔ is_Some (state_ m)) ∧
            next_cancellation_token_ m' = next_cancellation_token_ m ∧
            parent_ m' = parent_ m ∧ parent_token_ m' = parent_token_ m
  | _ => TryDeregisterCallback token m = (false, m)
  end.
Proof.
  split.
  - intros this h Hm. simpl. rewrite Hm. simpl.
    by destruct (TryDeregisterCallback token m).
  - destruct (manager_state m) eqn:Hs.
    + exists (erase token m).
      destruct (erase_frame token m) as (H1 & H2 & H3 & H4 & H5 & H6 & H7).
      split_and!; try done.
      * by apply TryDeregisterCallback_Idle.
      * by apply DeregisterCallback_locked_Idle.
      * apply registry_erase.
      * apply erase_absent.
      * unfold manager_state in *. by rewrite H1, H2.
    + apply TryDeregisterCallback_not_Idle. congruence.
    + apply TryDeregisterCallback_not_Idle. congruence.
Qed.

End TryDeregisterCallbackCases.

(** ** Invariants of the interleaving semantics *)

Lemma tokens_issued_app this tr1 tr2 :
  tokens_issued this (tr1 ++ tr2) = tokens_issued this tr1 ++ tokens_issued this tr2.
Proof. apply omap_app. Qed.

Lemma passes_started_app this tr1 tr2 :
  passes_started this (tr1 ++ tr2) = passes_started this tr1 ++ passes_started this tr2.
Proof. apply omap_app. Qed.

Lemma invoked_app this tr1 tr2 :
  invoked this (tr1 ++ tr2) = invoked this tr1 ++ invoked this tr2.
Proof. apply omap_app. Qed.

Lemma returned_app this tr1 tr2 :
  returned this (tr1 ++ tr2) = returned this tr1 ++ returned this tr2.
Proof. apply omap_app. Qed.

(** A step of a thread replaces one frame among all the frames. *)
Lemma frames_of_step (threads : list (list Frame)) tid f stack fs :
  threads !! tid = Some (f :: stack) →
  ∃ rest, concat threads ≡ₚ f :: rest ∧
          concat (<[tid := fs ++ stack]> threads) ≡ₚ fs ++ rest.
Proof.
  intros Hl. exists (stack ++ concat (take tid threads) ++ concat (drop (S tid) threads)).
  pose proof (lookup_lt_Some _ _ _ Hl) as Hlt.
  split.
  - rewrite <- (take_drop_middle _ _ _ Hl) at 1.
    rewrite concat_app, concat_cons. solve_Permutation.
  - rewrite insert_take_drop by done.
    rewrite concat_app, concat_cons. solve_Permutation.
Qed.

Lemma manager_ok_perm frames frames' trace this m :
  frames ≡ₚ frames' → manager_ok frames trace this m → manager_ok frames' trace this m.
Proof.
  intros Hp [H1 H2 H3 H4 H5 H6 H7 H8]. split; try done.
  unfold in_flight in *. by rewrite <- Hp.
Qed.

Lemma invariant_perm h frames frames' trace :
  frames ≡ₚ frames' → invariant h frames trace → invariant h frames' trace.
Proof.
  intros Hp [H1 H2 H3]. split; [by rewrite <- Hp| |done].
  intros this m Hm. eapply manager_ok_perm; [done|]. by apply H2.
Qed.

Lemma in_flight_app this frames1 frames2 :
  in_flight this (frames1 ++ frames2) = in_flight this frames1 + in_flight this frames2.
Proof. unfold in_flight. by rewrite filter_app, length_app. Qed.

Lemma in_flight_cons this f frames :
  in_flight this (f :: frames) =
  (if in_pass this f then 1 else 0) + in_flight this frames.
Proof.
  unfold in_flight. rewrite filter_cons.
  destruct (in_pass this f); by case_decide.
Qed.

Lemma in_flight_inert this frames : Forall inert frames → in_flight this frames = 0.
Proof.
  induction 1 as [|f l Hf _ IH]; [done|].
  rewrite in_flight_cons, IH. by destruct f.
Qed.

Lemma frame_ok_inert h trace f : inert f → frame_ok h trace f.
Proof. by destruct f. Qed.

(** A frame stays fine when its manager keeps its state and the trace
    gains no pass and no invocation of that manager. *)
Lemma frame_ok_stable (h h' : gmap nat CancellationManager) trace events f :
  (∀ x m, frame_manager f = Some x → h !! x = Some m →
          (∃ m', h' !! x = Some m' ∧ manager_state m' = manager_state m ∧
                 (is_Some (state_ m') ↔ is_Some (state_ m))) ∧
          passes_started x events = [] ∧ invoked x events = [] ∧
          returned x events = []) →
  frame_ok h trace f → frame_ok h' (trace ++ events) f.
Proof.
  intros Hh. destruct f as [| |this running todo n| |this|]; simpl; try done.
  - intros (m & cbs & Hm & Hs & Hn & Hps & Hrun & Hinv & Hnone).
    destruct (Hh this m eq_refl Hm) as ((m' & Hm' & Hs' & Hst) & Hp & Hi & Hr).
    exists m', cbs.
    rewrite passes_started_app, invoked_app, returned_app, Hp, Hi, Hr, !app_nil_r.
    split_and!; try done; [congruence|].
    rewrite Hn. by apply bool_decide_ext.
  - intros (m & Hm & Hs & Hst).
    destruct (Hh this m eq_refl Hm) as ((m' & Hm' & Hs' & Hst') & _).
    exists m'. split_and!; [done|congruence|by apply Hst'].
Qed.

(** A frame that stands for a manager finds it cancelling or cancelled. *)
Lemma frame_ok_not_Idle (h : gmap nat CancellationManager) trace f x m :
  frame_ok h trace f → frame_manager f = Some x → h !! x = Some m →
  manager_state m ≠ Idle.
Proof.
  destruct f; simpl; try done.
  - intros (m' & cbs & Hm & Hs & _) [= ->] Hx. congruence.
  - intros (m' & Hm & Hs & _) [= ->] Hx. congruence.
Qed.

(** While a manager is cancelling, its pass is the only frame that
    stands for it. *)
Lemma pass_is_alone (h : gmap nat CancellationManager) trace this running todo n rest m :
  Forall (frame_ok h trace) rest →
  h !! this = Some m → manager_state m = Cancelling →
  in_flight this (InStartCancel this running todo n :: rest) = 1 →
  in_flight this rest = 0 ∧
  Forall (λ g, frame_manager g ≠ Some this) rest.
Proof.
  intros Hfr Hm Hs Hfl. rewrite in_flight_cons in Hfl. simpl in Hfl.
  rewrite bool_decide_eq_true_2 in Hfl by done.
  assert (in_flight this rest = 0) as H0 by lia. split; [done|].
  rewrite Forall_forall in Hfr |- *. intros g Hg Hfm.
  destruct g as [| |x running' todo' n'| |x|]; simpl in Hfm; try done;
    injection Hfm as ->.
  - unfold in_flight in H0. apply length_zero_iff_nil in H0.
    eapply (filter_nil_not_elem_of _ _ _ H0); [|done]. simpl.
    by apply bool_decide_eq_true_2.
  - destruct (Hfr _ Hg) as (m' & Hm' & Hs' & _). congruence.
Qed.

Lemma manager_state_flags m m' :
  is_cancelling_ m' = is_cancelling_ m → is_cancelled_ m' = is_cancelled_ m →
  manager_state m' = manager_state m.
Proof. unfold manager_state. by intros -> ->. Qed.

(** A manager stays fine when a step keeps its flags, counts as many
    passes of it, and at most issues its next token. *)
Lemma manager_ok_update frames frames' trace events x m m' :
  manager_ok frames trace x m →
  in_flight x frames' = in_flight x frames →
  is_cancelling_ m' = is_cancelling_ m → is_cancelled_ m' = is_cancelled_ m →
  (notified m' = true → manager_state m = Cancelled) →
  (manager_state m ≠ Idle → registry m' = ∅) →
  passes_started x events = [] → invoked x events = [] →
  returned x events = [] →
  (tokens_issued x events = [] ∧
   (next_cancellation_token_ m ≤ next_cancellation_token_ m')%Z ∨
   tokens_issued x events = [next_cancellation_token_ m] ∧
   next_cancellation_token_ m' = (next_cancellation_token_ m + 1)%Z) →
  manager_ok frames' (trace ++ events) x m'.
Proof.
  intros [H1 H2 H3 H4 H5 H6 H7 H8] Hfl Hg Hc Hn Hr Hp Hi Hrt Ht.
  pose proof (manager_state_flags m m' Hg Hc) as Hs.
  split; rewrite ?passes_started_app, ?invoked_app, ?returned_app, ?Hp, ?Hi, ?Hrt,
           ?app_nil_r, ?Hs, ?Hfl;
    try done.
  - rewrite Hg, Hc. done.
  - rewrite tokens_issued_app.
    destruct Ht as [[-> _]|[-> _]]; [by rewrite app_nil_r|].
    apply StronglySorted_app_2; [|done|repeat constructor].
    intros t1 t2 Hin1 ->%list_elem_of_singleton.
    rewrite Forall_forall in H8. by apply H8.
  - rewrite tokens_issued_app.
    destruct Ht as [[-> Hle]|[-> ->]]; rewrite ?app_nil_r, ?Forall_app, ?Forall_singleton.
    + eapply Forall_impl; [done|]. simpl. intros. lia.
    + split; [|lia]. eapply Forall_impl; [done|]. simpl. intros. lia.
Qed.

(** A manager stays fine when only frames and events of other managers
    change. *)
Lemma manager_ok_other frames frames' trace events x m :
  manager_ok frames trace x m →
  in_flight x frames' = in_flight x frames →
  passes_started x events = [] → invoked x events = [] →
  returned x events = [] → tokens_issued x events = [] →
  manager_ok frames' (trace ++ events) x m.
Proof.
  intros Hok Hfl Hp Hi Hrt Ht. eapply manager_ok_update; eauto.
  - by eapply ok_notified.
  - by eapply ok_drained.
  - left. split; [done|lia].
Qed.

Lemma invariant_local_update (h : gmap nat CancellationManager)
    f rest trace this m m' fs events :
  invariant h (f :: rest) trace →
  (∀ x, in_pass x f = false) →
  Forall inert fs →
  h !! this = Some m →
  keeps_state m m' →
  (∀ x, passes_started x events = []) → (∀ x, invoked x events = []) →
  (∀ x, returned x events = []) →
  (∀ x, x ≠ this → tokens_issued x events = []) →
  (tokens_issued this events = [] ∧
   (next_cancellation_token_ m ≤ next_cancellation_token_ m')%Z ∨
   tokens_issued this events = [next_cancellation_token_ m] ∧
   next_cancellation_token_ m' = (next_cancellation_token_ m + 1)%Z) →
  invariant (<[this := m']> h) (fs ++ rest) (trace ++ events).
Proof.
  intros [Hfr Hmg Hab] Hf Hfs Hm (Hg & Hc & Hst & Hn) Hp Hi Hrt Hto Ht.
  assert (∀ x, in_flight x (fs ++ rest) = in_flight x (f :: rest)) as Hfl.
  { intros x. rewrite in_flight_app, in_flight_cons, in_flight_inert by done.
    by rewrite Hf. }
  apply Forall_cons in Hfr as [_ Hrest].
  split.
  - apply Forall_app. split.
    + eapply Forall_impl; [done|]. intros. by apply frame_ok_inert.
    + rewrite Forall_forall in Hrest |- *. intros g Hg'.
      apply (frame_ok_stable h); [|by apply Hrest].
      intros x mx Hfm Hx. split; [|done]. destruct (decide (x = this)) as [->|Hne].
      * rewrite lookup_insert_eq. exists m'. rewrite Hm in Hx. injection Hx as <-.
        pose proof (frame_ok_not_Idle _ _ _ _ _ (Hrest _ Hg') Hfm Hm) as Hni.
        split_and!; [done| |by apply Hst]. by apply manager_state_flags.
      * rewrite lookup_insert_ne by done. eauto.
  - intros x mx Hx. destruct (decide (x = this)) as [->|Hne].
    + rewrite lookup_insert_eq in Hx. injection Hx as <-.
      pose proof (Hmg this m Hm) as Hok.
      eapply manager_ok_update; eauto.
      * intros [Hn'|Hn']%Hn; [by eapply ok_notified|done].
      * intros Hni. destruct (Hst Hni) as [_ ->]. by eapply ok_drained.
    + rewrite lookup_insert_ne in Hx by done.
      eapply manager_ok_other; eauto.
  - intros x Hx. apply lookup_insert_None in Hx as [Hx Hne].
    destruct (Hab x Hx) as (H1 & H2 & H3 & H4).
    rewrite passes_started_app, invoked_app, returned_app, tokens_issued_app,
      Hp, Hi, Hrt, Hto by done.
    by rewrite H1, H2, H3, H4.
Qed.

(** Steps that leave the heap alone and emit no event about a manager. *)
Lemma invariant_neutral (h : gmap nat CancellationManager) f rest trace fs events :
  invariant h (f :: rest) trace →
  (∀ x, in_pass x f = false) →
  Forall inert fs →
  (∀ x, passes_started x events = []) → (∀ x, invoked x events = []) →
  (∀ x, returned x events = []) →
  (∀ x, tokens_issued x events = []) →
  invariant h (fs ++ rest) (trace ++ events).
Proof.
  intros [Hfr Hmg Hab] Hf Hfs Hp Hi Hrt Ht.
  apply Forall_cons in Hfr as [_ Hrest]. split.
  - apply Forall_app. split.
    + eapply Forall_impl; [done|]. intros. by apply frame_ok_inert.
    + eapply Forall_impl; [done|]. intros g. apply frame_ok_stable.
      intros x mx _ Hx. split; [|done]. eauto.
  - intros x mx Hx. eapply manager_ok_other; eauto.
    rewrite in_flight_app, in_flight_cons, in_flight_inert by done. by rewrite Hf.
  - intros x Hx. destruct (Hab x Hx) as (H1 & H2 & H3 & H4).
    rewrite passes_started_app, invoked_app, returned_app, tokens_issued_app,
      Hp, Hi, Hrt, Ht.
    by rewrite H1, H2, H3, H4.
Qed.

(** No pass is in flight for a manager that does not exist. *)
Lemma in_flight_absent (h : gmap nat CancellationManager) trace frames this :
  Forall (frame_ok h trace) frames → h !! this = None → in_flight this frames = 0.
Proof.
  intros Hfr Hthis. induction Hfr as [|f l Hf _ IH]; [done|].
  rewrite in_flight_cons, IH.
  destruct (in_pass this f) eqn:E; [|done].
  destruct f; simpl in E; try done. apply bool_decide_eq_true in E as ->.
  destruct Hf as (m & cbs & Hm & _). congruence.
Qed.

(** A constructor returns: a manager without state, idle or cancelled,
    appears at a free address. *)
Lemma invariant_alloc (h : gmap nat CancellationManager) f rest trace this m events :
  invariant h (f :: rest) trace →
  (∀ x, in_pass x f = false) →
  h !! this = None →
  is_cancelling_ m = false → state_ m = None →
  (∀ x, passes_started x events = []) → (∀ x, invoked x events = []) →
  (∀ x, returned x events = []) →
  (∀ x, tokens_issued x events = []) →
  invariant (<[this := m]> h) rest (trace ++ events).
Proof.
  intros [Hfr Hmg Hab] Hf Hthis Hg Hst Hp Hi Hrt Ht.
  apply Forall_cons in Hfr as [_ Hrest]. split.
  - eapply Forall_impl; [done|]. intros g. apply frame_ok_stable.
    intros x mx _ Hx. split; [|done].
    rewrite lookup_insert_ne by congruence. eauto.
  - intros x mx Hx. destruct (decide (x = this)) as [->|Hne].
    + rewrite lookup_insert_eq in Hx. injection Hx as <-.
      destruct (Hab this Hthis) as (H1 & H2 & H3 & H4).
      assert (manager_state m ≠ Cancelling) as Hnc.
      { rewrite manager_state_Cancelling. intros []. congruence. }
      split; rewrite ?passes_started_app, ?invoked_app, ?returned_app, ?tokens_issued_app,
               ?Hp, ?Hi, ?Hrt, ?Ht, ?H1, ?H2, ?H3, ?H4; simpl; try done.
      * congruence.
      * rewrite decide_False by done. by eapply in_flight_absent.
      * unfold notified. by rewrite Hst.
      * intros _. unfold registry. by rewrite Hst.
      * constructor.
    + rewrite lookup_insert_ne in Hx by done.
      eapply manager_ok_other; eauto.
      rewrite in_flight_cons. by rewrite Hf.
  - intros x Hx. apply lookup_insert_None in Hx as [Hx Hne].
    destruct (Hab x Hx) as (H1 & H2 & H3 & H4).
    rewrite passes_started_app, invoked_app, returned_app, tokens_issued_app,
      Hp, Hi, Hrt, Ht.
    by rewrite H1, H2, H3, H4.
Qed.

(** [StartCancel] finds the manager idle. *)
Lemma invariant_acquire (h : gmap nat CancellationManager) rest trace this m m1 :
  invariant h (AtCall (OpStartCancel this) :: rest) trace →
  h !! this = Some m → manager_state m = Idle →
  StartCancel_acquire m = Some (m1, registry m, bool_decide (is_Some (state_ m))) →
  invariant (<[this := m1]> h)
    ([InStartCancel this None (map_to_list (registry m))
        (bool_decide (is_Some (state_ m)))] ++ rest)
    (trace ++ [EvPass this (registry m)]).
Proof.
  intros [Hfr Hmg Hab] Hm Hs Hacq.
  destruct (StartCancel_acquire_Some m Hs) as (m1' & Hacq' & Hs1 & Hr1 & Hst1 & Hn1 & Hnx & _).
  rewrite Hacq in Hacq'. injection Hacq' as <-.
  apply Forall_cons in Hfr as [_ Hrest].
  pose proof (Hmg this m Hm) as [H1 H2 H3 H4 H5 H6 H7 H8].
  rewrite in_flight_cons in H2. simpl in H2.
  rewrite decide_False in H2 by congruence.
  specialize (H5 Hs). rewrite H5 in H6. destruct H6 as [H6 H6'].
  split.
  - apply Forall_app. split.
    + apply Forall_singleton. simpl. exists m1, (registry m).
      rewrite lookup_insert_eq, passes_started_app, invoked_app, returned_app,
        H5, H6, H6'. simpl.
      rewrite decide_True by done. split_and!; try done.
      * by apply bool_decide_ext.
      * intros Hfalse%bool_decide_eq_false. unfold registry.
        destruct (state_ m); [|done]. destruct Hfalse. eauto.
    + rewrite Forall_forall in Hrest |- *. intros g Hg.
      apply (frame_ok_stable h); [|by apply Hrest].
      intros x mx Hfm Hx. destruct (decide (x = this)) as [->|Hne].
      * rewrite Hm in Hx. injection Hx as <-.
        by pose proof (frame_ok_not_Idle _ _ _ _ _ (Hrest _ Hg) Hfm Hm).
      * rewrite lookup_insert_ne by done. simpl. rewrite decide_False by done.
        split; [|done]. eauto.
  - intros x mx Hx. destruct (decide (x = this)) as [->|Hne].
    + rewrite lookup_insert_eq in Hx. injection Hx as <-.
      apply manager_state_Cancelling in Hs1 as Hfl. destruct Hfl as [Hc1 Hg1].
      split; rewrite ?passes_started_app, ?invoked_app, ?returned_app,
               ?tokens_issued_app, ?H5, ?H6, ?H6';
        simpl; rewrite ?decide_True, ?app_nil_r by done; try done.
      * rewrite in_flight_cons. simpl.
        rewrite bool_decide_eq_true_2 by done. simpl. lia.
      * rewrite Hn1. intros Hn. specialize (H3 Hn). congruence.
      * congruence.
      * congruence.
      * by rewrite Hnx.
    + rewrite lookup_insert_ne in Hx by done.
      eapply manager_ok_other; eauto; simpl; rewrite ?decide_False by done; try done.
      simpl. rewrite !in_flight_cons. simpl.
      rewrite bool_decide_eq_false_2 by done. done.
  - intros x Hx. apply lookup_insert_None in Hx as [Hx Hne].
    destruct (Hab x Hx) as (Ha & Hb & Hc & Hd).
    rewrite passes_started_app, invoked_app, returned_app, tokens_issued_app,
      Ha, Hb, Hc, Hd. simpl.
    by rewrite decide_False.
Qed.

Lemma inert_enter_callback callback : inert (enter_callback callback).
Proof. by destruct callback. Qed.

Lemma projections_callback_returned this running x :
  passes_started x (callback_returned this running) = [] ∧
  invoked x (callback_returned this running) = [] ∧
  tokens_issued x (callback_returned this running) = [] ∧
  returned x (callback_returned this running) =
    if decide (x = this) then option_list running else [].
Proof.
  destruct running as [[token cb]|]; simpl; [|by case_decide].
  unfold returned. simpl. repeat case_decide; done.
Qed.

(** The loop of [StartCancel] calls the next callback. *)
Lemma invariant_invoke (h : gmap nat CancellationManager) rest trace this running kv todo n :
  invariant h (InStartCancel this running (kv :: todo) n :: rest) trace →
  invariant h ([enter_callback kv.2; InStartCancel this (Some kv) todo n] ++ rest)
    (trace ++ callback_returned this running ++ [EvInvoke (Invoked this kv.1 kv.2)]).
Proof.
  intros [Hfr Hmg Hab].
  apply Forall_cons in Hfr as [Hf Hrest].
  destruct Hf as (m & cbs & Hm & Hs & Hn & Hps & Hrun & Hinv & Hnone).
  pose proof (Hmg this m Hm) as [H1 H2 H3 H4 H5 H6 H7 H8].
  rewrite decide_True in H2 by done.
  destruct (pass_is_alone _ _ _ _ _ _ _ _ Hrest Hm Hs H2) as [Hfl Halone].
  assert (∀ x, x ≠ this →
            passes_started x (callback_returned this running ++
                              [EvInvoke (Invoked this kv.1 kv.2)]) = [] ∧
            invoked x (callback_returned this running ++
                       [EvInvoke (Invoked this kv.1 kv.2)]) = [] ∧
            returned x (callback_returned this running ++
                        [EvInvoke (Invoked this kv.1 kv.2)]) = [] ∧
            tokens_issued x (callback_returned this running ++
                             [EvInvoke (Invoked this kv.1 kv.2)]) = []) as Hother.
  { intros x Hne.
    destruct (projections_callback_returned this running x) as (E1 & E2 & E3 & E4).
    rewrite passes_started_app, invoked_app, returned_app, tokens_issued_app,
      E1, E2, E3, E4. simpl. rewrite !decide_False by done. done. }
  destruct (projections_callback_returned this running this) as (E1 & E2 & E3 & E4).
  rewrite decide_True in E4 by done.
  split.
  - apply Forall_app. split.
    + apply Forall_cons. split; [apply frame_ok_inert, inert_enter_callback|].
      apply Forall_singleton. simpl. exists m, cbs.
      rewrite !passes_started_app, !invoked_app, !returned_app, E1, E2, E4. simpl.
      rewrite decide_True, !app_nil_r by done. split_and!; try done.
      * rewrite Hrun. by destruct kv.
      * rewrite <- app_assoc. destruct kv. done.
    + rewrite Forall_forall in Hrest, Halone |- *. intros g Hg.
      apply (frame_ok_stable h); [|by apply Hrest].
      intros x mx Hfm Hx. split; [eauto|].
      assert (x ≠ this) as Hne by (intros ->; by apply (Halone _ Hg)).
      destruct (Hother x Hne) as (? & ? & ? & ?). done.
  - intros x mx Hx. destruct (decide (x = this)) as [->|Hne].
    + rewrite Hm in Hx. injection Hx as <-.
      split; rewrite ?passes_started_app, ?invoked_app, ?returned_app,
               ?tokens_issued_app, ?E1, ?E2, ?E3, ?E4;
        simpl; rewrite ?app_nil_r; try done.
      * rewrite !in_flight_cons, Hfl, decide_True by done.
        pose proof (inert_enter_callback kv.2) as Hin.
        destruct (enter_callback kv.2); simpl in *; try done;
          rewrite bool_decide_eq_true_2 by done; done.
      * rewrite Hps. congruence.
    + destruct (Hother x Hne) as (? & ? & ? & ?).
      eapply manager_ok_other; eauto.
      simpl. rewrite !in_flight_cons. simpl. rewrite bool_decide_eq_false_2 by done.
      pose proof (inert_enter_callback kv.2) as Hin.
      by destruct (enter_callback kv.2).
  - intros x Hx. destruct (Hab x Hx) as (Ha & Hb & Hc & Hd).
    assert (x ≠ this) as Hne by congruence.
    destruct (Hother x Hne) as (Ha' & Hb' & Hc' & Hd').
    rewrite passes_started_app, invoked_app, returned_app, tokens_issued_app,
      Ha, Hb, Hc, Hd, Ha', Hb', Hc', Hd'. done.
Qed.

(** The loop is over: [StartCancel] takes the lock for the second time. *)
Lemma invariant_release (h : gmap nat CancellationManager) rest trace this running n m :
  invariant h (InStartCancel this running [] n :: rest) trace →
  h !! this = Some m →
  invariant (<[this := StartCancel_release m]> h)
    ((if n then [AtNotify this] else []) ++ rest)
    (trace ++ callback_returned this running).
Proof.
  intros [Hfr Hmg Hab] Hm.
  apply Forall_cons in Hfr as [Hf Hrest].
  destruct Hf as (m' & cbs & Hm' & Hs & Hn & Hps & Hrun & Hinv & Hnone).
  rewrite Hm in Hm'. injection Hm' as <-.
  pose proof (Hmg this m Hm) as [H1 H2 H3 H4 H5 H6 H7 H8].
  rewrite decide_True in H2 by done.
  destruct (pass_is_alone _ _ _ _ _ _ _ _ Hrest Hm Hs H2) as [Hfl Halone].
  assert (manager_state (StartCancel_release m) = Cancelled) as Hrel by done.
  rewrite app_nil_r in Hinv.
  assert (∀ x, x ≠ this →
            passes_started x (callback_returned this running) = [] ∧
            invoked x (callback_returned this running) = [] ∧
            returned x (callback_returned this running) = [] ∧
            tokens_issued x (callback_returned this running) = []) as Hother.
  { intros x Hne.
    destruct (projections_callback_returned this running x) as (E1 & E2 & E3 & E4).
    rewrite decide_False in E4 by done. done. }
  destruct (projections_callback_returned this running this) as (E1 & E2 & E3 & E4).
  rewrite decide_True in E4 by done.
  split.
  - apply Forall_app. split.
    + destruct n; [|done]. apply Forall_singleton. simpl.
      exists (StartCancel_release m). rewrite lookup_insert_eq.
      split_and!; try done. simpl. symmetry in Hn. by apply bool_decide_eq_true in Hn.
    + rewrite Forall_forall in Hrest, Halone |- *. intros g Hg.
      apply (frame_ok_stable h); [|by apply Hrest].
      intros x mx Hfm Hx.
      assert (x ≠ this) as Hne by (intros ->; by apply (Halone _ Hg)).
      destruct (Hother x Hne) as (? & ? & ? & ?).
      rewrite lookup_insert_ne by done. split; [eauto|done].
  - intros x mx Hx. destruct (decide (x = this)) as [->|Hne].
    + rewrite lookup_insert_eq in Hx. injection Hx as <-.
      split; rewrite ?passes_started_app, ?invoked_app, ?returned_app,
               ?tokens_issued_app, ?E1, ?E2, ?E3, ?E4, ?app_nil_r; try done.
      * rewrite in_flight_app, Hfl, decide_False by (rewrite Hrel; done).
        by destruct n.
      * intros _. apply H4. congruence.
      * rewrite Hps. intros _. by rewrite <- Hrun.
    + rewrite lookup_insert_ne in Hx by done.
      destruct (Hother x Hne) as (? & ? & ? & ?).
      eapply manager_ok_other; eauto.
      rewrite in_flight_app, !in_flight_cons. simpl.
      rewrite bool_decide_eq_false_2 by done. by destruct n.
  - intros x Hx. apply lookup_insert_None in Hx as [Hx Hne].
    destruct (Hab x Hx) as (Ha & Hb & Hc & Hd).
    destruct (Hother x (not_eq_sym Hne)) as (Ha' & Hb' & Hc' & Hd').
    rewrite passes_started_app, invoked_app, returned_app, tokens_issued_app,
      Ha, Hb, Hc, Hd, Ha', Hb', Hc', Hd'. done.
Qed.

Lemma keeps_state_refl m : keeps_state m m.
Proof. unfold keeps_state. auto. Qed.

Lemma keeps_state_get_cancellation_token m :
  keeps_state m (get_cancellation_token m).2.
Proof. unfold keeps_state. simpl. auto. Qed.

Lemma keeps_state_erase token m :
  manager_state m = Idle → keeps_state m (erase token m).
Proof.
  intros Hs. destruct (erase_frame token m) as (H1 & H2 & _ & _ & _ & H6 & _).
  unfold keeps_state. rewrite H1, H2, H6. split_and!; auto. done.
Qed.

Lemma keeps_state_DeregisterCallback_locked token m :
  keeps_state m (DeregisterCallback_locked token m).2.
Proof.
  destruct (decide (manager_state m = Idle)) as [Hs|Hs].
  - rewrite DeregisterCallback_locked_Idle by done. by apply keeps_state_erase.
  - unfold DeregisterCallback_locked, manager_state in *.
    destruct (is_cancelled_ m), (is_cancelling_ m), (state_ m);
      try done; apply keeps_state_refl.
Qed.

Lemma keeps_state_TryDeregisterCallback token m :
  keeps_state m (TryDeregisterCallback token m).2.
Proof.
  destruct (decide (manager_state m = Idle)) as [Hs|Hs].
  - rewrite TryDeregisterCallback_Idle by done. by apply keeps_state_erase.
  - rewrite TryDeregisterCallback_not_Idle by done. apply keeps_state_refl.
Qed.

Lemma keeps_state_Notify m :
  manager_state m = Cancelled → keeps_state m (Notify m).
Proof.
  intros Hs. unfold keeps_state, Notify, registry.
  destruct (state_ m) as [st|] eqn:E; simpl; rewrite ?E; split_and!; auto.
  intros _. split; [|done]. split; eauto.
Qed.

Section Steps.
Variable dcheck_is_on : bool.

Lemma RegisterCallback_keeps token callback m registered m' :
  RegisterCallback dcheck_is_on token callback m = Some (registered, m') →
  keeps_state m m' ∧ next_cancellation_token_ m' = next_cancellation_token_ m.
Proof.
  intros H.
  assert (DCHECK_LT dcheck_is_on token (next_cancellation_token_ m) = true) as Hd.
  { unfold RegisterCallback in H. by destruct (DCHECK_LT _ _ _). }
  destruct (decide (manager_state m = Idle)) as [Hs|Hs].
  - destruct (RegisterCallback_Idle dcheck_is_on token callback m Hs Hd)
      as (m1 & E & _ & _ & Hs1 & Hn & Hnx & _).
    rewrite E in H. injection H as <- <-. split; [|done].
    apply manager_state_Idle in Hs as Hs0. apply manager_state_Idle in Hs1.
    unfold keeps_state. rewrite Hn. split_and!; auto; intuition congruence.
  - rewrite (RegisterCallback_not_Idle dcheck_is_on token callback m Hs Hd) in H.
    injection H as <- <-. split; [apply keeps_state_refl|done].
Qed.

(** Every step of a frame keeps the invariant. *)
Lemma frame_step_invariant (h : gmap nat CancellationManager) f rest trace fs h' events :
  invariant h (f :: rest) trace →
  frame_step dcheck_is_on f h = Some (fs, h', events) →
  invariant h' (fs ++ rest) (trace ++ events).
Proof.
  intros Hinv Hstep.
  destruct f as [[|parent|this|this token callback|this token|this token|this|this]
                |parent parent_token|this running [|kv todo] n|id|this|this token];
    simpl in Hstep.
  - (* new CancellationManager() *)
    injection Hstep as <- <- <-.
    apply (invariant_alloc h (AtCall OpNew)); try done.
    apply not_elem_of_dom, is_fresh.
  - (* child constructor: the token *)
    destruct (h !! parent) as [m|] eqn:Hm; [|done]. simpl in Hstep.
    injection Hstep as <- <- <-.
    eapply invariant_local_update; eauto; try done.
    + repeat constructor.
    + apply keeps_state_get_cancellation_token.
    + intros x Hne. simpl. by rewrite decide_False.
    + right. simpl. by rewrite decide_True.
  - (* GetToken *)
    destruct (h !! this) as [m|] eqn:Hm; [|done]. simpl in Hstep.
    injection Hstep as <- <- <-.
    eapply invariant_local_update; eauto; try done.
    + apply keeps_state_get_cancellation_token.
    + intros x Hne. simpl. by rewrite decide_False.
    + right. simpl. by rewrite decide_True.
  - (* RegisterCallback *)
    destruct (h !! this) as [m|] eqn:Hm; [|done]. simpl in Hstep.
    destruct (RegisterCallback _ _ _ _) as [[registered m1]|] eqn:E; [|done].
    simpl in Hstep. injection Hstep as <- <- <-.
    apply RegisterCallback_keeps in E as [Hk Hnx].
    eapply invariant_local_update; eauto; try done.
    left. split; [done|lia].
  - (* DeregisterCallback *)
    destruct (h !! this) as [m|] eqn:Hm; [|done]. simpl in Hstep.
    pose proof (keeps_state_DeregisterCallback_locked token m) as Hk.
    assert (next_cancellation_token_ (DeregisterCallback_locked token m).2 =
            next_cancellation_token_ m) as Hnx.
    { unfold DeregisterCallback_locked.
      destruct (is_cancelled_ m), (is_cancelling_ m), (state_ m) eqn:E; simpl; try done;
        unfold erase; by rewrite E. }
    destruct (DeregisterCallback_locked token m) as [[b|] m1]; simpl in *;
      injection Hstep as <- <- <-;
      (eapply invariant_local_update; eauto; try done;
       [try repeat constructor..|left; split; [done|lia]]).
  - (* TryDeregisterCallback *)
    destruct (h !! this) as [m|] eqn:Hm; [|done]. simpl in Hstep.
    pose proof (keeps_state_TryDeregisterCallback token m) as Hk.
    assert (next_cancellation_token_ (TryDeregisterCallback token m).2 =
            next_cancellation_token_ m) as Hnx.
    { unfold TryDeregisterCallback.
      destruct (is_cancelled_ m), (is_cancelling_ m), (state_ m) eqn:E; simpl; try done;
        unfold erase; by rewrite E. }
    destruct (TryDeregisterCallback token m) as [b m1]; simpl in *.
    injection Hstep as <- <- <-.
    eapply invariant_local_update; eauto; try done.
    left. split; [done|lia].
  - (* StartCancel *)
    destruct (h !! this) as [m|] eqn:Hm; [|done]. simpl in Hstep.
    destruct (StartCancel_acquire m) as [[[m1 cbs] n]|] eqn:Hacq.
    + injection Hstep as <- <- <-.
      assert (manager_state m = Idle) as Hidle.
      { destruct (decide (manager_state m = Idle)) as [|Hn]; [done|].
        apply StartCancel_acquire_None in Hn. congruence. }
      destruct (StartCancel_acquire_Some m Hidle) as (m1' & Hacq' & _).
      rewrite Hacq in Hacq'. injection Hacq' as <- -> ->.
      by apply invariant_acquire.
    + injection Hstep as <- <- <-. by eapply invariant_neutral.
  - (* IsCancelled *)
    destruct (h !! this) as [m|] eqn:Hm; [|done]. simpl in Hstep.
    injection Hstep as <- <- <-. by eapply invariant_neutral.
  - (* child constructor: the registration *)
    destruct (h !! parent) as [p|] eqn:Hp; [|done]. simpl in Hstep.
    destruct (RegisterCallback _ _ _ _) as [[registered p1]|] eqn:E; [|done].
    simpl in Hstep. injection Hstep as <- <- <-.
    apply RegisterCallback_keeps in E as [Hk Hnx].
    assert (invariant (<[parent := p1]> h) ([InCallback 0] ++ rest) (trace ++ [])) as Hinv1.
    { eapply invariant_local_update; eauto; try done.
      - repeat constructor.
      - left. split; [done|lia]. }
    rewrite app_nil_r in Hinv1. simpl in Hinv1.
    eapply invariant_alloc; eauto; try done.
    + apply lookup_insert_None. split.
      * apply not_elem_of_dom, is_fresh.
      * intros Heq. pose proof (proj1 (not_elem_of_dom h _) (is_fresh (dom h))).
        congruence.
    + by destruct registered.
    + by destruct registered.
  - (* the loop is over *)
    destruct (h !! this) as [m|] eqn:Hm; [|done]. simpl in Hstep.
    injection Hstep as <- <- <-. by apply invariant_release.
  - (* the loop calls a callback *)
    injection Hstep as <- <- <-. by apply invariant_invoke.
  - (* the body of a callback returns *)
    injection Hstep as <- <- <-. by eapply invariant_neutral.
  - (* Notify *)
    destruct (h !! this) as [m|] eqn:Hm; [|done]. simpl in Hstep.
    injection Hstep as <- <- <-.
    pose proof (inv_frames _ _ _ Hinv) as Hfr.
    apply Forall_cons in Hfr as [(m' & Hm' & Hs & _) _].
    rewrite Hm in Hm'. injection Hm' as <-.
    eapply invariant_local_update; eauto; try done.
    + by apply keeps_state_Notify.
    + left. split; [done|]. unfold Notify. destruct (state_ m); simpl; lia.
  - (* WaitForNotification *)
    destruct (h !! this) as [m|] eqn:Hm; [|done]. simpl in Hstep.
    destruct (notified m); [|done].
    injection Hstep as <- <- <-. by eapply invariant_neutral.
Qed.

End Steps.

Section Reachable.
Variable dcheck_is_on : bool.

Lemma invariant_initial programs :
  invariant ∅ (frames_of (initial programs)) [].
Proof.
  split.
  - apply Forall_forall. intros f Hf. apply frame_ok_inert.
    unfold frames_of, initial in Hf. simpl in Hf.
    apply list_elem_of_In, in_concat in Hf as (stack & Hstack & Hf).
    apply in_map_iff in Hstack as (program & <- & _).
    apply in_map_iff in Hf as (op & <- & _). done.
  - apply map_Forall_empty.
  - done.
Qed.

Lemma thread_step_invariant tid c c' :
  invariant (cfg_heap c) (frames_of c) (cfg_trace c) →
  thread_step dcheck_is_on tid c = Some c' →
  invariant (cfg_heap c') (frames_of c') (cfg_trace c').
Proof.
  intros Hinv Hstep. unfold thread_step in Hstep.
  destruct (cfg_threads c !! tid) as [[|f stack]|] eqn:Hl; try done.
  destruct (frame_step dcheck_is_on f (cfg_heap c)) as [[[fs h1] events]|] eqn:Hf;
    [|done].
  simpl in Hstep. injection Hstep as <-. unfold frames_of in *. simpl.
  destruct (frames_of_step _ _ _ _ fs Hl) as (rest & Hp1 & Hp2).
  eapply invariant_perm; [symmetry; exact Hp2|].
  eapply frame_step_invariant; [|done].
  eapply invariant_perm; done.
Qed.

(** The invariant holds in every reachable configuration. *)
Lemma reachable_invariant c :
  reachable dcheck_is_on c →
  invariant (cfg_heap c) (frames_of c) (cfg_trace c).
Proof.
  intros [programs Hsteps]. revert c Hsteps. apply rtc_ind_r.
  - apply invariant_initial.
  - intros c1 c2 _ [tid Hs] IH. by eapply thread_step_invariant.
Qed.

Lemma reachable_step c c' :
  reachable dcheck_is_on c → step dcheck_is_on c c' → reachable dcheck_is_on c'.
Proof. intros [programs H] Hs. exists programs. by eapply rtc_r. Qed.

Lemma reachable_steps c c' :
  reachable dcheck_is_on c → rtc (step dcheck_is_on) c c' → reachable dcheck_is_on c'.
Proof. intros [programs H] Hs. exists programs. by etrans. Qed.

Lemma run_schedule_steps schedule : ∀ c,
  rtc (step dcheck_is_on) c (run_schedule dcheck_is_on schedule c).
Proof.
  induction schedule as [|tid schedule IH]; intros c; simpl; [done|].
  destruct (thread_step dcheck_is_on tid c) as [c'|] eqn:E; simpl; [|done].
  eapply rtc_l; [by exists tid|done].
Qed.

(** What a schedule leads to is reachable. *)
Lemma run_schedule_reachable schedule programs :
  reachable dcheck_is_on (run_schedule dcheck_is_on schedule (initial programs)).
Proof. exists programs. apply run_schedule_steps. Qed.

(** How a step of a frame changes the state of a manager: not at all,
    unless the step is the first critical section of [StartCancel] on
    that manager, or the second. *)
Lemma frame_step_states (h : gmap nat CancellationManager) f fs h' events this m :
  frame_step dcheck_is_on f h = Some (fs, h', events) →
  h !! this = Some m →
  ∃ m', h' !! this = Some m' ∧
    (manager_state m' = manager_state m ∨
     (f = AtCall (OpStartCancel this) ∧ manager_state m = Idle ∧
      manager_state m' = Cancelling) ∨
     (∃ running n, f = InStartCancel this running [] n ∧
                   m' = StartCancel_release m)).
Proof.
  intros Hstep Hm.
  assert (∀ x mx m1, h !! x = Some mx → manager_state m1 = manager_state mx →
            ∃ m', <[x := m1]> h !! this = Some m' ∧ manager_state m' = manager_state m)
    as Hupd.
  { intros x mx m1 Hx Hs. destruct (decide (x = this)) as [->|Hne].
    - rewrite lookup_insert_eq. exists m1. split; [done|]. congruence.
    - rewrite lookup_insert_ne by done. eauto. }
  assert (∀ x mx m1, h !! x = Some mx → keeps_state mx m1 →
            ∃ m', <[x := m1]> h !! this = Some m' ∧
                  (manager_state m' = manager_state m ∨
     (f = AtCall (OpStartCancel this) ∧ manager_state m = Idle ∧
      manager_state m' = Cancelling) ∨
     (∃ running n, f = InStartCancel this running [] n ∧
                   m' = StartCancel_release m))) as Hkeep.
  { intros x mx m1 Hx (Hg & Hc & _). destruct (Hupd x mx m1 Hx) as (m' & ? & ?).
    - by apply manager_state_flags.
    - eauto. }
  assert (fresh (dom h) ≠ this) as Hfresh.
  { intros Heq. pose proof (proj1 (not_elem_of_dom h _) (is_fresh (dom h))). congruence. }
  destruct f as [[|parent|x|x token callback|x token|x token|x|x]
                |parent parent_token|x running [|kv todo] n|id|x|x token];
    simpl in Hstep.
  - injection Hstep as <- <- <-. exists m. rewrite lookup_insert_ne by done. auto.
  - destruct (h !! parent) as [mx|] eqn:Hx; [|done]. simpl in Hstep.
    injection Hstep as <- <- <-.
    eapply Hkeep; [done|]. apply keeps_state_get_cancellation_token.
  - destruct (h !! x) as [mx|] eqn:Hx; [|done]. simpl in Hstep.
    injection Hstep as <- <- <-.
    eapply Hkeep; [done|]. apply keeps_state_get_cancellation_token.
  - destruct (h !! x) as [mx|] eqn:Hx; [|done]. simpl in Hstep.
    destruct (RegisterCallback _ _ _ _) as [[registered m1]|] eqn:E; [|done].
    simpl in Hstep. injection Hstep as <- <- <-.
    apply RegisterCallback_keeps in E as [Hk _]. by eapply Hkeep.
  - destruct (h !! x) as [mx|] eqn:Hx; [|done]. simpl in Hstep.
    pose proof (keeps_state_DeregisterCallback_locked token mx) as Hk.
    destruct (DeregisterCallback_locked token mx) as [[b|] m1]; simpl in *;
      injection Hstep as <- <- <-; by eapply Hkeep.
  - destruct (h !! x) as [mx|] eqn:Hx; [|done]. simpl in Hstep.
    pose proof (keeps_state_TryDeregisterCallback token mx) as Hk.
    destruct (TryDeregisterCallback token mx) as [b m1]; simpl in *.
    injection Hstep as <- <- <-. by eapply Hkeep.
  - destruct (h !! x) as [mx|] eqn:Hx; [|done]. simpl in Hstep.
    destruct (StartCancel_acquire mx) as [[[m1 cbs] n]|] eqn:Hacq.
    + injection Hstep as <- <- <-.
      assert (manager_state mx = Idle) as Hidle.
      { destruct (decide (manager_state mx = Idle)) as [|Hn]; [done|].
        apply StartCancel_acquire_None in Hn. congruence. }
      destruct (StartCancel_acquire_Some mx Hidle) as (m1' & Hacq' & Hs1 & _).
      rewrite Hacq in Hacq'. injection Hacq' as <- -> ->.
      destruct (decide (x = this)) as [->|Hne].
      * rewrite lookup_insert_eq. exists m1. rewrite Hm in Hx. injection Hx as <-.
        split; [done|]. right. left. done.
      * rewrite lookup_insert_ne by done. eauto.
    + injection Hstep as <- <- <-. eauto.
  - destruct (h !! x) as [mx|] eqn:Hx; [|done]. simpl in Hstep.
    injection Hstep as <- <- <-. eauto.
  - destruct (h !! parent) as [p|] eqn:Hp; [|done]. simpl in Hstep.
    destruct (RegisterCallback _ _ _ _) as [[registered p1]|] eqn:E; [|done].
    simpl in Hstep. injection Hstep as <- <- <-.
    apply RegisterCallback_keeps in E as [Hk _].
    rewrite lookup_insert_ne by done. by eapply Hkeep.
  - destruct (h !! x) as [mx|] eqn:Hx; [|done]. simpl in Hstep.
    injection Hstep as <- <- <-.
    destruct (decide (x = this)) as [->|Hne].
    + rewrite lookup_insert_eq. exists (StartCancel_release mx).
      rewrite Hm in Hx. injection Hx as <-. split; [done|]. right. right. eauto.
    + rewrite lookup_insert_ne by done. eauto.
  - injection Hstep as <- <- <-. eauto.
  - injection Hstep as <- <- <-. eauto.
  - destruct (h !! x) as [mx|] eqn:Hx; [|done]. simpl in Hstep.
    injection Hstep as <- <- <-.
    destruct (Hupd x mx (Notify mx) Hx) as (m' & ? & ?); [|eauto].
    unfold Notify. by destruct (state_ mx).
  - destruct (h !! x) as [mx|] eqn:Hx; [|done]. simpl in Hstep.
    destruct (notified mx); [|done].
    injection Hstep as <- <- <-. eauto.
Qed.

(** One step of the system, for one manager. *)
Lemma step_states c c' this m :
  reachable dcheck_is_on c → step dcheck_is_on c c' →
  cfg_heap c !! this = Some m →
  ∃ m', cfg_heap c' !! this = Some m' ∧
    match manager_state m, manager_state m' with
    | Idle, Idle | Cancelling, Cancelling | Cancelled, Cancelled => True
    | Idle, Cancelling =>
        ∃ tid stack,
          cfg_threads c !! tid = Some (AtCall (OpStartCancel this) :: stack)
    | Cancelling, Cancelled =>
        ∃ tid stack running n cbs,
          cfg_threads c !! tid = Some (InStartCancel this running [] n :: stack) ∧
          passes_started this (cfg_trace c') = [cbs] ∧
          invoked this (cfg_trace c') = map_to_list cbs ∧
          returned this (cfg_trace c') = map_to_list cbs
    | _, _ => False
    end.
Proof.
  intros Hreach [tid Hstep] Hm.
  pose proof (reachable_invariant c Hreach) as Hinv.
  pose proof (thread_step_invariant tid c c' Hinv Hstep) as Hinv'.
  unfold thread_step in Hstep.
  destruct (cfg_threads c !! tid) as [[|f stack]|] eqn:Hl; try done.
  destruct (frame_step dcheck_is_on f (cfg_heap c)) as [[[fs h1] events]|] eqn:Hf;
    [|done].
  simpl in Hstep. injection Hstep as <-. simpl in *.
  destruct (frame_step_states _ _ _ _ _ _ _ Hf Hm)
    as (m' & Hm' & [Hs|[(-> & Hs & Hs')|(running & n & -> & ->)]]).
  - exists m'. split; [done|]. rewrite Hs. by destruct (manager_state m).
  - exists m'. split; [done|]. rewrite Hs, Hs'. eauto.
  - exists (StartCancel_release m). split; [done|].
    destruct (frames_of_step _ _ _ _ fs Hl) as (rest & Hp1 & _).
    pose proof (invariant_perm _ _ _ _ Hp1 Hinv) as [Hfr _ _].
    apply Forall_cons in Hfr as [(m0 & cbs & Hm0 & Hs & _ & Hps & _) _].
    rewrite Hm in Hm0. injection Hm0 as <-. rewrite Hs.
    change (manager_state (StartCancel_release m)) with Cancelled.
    exists tid, stack, running, n, cbs. split; [done|].
    pose proof (inv_managers _ _ _ Hinv' this _ Hm') as Hok.
    pose proof (ok_invoked _ _ _ _ Hok) as H6. simpl in H6.
    simpl in Hf. rewrite Hm in Hf. simpl in Hf. injection Hf as <- <- <-.
    destruct (projections_callback_returned this running this) as (E1 & _).
    rewrite passes_started_app, E1, app_nil_r, Hps in H6 |- *.
    destruct H6 as [? ?]; done.
Qed.

(** C3. In every reachable configuration and for every manager: a step
    of any thread leaves the state of the manager as it is, or takes it
    from idle to cancelling, and then the step is a call of [StartCancel]
    on the manager, or from cancelling to cancelled, and then the step is
    the second critical section of the pass, all of whose callbacks have
    been called and have returned.  Whatever the threads do afterwards, a
    cancelled manager stays cancelled. *)
Theorem cancellation_state_is_monotonic c this m :
  reachable dcheck_is_on c →
  cfg_heap c !! this = Some m →
  (∀ c', step dcheck_is_on c c' →
     ∃ m', cfg_heap c' !! this = Some m' ∧
       match manager_state m, manager_state m' with
       | Idle, Idle | Cancelling, Cancelling | Cancelled, Cancelled => True
       | Idle, Cancelling =>
           ∃ tid stack,
             cfg_threads c !! tid = Some (AtCall (OpStartCancel this) :: stack)
       | Cancelling, Cancelled =>
           ∃ tid stack running n cbs,
             cfg_threads c !! tid = Some (InStartCancel this running [] n :: stack) ∧
             passes_started this (cfg_trace c') = [cbs] ∧
             invoked this (cfg_trace c') = map_to_list cbs ∧
             returned this (cfg_trace c') = map_to_list cbs
       | _, _ => False
       end) ∧
  (∀ c', rtc (step dcheck_is_on) c c' →
     manager_state m = Cancelled →
     ∃ m', cfg_heap c' !! this = Some m' ∧ manager_state m' = Cancelled).
Proof.
  intros Hreach Hm. split.
  - intros c' Hstep. by apply step_states.
  - intros c' Hsteps Hs. revert m Hreach Hm Hs.
    induction Hsteps as [c|c1 c2 c3 Hstep _ IH]; intros m Hreach Hm Hs; [eauto|].
    destruct (step_states c1 c2 this m Hreach Hstep Hm) as (m2 & Hm2 & Hcase).
    rewrite Hs in Hcase.
    apply (IH m2); [by eapply reachable_step|done|].
    by destruct (manager_state m2).
Qed.

End Reachable.

(** ** The sequential semantics is one thread of the interleaving semantics *)

Section Simulation.
Variable dcheck_is_on : bool.

Lemma invocations_of_app events1 events2 :
  invocations_of (events1 ++ events2) = invocations_of events1 ++ invocations_of events2.
Proof. apply omap_app. Qed.

Lemma invocations_of_callback_returned this running :
  invocations_of (callback_returned this running) = [].
Proof. by destruct running. Qed.

(** Thread [tid] takes the step of its frame. *)
Lemma step_thread (threads : list (list Frame)) tid f stack
    (h : gmap nat CancellationManager) trace fs h1 events :
  tid < length threads →
  frame_step dcheck_is_on f h = Some (fs, h1, events) →
  step dcheck_is_on (mkConfig h (<[tid := f :: stack]> threads) trace)
    (mkConfig h1 (<[tid := fs ++ stack]> threads) (trace ++ events)).
Proof.
  intros Hlt Hf. exists tid. unfold thread_step. simpl.
  rewrite list_lookup_insert_eq by done. rewrite Hf. simpl.
  by rewrite list_insert_insert_eq.
Qed.

(** The loop of [StartCancel] as steps of a thread. *)
Lemma run_callbacks_simulated fuel this n (threads : list (list Frame)) tid stack :
  tid < length threads →
  (∀ child (h : gmap nat CancellationManager) log h' stack' trace,
     StartCancel fuel child h = Done (log, h') →
     ∃ events,
       rtc (step dcheck_is_on)
         (mkConfig h (<[tid := AtCall (OpStartCancel child) :: stack']> threads) trace)
         (mkConfig h' (<[tid := stack']> threads) (trace ++ events)) ∧
       invocations_of events = log) →
  ∀ todo running (h : gmap nat CancellationManager) log h' trace,
    run_callbacks (StartCancel fuel) this todo h = Done (log, h') →
    ∃ events running',
      rtc (step dcheck_is_on)
        (mkConfig h (<[tid := InStartCancel this running todo n :: stack]> threads) trace)
        (mkConfig h' (<[tid := InStartCancel this running' [] n :: stack]> threads)
           (trace ++ events)) ∧
      invocations_of events = log.
Proof.
  intros Hlt IH todo.
  induction todo as [|[token cb] rest IHl]; intros running h log h' trace Hrun.
  - simpl in Hrun. injection Hrun as <- <-. exists [], running.
    rewrite app_nil_r. done.
  - simpl in Hrun.
    destruct (call_callback (StartCancel fuel) cb h) as [[log1 h1]| | | |] eqn:E1; try done.
    simpl in Hrun.
    destruct (run_callbacks (StartCancel fuel) this rest h1) as [[log2 h2]| | | |] eqn:E2;
      try done.
    simpl in Hrun. injection Hrun as <- <-.
    set (events0 := callback_returned this running ++ [EvInvoke (Invoked this token cb)]).
    assert (step dcheck_is_on
              (mkConfig h (<[tid := InStartCancel this running ((token, cb) :: rest) n
                                      :: stack]> threads) trace)
              (mkConfig h (<[tid := [enter_callback cb;
                                     InStartCancel this (Some (token, cb)) rest n]
                                      ++ stack]> threads) (trace ++ events0))) as Hs0
      by (by apply step_thread).
    assert (∃ events1,
              rtc (step dcheck_is_on)
                (mkConfig h (<[tid := [enter_callback cb;
                                       InStartCancel this (Some (token, cb)) rest n]
                                        ++ stack]> threads) (trace ++ events0))
                (mkConfig h1 (<[tid := InStartCancel this (Some (token, cb)) rest n
                                         :: stack]> threads)
                   ((trace ++ events0) ++ events1)) ∧
              invocations_of events1 = log1) as (events1 & Hs1 & Hi1).
    { destruct cb as [id|child]; simpl in E1 |- *.
      - injection E1 as <- <-. exists []. split; [|done].
        apply rtc_once.
        apply (step_thread threads tid (InCallback id)
                 (InStartCancel this (Some (token, Closure id)) rest n :: stack)
                 h (trace ++ events0) [] h []); done.
      - by apply IH. }
    destruct (IHl (Some (token, cb)) h1 log2 h2 ((trace ++ events0) ++ events1) E2)
      as (events2 & running' & Hs2 & Hi2).
    exists (events0 ++ events1 ++ events2), running'. split.
    + eapply rtc_l; [exact Hs0|]. etrans; [exact Hs1|].
      by rewrite !app_assoc.
    + unfold events0. rewrite !invocations_of_app, invocations_of_callback_returned.
      simpl. by rewrite Hi1, Hi2.
Qed.

(** A call of [StartCancel] that returns in the sequential semantics is
    an execution of the calling thread in the interleaving semantics,
    with the same heap at the end and the same invocations in the same
    order. *)
Lemma StartCancel_simulated fuel (threads : list (list Frame)) tid :
  tid < length threads →
  ∀ this (h : gmap nat CancellationManager) log h' stack trace,
    StartCancel fuel this h = Done (log, h') →
    ∃ events,
      rtc (step dcheck_is_on)
        (mkConfig h (<[tid := AtCall (OpStartCancel this) :: stack]> threads) trace)
        (mkConfig h' (<[tid := stack]> threads) (trace ++ events)) ∧
      invocations_of events = log.
Proof.
  intros Hlt. induction fuel as [|fuel IH]; intros this h log h' stack trace Hrun; [done|].
  simpl in Hrun. unfold deref in Hrun.
  destruct (h !! this) as [m|] eqn:Hm; [|done]. simpl in Hrun.
  destruct (StartCancel_acquire m) as [[[m1 cbs] n]|] eqn:Hacq.
  2:{ injection Hrun as <- <-. exists []. split; [|done].
      apply rtc_once.
      apply (step_thread threads tid _ stack h trace [] h []); [done|].
      simpl. rewrite Hm. simpl. by rewrite Hacq. }
  destruct (run_callbacks (StartCancel fuel) this (map_to_list cbs) (<[this := m1]> h))
    as [[log1 h1]| | | |] eqn:E1; try done.
  simpl in Hrun.
  destruct (h1 !! this) as [m2|] eqn:Hm2; [|done]. simpl in Hrun.
  injection Hrun as <- <-.
  assert (step dcheck_is_on
            (mkConfig h (<[tid := AtCall (OpStartCancel this) :: stack]> threads) trace)
            (mkConfig (<[this := m1]> h)
               (<[tid := [InStartCancel this None (map_to_list cbs) n] ++ stack]> threads)
               (trace ++ [EvPass this cbs]))) as Hs0.
  { apply step_thread; [done|]. simpl. rewrite Hm. simpl. by rewrite Hacq. }
  destruct (run_callbacks_simulated fuel this n threads tid stack Hlt
              (λ child h log h' stack' trace, IH child h log h' stack' trace)
              (map_to_list cbs) None _ _ _ (trace ++ [EvPass this cbs]) E1)
    as (events1 & running' & Hs1 & Hi1).
  set (events2 := callback_returned this running').
  assert (step dcheck_is_on
            (mkConfig h1 (<[tid := InStartCancel this running' [] n :: stack]> threads)
               ((trace ++ [EvPass this cbs]) ++ events1))
            (mkConfig (<[this := StartCancel_release m2]> h1)
               (<[tid := (if n then [AtNotify this] else []) ++ stack]> threads)
               (((trace ++ [EvPass this cbs]) ++ events1) ++ events2))) as Hs2.
  { apply step_thread; [done|]. simpl. by rewrite Hm2. }
  exists ([EvPass this cbs] ++ events1 ++ events2). split.
  - eapply rtc_l; [exact Hs0|]. etrans; [exact Hs1|].
    eapply rtc_l; [exact Hs2|]. rewrite !app_assoc.
    destruct n; simpl.
    + apply rtc_once.
      pose proof (step_thread threads tid (AtNotify this) stack
                    (<[this := StartCancel_release m2]> h1)
                    (((trace ++ [EvPass this cbs]) ++ events1) ++ events2) []
                    (<[this := Notify (StartCancel_release m2)]> h1) []) as Hs3.
      rewrite app_nil_r in Hs3. apply Hs3; [done|].
      simpl. rewrite lookup_insert_eq. simpl. by rewrite insert_insert_eq.
    + done.
  - unfold events2.
    rewrite !invocations_of_app, invocations_of_callback_returned, app_nil_r. done.
Qed.

End Simulation.

(** ** What holds in every reachable configuration *)

Section Observations.
Variable dcheck_is_on : bool.

(** Once a manager is cancelled no pass of it is in flight and, if it had
    one, every callback the pass captured was called and has returned. *)
Lemma cancelled_pass_is_over c this m :
  reachable dcheck_is_on c →
  cfg_heap c !! this = Some m →
  manager_state m = Cancelled →
  (∀ f, f ∈ frames_of c → in_pass this f = false) ∧
  match passes_started this (cfg_trace c) with
  | [] => invoked this (cfg_trace c) = [] ∧ returned this (cfg_trace c) = []
  | [cbs] =>
      invoked this (cfg_trace c) = map_to_list cbs ∧
      returned this (cfg_trace c) = map_to_list cbs
  | _ => False
  end.
Proof.
  intros Hreach Hm Hs.
  pose proof (reachable_invariant dcheck_is_on c Hreach) as [Hfr Hmg _].
  pose proof (Hmg this m Hm) as [H1 H2 H3 H4 H5 H6 H7 H8].
  split.
  - rewrite decide_False in H2 by congruence.
    unfold in_flight in H2. apply nil_length_inv in H2.
    intros f Hf. destruct (in_pass this f) eqn:E; [|done].
    by destruct (filter_nil_not_elem_of _ _ f H2).
  - destruct (passes_started this (cfg_trace c)) as [|cbs [|]]; try done. by apply H6.
Qed.

(** C5. In every reachable configuration: [IsCancelled] returns the
    terminal flag; a thread is about to signal the notification of a
    manager only when the flag is set, and so the notification is set
    only when the flag is; and when the flag is set no thread is in the
    loop of a pass of the manager, and every callback the pass captured
    (if there was a pass) has been called and has returned. *)
Theorem IsCancelled_implies_callbacks_returned c this m :
  reachable dcheck_is_on c →
  cfg_heap c !! this = Some m →
  frame_step dcheck_is_on (AtCall (OpIsCancelled this)) (cfg_heap c) =
    Some ([], cfg_heap c, [EvReturn (OpIsCancelled this) (VBool (IsCancelled m))]) ∧
  (AtNotify this ∈ frames_of c → IsCancelled m = true) ∧
  (notified m = true → IsCancelled m = true) ∧
  (IsCancelled m = true →
     (∀ f, f ∈ frames_of c → in_pass this f = false) ∧
     match passes_started this (cfg_trace c) with
     | [] => invoked this (cfg_trace c) = [] ∧ returned this (cfg_trace c) = []
     | [cbs] =>
         invoked this (cfg_trace c) = map_to_list cbs ∧
         returned this (cfg_trace c) = map_to_list cbs
     | _ => False
     end).
Proof.
  intros Hreach Hm.
  pose proof (reachable_invariant dcheck_is_on c Hreach) as [Hfr Hmg _].
  pose proof (Hmg this m Hm) as Hok.
  split_and!.
  - simpl. by rewrite Hm.
  - intros Hin. rewrite Forall_forall in Hfr.
    destruct (Hfr _ Hin) as (m' & Hm' & Hs & _).
    rewrite Hm in Hm'. injection Hm' as <-. by apply manager_state_Cancelled.
  - intros Hn. by apply manager_state_Cancelled, (ok_notified _ _ _ _ Hok).
  - intros Hc%manager_state_Cancelled. by eapply cancelled_pass_is_over.
Qed.

(** While a manager is cancelling, exactly one thread is in its pass. *)
Lemma cancelling_pass_in_flight c this m :
  reachable dcheck_is_on c →
  cfg_heap c !! this = Some m →
  manager_state m = Cancelling →
  ∃ running todo cbs,
    InStartCancel this running todo (bool_decide (is_Some (state_ m))) ∈ frames_of c ∧
    passes_started this (cfg_trace c) = [cbs] ∧
    invoked this (cfg_trace c) ++ todo = map_to_list cbs ∧
    (state_ m = None → cbs = ∅).
Proof.
  intros Hreach Hm Hs.
  pose proof (reachable_invariant dcheck_is_on c Hreach) as [Hfr Hmg _].
  pose proof (Hmg this m Hm) as [H1 H2 H3 H4 H5 H6 H7 H8].
  rewrite decide_True in H2 by done. unfold in_flight in H2.
  destruct (filter (λ f, in_pass this f = true) (frames_of c)) as [|f l] eqn:E; [done|].
  assert (f ∈ filter (λ f, in_pass this f = true) (frames_of c)) as Hin.
  { rewrite E. left. }
  apply list_elem_of_filter in Hin as [Hp Hin].
  destruct f as [| |x running todo n| | |]; simpl in Hp; try done.
  apply bool_decide_eq_true in Hp as ->.
  rewrite Forall_forall in Hfr.
  destruct (Hfr _ Hin) as (m' & cbs & Hm' & _ & Hn & Hps & _ & Hinv & Hnone).
  rewrite Hm in Hm'. injection Hm' as <-. subst n.
  exists running, todo, cbs. split_and!; try done.
  intros Hst. apply Hnone. rewrite Hst. apply bool_decide_eq_false_2. by intros [].
Qed.

(** C4, as amended. [DeregisterCallback] by cases.  Cancelled: it
    returns false at once and changes nothing.  Cancelling: it changes
    nothing; when the state block exists it waits for the notification
    and returns false once the notification is set, which in every
    reachable configuration implies that the manager is cancelled, that
    no thread is in the pass and that every callback of the pass has
    returned; when no state block exists it returns false at once, and in
    every reachable configuration the pass in flight captured no callback.
    Idle: it returns true and removes the entry of the token if there is
    one, changing nothing else. *)
Theorem DeregisterCallback_by_cases token m :
  match manager_state m with
  | Cancelled => DeregisterCallback_locked token m = (Returns false, m)
  | Cancelling =>
      DeregisterCallback_locked token m =
      (match state_ m with
       | Some _ => WaitsForNotification
       | None => Returns false
       end, m)
  | Idle =>
      ∃ m', DeregisterCallback_locked token m = (Returns true, m') ∧
            registry m' = delete token (registry m) ∧
            (registry m !! token = None → m' = m) ∧
            manager_state m' = Idle ∧
            notified m' = notified m ∧
            (is_Some (state_ m') ↔ is_Some (state_ m)) ∧
            next_cancellation_token_ m' = next_cancellation_token_ m ∧
            parent_ m' = parent_ m ∧ parent_token_ m' = parent_token_ m
  end ∧
  (∀ this (h : gmap nat CancellationManager),
     h !! this = Some m →
     frame_step dcheck_is_on (AtCall (OpDeregisterCallback this token)) h =
       Some (match (DeregisterCallback_locked token m).1 with
             | Returns b =>
                 ([], <[this := (DeregisterCallback_locked token m).2]> h,
                  [EvReturn (OpDeregisterCallback this token) (VBool b)])
             | WaitsForNotification =>
                 ([AtWaitForNotification this token],
                  <[this := (DeregisterCallback_locked token m).2]> h, [])
             end) ∧
     frame_step dcheck_is_on (AtWaitForNotification this token) h =
       if notified m
       then Some ([], h, [EvReturn (OpDeregisterCallback this token) (VBool false)])
       else None) ∧
  (∀ c this,
     reachable dcheck_is_on c → cfg_heap c !! this = Some m →
     (notified m = true →
        manager_state m = Cancelled ∧
        (∀ f, f ∈ frames_of c → in_pass this f = false) ∧
        match passes_started this (cfg_trace c) with
        | [] => invoked this (cfg_trace c) = [] ∧ returned this (cfg_trace c) = []
        | [cbs] =>
            invoked this (cfg_trace c) = map_to_list cbs ∧
            returned this (cfg_trace c) = map_to_list cbs
        | _ => False
        end) ∧
     (manager_state m = Cancelling → state_ m = None →
        passes_started this (cfg_trace c) = [∅] ∧ invoked this (cfg_trace c) = [])).
Proof.
  split_and!.
  - destruct (manager_state m) eqn:Hs.
    + exists (erase token m).
      destruct (erase_frame token m) as (H1 & H2 & H3 & H4 & H5 & H6 & H7).
      split_and!; try done.
      * by apply DeregisterCallback_locked_Idle.
      * apply registry_erase.
      * apply erase_absent.
      * unfold manager_state in *. by rewrite H1, H2.
    + apply manager_state_Cancelling in Hs as [Hc Hg].
      unfold DeregisterCallback_locked. rewrite Hc, Hg. by destruct (state_ m).
    + apply manager_state_Cancelled in Hs.
      unfold DeregisterCallback_locked. by rewrite Hs.
  - intros this h Hm. split.
    + simpl. rewrite Hm. simpl.
      by destruct (DeregisterCallback_locked token m) as [[b|] m1].
    + simpl. rewrite Hm. simpl. done.
  - intros c this Hreach Hm. split.
    + intros Hn.
      pose proof (reachable_invariant dcheck_is_on c Hreach) as [_ Hmg _].
      pose proof (ok_notified _ _ _ _ (Hmg this m Hm) Hn) as Hs.
      split; [done|]. by eapply cancelled_pass_is_over.
    + intros Hs Hst.
      destruct (cancelling_pass_in_flight c this m Hreach Hm Hs)
        as (running & todo & cbs & _ & Hps & Hinv & Hnone).
      rewrite (Hnone Hst) in Hps, Hinv. split; [done|].
      rewrite map_to_list_empty in Hinv. by apply app_eq_nil in Hinv as [? _].
Qed.

(** C9. In every reachable configuration and for every manager:
    [get_cancellation_token] returns the counter and adds one to it,
    touching nothing else; a call of [GetToken] completes in one step
    whatever the state of the manager; the tokens the manager has issued
    so far, in the order of issue, are strictly increasing, so without
    duplicates, and all below the counter, so below every token it will
    issue. *)
Theorem tokens_are_strictly_increasing c this m :
  reachable dcheck_is_on c →
  cfg_heap c !! this = Some m →
  (get_cancellation_token m).1 = next_cancellation_token_ m ∧
  next_cancellation_token_ (get_cancellation_token m).2 =
    (next_cancellation_token_ m + 1)%Z ∧
  manager_state (get_cancellation_token m).2 = manager_state m ∧
  state_ (get_cancellation_token m).2 = state_ m ∧
  frame_step dcheck_is_on (AtCall (OpGetToken this)) (cfg_heap c) =
    Some ([], <[this := (get_cancellation_token m).2]> (cfg_heap c),
          [EvToken this (next_cancellation_token_ m);
           EvReturn (OpGetToken this) (VToken (next_cancellation_token_ m))]) ∧
  StronglySorted Z.lt (tokens_issued this (cfg_trace c)) ∧
  NoDup (tokens_issued this (cfg_trace c)) ∧
  Forall (λ token, (token < next_cancellation_token_ m)%Z)
    (tokens_issued this (cfg_trace c)).
Proof.
  intros Hreach Hm.
  pose proof (reachable_invariant dcheck_is_on c Hreach) as [_ Hmg _].
  pose proof (Hmg this m Hm) as [H1 H2 H3 H4 H5 H6 H7 H8].
  split_and!; try done.
  - simpl. by rewrite Hm.
  - clear -H7. induction H7 as [|t l Hs IH Hall]; constructor; [|done].
    intros Hin. rewrite Forall_forall in Hall. specialize (Hall _ Hin). lia.
Qed.

End Observations.

(** C4, as the specification words it, fails: in [deregister_during_pass]
    the manager at address 0 is cancelling and its pass is still in
    flight (thread 0 has not taken the lock for the second time), yet the
    call of [DeregisterCallback] of thread 1 has returned false without
    waiting, and [IsCancelled] called after it returns false. *)
Lemma DeregisterCallback_returns_during_pass :
  cfg_threads deregister_during_pass = [[InStartCancel 0 None [] false]; []] ∧
  cfg_trace deregister_during_pass =
    [EvReturn OpNew (VAddr 0); EvPass 0 ∅;
     EvReturn (OpDeregisterCallback 0 0) (VBool false);
     EvReturn (OpIsCancelled 0) (VBool false)] ∧
  cfg_heap deregister_during_pass !! 0 =
    Some (mkCancellationManager true false 0 None None 0) ∧
  manager_state (mkCancellationManager true false 0 None None 0) = Cancelling ∧
  DeregisterCallback_locked 0 (mkCancellationManager true false 0 None None 0) =
    (Returns false, mkCancellationManager true false 0 None None 0) ∧
  ¬ DeregisterCallback_waits_whenever_cancelling.
Proof.
  split_and!; try by vm_compute.
  intros H. specialize (H 0%Z (mkCancellationManager true false 0 None None 0) eq_refl).
  discriminate H.
Qed.

(** ** Passes *)

Section Passes.
Variable dcheck_is_on : bool.

(** A manager has at most one pass, which calls callbacks it captured, in
    order, each at most once, and all of them by the time the manager is
    cancelled. *)
Lemma one_pass_per_manager c this m :
  reachable dcheck_is_on c →
  cfg_heap c !! this = Some m →
  match passes_started this (cfg_trace c) with
  | [] => invoked this (cfg_trace c) = [] ∧ returned this (cfg_trace c) = []
  | [cbs] =>
      manager_state m ≠ Idle ∧
      invoked this (cfg_trace c) `prefix_of` map_to_list cbs ∧
      NoDup (invoked this (cfg_trace c)) ∧
      (manager_state m = Cancelled →
       invoked this (cfg_trace c) = map_to_list cbs ∧
       returned this (cfg_trace c) = map_to_list cbs)
  | _ => False
  end.
Proof.
  intros Hreach Hm.
  pose proof (reachable_invariant dcheck_is_on c Hreach) as [_ Hmg _].
  pose proof (Hmg this m Hm) as [H1 H2 H3 H4 H5 H6 H7 H8].
  destruct (passes_started this (cfg_trace c)) as [|cbs [|]] eqn:Hps; [done| |done].
  assert (manager_state m ≠ Idle) as Hni by (intros Hs; by specialize (H5 Hs)).
  assert (invoked this (cfg_trace c) `prefix_of` map_to_list cbs) as Hpre.
  { destruct (manager_state m) eqn:Hs; [done| |].
    - destruct (cancelling_pass_in_flight dcheck_is_on c this m Hreach Hm Hs)
        as (running & todo & cbs' & _ & Hps' & Hinv & _).
      rewrite Hps in Hps'. injection Hps' as <-. by exists todo.
    - destruct (H6 eq_refl) as [-> _]. done. }
  split_and!; [done|done| |done].
  destruct Hpre as [k Hk]. pose proof (NoDup_map_to_list cbs) as Hnd.
  rewrite Hk in Hnd. by apply NoDup_app in Hnd as [? _].
Qed.

(** C1. Sequentially: whatever registrations succeeded on a manager,
    calling [StartCancel] on it [n >= 1] times runs every callback that
    is in the registry when the first call finds the manager idle
    exactly once (the invocations of the manager have no duplicate and
    are those of the entries of the registry); that call leaves the
    registry empty and the manager cancelled; every other call returns at
    once, runs nothing and changes nothing.  In every interleaving: a
    call of [StartCancel] that finds the manager idle empties the
    registry into the pass it starts, any other call is a step that
    changes nothing and starts nothing; a manager has at most one pass,
    whose invocations are without duplicate a prefix of the captured
    entries, and all of them once the manager is cancelled. *)
Theorem StartCancel_runs_each_callback_once :
  (∀ registrations m0 m this (h : gmap nat CancellationManager) fuel n,
     register_all dcheck_is_on registrations m0 = Some m →
     h !! this = Some m → closed h → size (idle_managers h) < fuel → 0 < n →
     registry m = foldl (λ r kv, <[kv.1 := kv.2]> r) (registry m0) registrations ∧
     ∃ log h',
       StartCancel fuel this h = Done (log, h') ∧
       StartCancel_times fuel n this h = Done (log, h') ∧
       (∀ k, StartCancel_times fuel k this h' = Done ([], h')) ∧
       match manager_state m with
       | Idle =>
           NoDup (by_manager this log) ∧
           (∀ token callback,
              Invoked this token callback ∈ log ↔ registry m !! token = Some callback) ∧
           ∃ m', h' !! this = Some m' ∧ manager_state m' = Cancelled ∧ registry m' = ∅
       | _ => log = [] ∧ h' = h
       end) ∧
  (∀ c this m,
     reachable dcheck_is_on c → cfg_heap c !! this = Some m →
     match manager_state m with
     | Idle =>
         ∃ m1,
           frame_step dcheck_is_on (AtCall (OpStartCancel this)) (cfg_heap c) =
             Some ([InStartCancel this None (map_to_list (registry m))
                      (bool_decide (is_Some (state_ m)))],
                   <[this := m1]> (cfg_heap c), [EvPass this (registry m)]) ∧
           manager_state m1 = Cancelling ∧ registry m1 = ∅
     | _ =>
         frame_step dcheck_is_on (AtCall (OpStartCancel this)) (cfg_heap c) =
           Some ([], cfg_heap c, [])
     end ∧
     match passes_started this (cfg_trace c) with
     | [] => invoked this (cfg_trace c) = [] ∧ returned this (cfg_trace c) = []
     | [cbs] =>
         manager_state m ≠ Idle ∧
         invoked this (cfg_trace c) `prefix_of` map_to_list cbs ∧
         NoDup (invoked this (cfg_trace c)) ∧
         (manager_state m = Cancelled →
          invoked this (cfg_trace c) = map_to_list cbs ∧
          returned this (cfg_trace c) = map_to_list cbs)
     | _ => False
     end).
Proof.
  split.
  - intros registrations m0 m this h fuel n Hreg Hm Hc Hfuel Hn.
    split; [by apply (register_all_registry dcheck_is_on) in Hreg as [? _]|].
    destruct (StartCancel_total fuel this h Hc (mk_is_Some _ _ Hm) Hfuel) as (log & h' & E).
    exists log, h'. destruct fuel as [|fuel]; [lia|].
    destruct (decide (manager_state m = Idle)) as [Hs|Hs].
    + destruct (StartCancel_post _ _ _ _ _ E) as [_ Hp].
      destruct (Hp m Hm Hs) as (m1 & Hm1 & _ & Hf & Hl).
      rewrite Hm in Hm1. injection Hm1 as <-.
      destruct (finished_Idle m Hs) as (Hfs & _ & Hfr & _).
      assert (∀ k, StartCancel_times (S fuel) k this h' = Done ([], h')) as Hk.
      { intros k. eapply StartCancel_times_not_Idle; [done|congruence]. }
      split_and!; [done| |done|].
      * destruct n as [|n]; [lia|]. cbn [StartCancel_times]. rewrite E. simpl.
        rewrite Hk. simpl. by rewrite app_nil_r.
      * rewrite Hs. split_and!.
        -- rewrite Hl. apply NoDup_invocations.
        -- intros token cb.
           pose proof (elem_of_invocations this (registry m) this token cb) as Hin.
           rewrite <- Hl, elem_of_by_manager in Hin. simpl in Hin. tauto.
        -- eauto.
    + rewrite (StartCancel_not_Idle _ _ _ _ Hm Hs) in E. injection E as <- <-.
      split_and!.
      * by eapply StartCancel_not_Idle.
      * by eapply StartCancel_times_not_Idle.
      * intros k. by eapply StartCancel_times_not_Idle.
      * destruct (manager_state m); done.
  - intros c this m Hreach Hm. split; [|by apply one_pass_per_manager].
    destruct (manager_state m) eqn:Hs.
    + destruct (StartCancel_acquire_Some m Hs) as (m1 & Hacq & Hs1 & Hr1 & _).
      exists m1. split_and!; [|done..]. simpl. rewrite Hm. simpl. by rewrite Hacq.
    + assert (StartCancel_acquire m = None) as Hacq
        by (apply StartCancel_acquire_None; congruence).
      simpl. rewrite Hm. simpl. by rewrite Hacq.
    + assert (StartCancel_acquire m = None) as Hacq
        by (apply StartCancel_acquire_None; congruence).
      simpl. rewrite Hm. simpl. by rewrite Hacq.
Qed.

End Passes.

(** ** Parents and children *)

Section Children.
Variable dcheck_is_on : bool.

Lemma DCHECK_LT_succ token : DCHECK_LT dcheck_is_on token (token + 1) = true.
Proof.
  unfold DCHECK_LT. rewrite bool_decide_eq_true_2 by lia. by destruct dcheck_is_on.
Qed.

Lemma manager_state_iter_get_cancellation_token k m :
  manager_state (Nat.iter k (λ m, (get_cancellation_token m).2) m) = manager_state m.
Proof. induction k as [|k IH]; [done|]. simpl. by rewrite <- IH. Qed.

(** C6. The constructor of a child takes the next token of the parent and
    registers, under it, the lambda that calls the child's [StartCancel].
    Parent idle: the lambda is in the registry of the parent and the
    child is idle.  Parent cancelling or cancelled: the registration
    fails, nothing but the token counter of the parent changes, and the
    child starts cancelled, with no state block, without any callback
    having been called; from then on, however many tokens are taken from
    the child, every [RegisterCallback] on it whose [DCHECK] passes
    returns false and leaves it unchanged, and [StartCancel] on it does
    nothing. *)
Theorem child_of_cancelled_parent_is_cancelled parent (h : gmap nat CancellationManager) p :
  h !! parent = Some p →
  ∃ this h' child p',
    new_CancellationManager_child dcheck_is_on parent h = Done (this, h') ∧
    h !! this = None ∧ h' !! this = Some child ∧ h' !! parent = Some p' ∧
    (∀ x, x ≠ this → x ≠ parent → h' !! x = h !! x) ∧
    parent_ child = Some parent ∧
    parent_token_ child = next_cancellation_token_ p ∧
    next_cancellation_token_ p' = (next_cancellation_token_ p + 1)%Z ∧
    state_ child = None ∧ is_cancelling_ child = false ∧
    next_cancellation_token_ child = 0%Z ∧
    match manager_state p with
    | Idle =>
        RegisterCallback dcheck_is_on (next_cancellation_token_ p)
          (ChildStartCancel this) (get_cancellation_token p).2 = Some (true, p') ∧
        registry p' =
          <[next_cancellation_token_ p := ChildStartCancel this]> (registry p) ∧
        manager_state p' = Idle ∧
        manager_state child = Idle
    | _ =>
        RegisterCallback dcheck_is_on (next_cancellation_token_ p)
          (ChildStartCancel this) (get_cancellation_token p).2 = Some (false, p') ∧
        p' = (get_cancellation_token p).2 ∧
        registry p' = registry p ∧
        manager_state p' = manager_state p ∧
        manager_state child = Cancelled ∧
        (∀ k token callback,
           let child' := Nat.iter k (λ m, (get_cancellation_token m).2) child in
           DCHECK_LT dcheck_is_on token (next_cancellation_token_ child') = true →
           RegisterCallback dcheck_is_on token callback child' = Some (false, child')) ∧
        (∀ fuel n (h'' : gmap nat CancellationManager),
           h'' !! this = Some child →
           StartCancel_times (S fuel) n this h'' = Done ([], h''))
    end.
Proof.
  intros Hp.
  assert (h !! fresh (dom h) = None) as Hfresh by apply not_elem_of_dom, is_fresh.
  assert (fresh (dom h) ≠ parent) as Hne by congruence.
  unfold new_CancellationManager_child, call_get_cancellation_token,
    call_RegisterCallback, deref.
  rewrite Hp. simpl. rewrite lookup_insert_eq. simpl.
  pose proof (DCHECK_LT_succ (next_cancellation_token_ p)) as Hd.
  set (p1 := set_next_cancellation_token (next_cancellation_token_ p + 1) p) in *.
  destruct (decide (manager_state p = Idle)) as [Hs|Hs].
  - destruct (RegisterCallback_Idle dcheck_is_on (next_cancellation_token_ p)
                (ChildStartCancel (fresh (dom h))) p1 Hs Hd)
      as (p' & E & Hr & _ & Hs' & _ & Hnx & _).
    rewrite E. simpl. eexists _, _, _, p'. split; [reflexivity|].
    rewrite lookup_insert_eq, lookup_insert_ne, insert_insert_eq, lookup_insert_eq by done.
    rewrite Hs. split_and!; try done.
    intros x H1 H2. by rewrite !lookup_insert_ne.
  - rewrite (RegisterCallback_not_Idle dcheck_is_on _ _ p1 Hs Hd). simpl.
    eexists _, _, _, p1. split; [reflexivity|].
    rewrite lookup_insert_eq, lookup_insert_ne, insert_insert_eq, lookup_insert_eq by done.
    assert (match manager_state p with Idle => False | _ => True end) as Hcase
      by (by destruct (manager_state p)).
    split_and!; try done.
    { intros x H1 H2. by rewrite !lookup_insert_ne. }
    pose proof (RegisterCallback_not_Idle dcheck_is_on (next_cancellation_token_ p)
                  (ChildStartCancel (fresh (dom h))) p1 Hs Hd) as E.
    destruct (manager_state p) eqn:Hsp; [done| |];
      (split_and!; try done;
       [intros k token callback Hd'; apply RegisterCallback_not_Idle; [|done];
        by rewrite (manager_state_iter_get_cancellation_token k)
       |intros fuel n h'' Hc; by eapply StartCancel_times_not_Idle]).
Qed.

End Children.

(** ** Destruction *)

(** Every invocation of a pass is that of an entry of a registry. *)
Lemma StartCancel_log_from_registry fuel this (h : gmap nat CancellationManager) log h' :
  StartCancel fuel this h = Done (log, h') →
  ∀ i, i ∈ log →
    ∃ m, h !! inv_manager i = Some m ∧
         registry m !! inv_token i = Some (inv_callback i).
Proof.
  intros [Hp _]%StartCancel_post [x token cb] Hin. simpl.
  assert (Invoked x token cb ∈ by_manager x log) as Hby
    by (by apply elem_of_by_manager).
  destruct (Hp x) as [[_ Hnil]|(m & Hm & _ & _ & Hl)].
  - rewrite Hnil in Hby. by apply elem_of_nil in Hby.
  - rewrite Hl in Hby. apply elem_of_invocations in Hby as [_ Hr]. eauto.
Qed.

(** A pass only empties registries. *)
Lemma pass_post_unreferenced h log h' this :
  pass_post h log h' → unreferenced this h → unreferenced this h'.
Proof.
  intros Hp Hu x mx token Hx.
  destruct (Hp x) as [[H1 _]|(m & H1 & H2 & H3 & _)].
  - rewrite H1 in Hx. by eapply Hu.
  - destruct (finished_Idle m H2) as (_ & _ & Hf & _).
    rewrite H3 in Hx. injection Hx as <-. by rewrite Hf.
Qed.

Lemma idle_managers_insert (h : gmap nat CancellationManager) x m m' :
  h !! x = Some m → manager_state m' = manager_state m →
  idle_managers (<[x := m']> h) ⊆ idle_managers h.
Proof.
  intros Hx Hs y. rewrite !elem_of_idle_managers. intros (my & Hy & Hsy).
  destruct (decide (y = x)) as [->|Hne].
  - rewrite lookup_insert_eq in Hy. injection Hy as <-. exists m. split; [done|congruence].
  - rewrite lookup_insert_ne in Hy by done. eauto.
Qed.

Lemma idle_managers_delete (h : gmap nat CancellationManager) x :
  idle_managers (delete x h) ⊆ idle_managers h.
Proof.
  intros y. rewrite !elem_of_idle_managers. intros (my & Hy & Hsy).
  apply lookup_delete_Some in Hy as [_ Hy]. eauto.
Qed.

Lemma closed_erase (h : gmap nat CancellationManager) x m token :
  closed h → h !! x = Some m → closed (<[x := erase token m]> h).
Proof.
  rewrite !closed_alt. intros Hc Hx y my t child Hy Hr.
  assert (is_Some (h !! child)) as [mc Hmc].
  { destruct (decide (y = x)) as [->|Hne].
    - rewrite lookup_insert_eq in Hy. injection Hy as <-.
      rewrite registry_erase in Hr. apply lookup_delete_Some in Hr as [_ Hr]. eauto.
    - rewrite lookup_insert_ne in Hy by done. eauto. }
  destruct (decide (child = x)) as [->|Hne].
  - rewrite lookup_insert_eq. eauto.
  - rewrite lookup_insert_ne by done. eauto.
Qed.

Lemma closed_delete (h : gmap nat CancellationManager) this :
  closed h → unreferenced this h → closed (delete this h).
Proof.
  rewrite !closed_alt. intros Hc Hu x mx token child Hx Hr.
  apply lookup_delete_Some in Hx as [Hne Hx].
  destruct (decide (child = this)) as [->|Hnc].
  - by destruct (Hu _ _ _ Hx Hr).
  - rewrite lookup_delete_ne by done. eauto.
Qed.

Lemma unreferenced_delete (h : gmap nat CancellationManager) this x :
  unreferenced this h → unreferenced this (delete x h).
Proof. intros Hu y my token [_ Hy]%lookup_delete_Some. by eapply Hu. Qed.

Lemma DeregisterCallback_Idle this token (h : gmap nat CancellationManager) m :
  h !! this = Some m → manager_state m = Idle →
  DeregisterCallback this token h = Done (true, <[this := erase token m]> h).
Proof.
  intros Hm Hs. unfold DeregisterCallback, deref. rewrite Hm. simpl.
  by rewrite DeregisterCallback_locked_Idle.
Qed.

(** C7. The destructor.  Without a parent: it calls its own
    [StartCancel] if and only if the state block was allocated, then the
    manager is gone.  With a parent that is idle: it first removes the
    entry of its token from the registry of the parent, then does the
    same.  If the lambda of the child was nowhere but under that token,
    neither the pass of the destructor nor a later [StartCancel] on the
    parent calls it, no invocation of that later pass is one of the
    destroyed child, and the address of the child stays free. *)
Theorem destructor_deregisters_from_parent fuel this (h : gmap nat CancellationManager) c :
  h !! this = Some c → closed h → size (idle_managers h) < fuel →
  (parent_ c = None →
   ∃ log1 h1,
     match state_ c with
     | Some _ => StartCancel fuel this h
     | None => Done ([], h)
     end = Done (log1, h1) ∧
     (state_ c = None → log1 = [] ∧ h1 = h) ∧
     delete_CancellationManager fuel this h = Done (log1, delete this h1)) ∧
  (∀ parent p,
     parent_ c = Some parent → h !! parent = Some p →
     manager_state p = Idle → this ≠ parent →
     let h0 := <[parent := erase (parent_token_ c) p]> h in
     DeregisterCallback parent (parent_token_ c) h = Done (true, h0) ∧
     registry (erase (parent_token_ c) p) = delete (parent_token_ c) (registry p) ∧
     ∃ log1 h1,
       match state_ c with
       | Some _ => StartCancel fuel this h0
       | None => Done ([], h0)
       end = Done (log1, h1) ∧
       (state_ c = None → log1 = [] ∧ h1 = h0) ∧
       delete_CancellationManager fuel this h = Done (log1, delete this h1) ∧
       ((∀ x mx token,
           h !! x = Some mx → registry mx !! token = Some (ChildStartCancel this) →
           x = parent ∧ token = parent_token_ c) →
        (∀ i, i ∈ log1 → inv_callback i ≠ ChildStartCancel this) ∧
        ∃ log2 h2,
          StartCancel fuel parent (delete this h1) = Done (log2, h2) ∧
          (∀ i, i ∈ log2 →
             inv_callback i ≠ ChildStartCancel this ∧ inv_manager i ≠ this) ∧
          h2 !! this = None)).
Proof.
  intros Hc Hcl Hfuel.
  assert (∀ h0 : gmap nat CancellationManager,
            h0 !! this = Some c → closed h0 → size (idle_managers h0) < fuel →
            ∃ log1 h1,
              match state_ c with
              | Some _ => StartCancel fuel this h0
              | None => Done ([], h0)
              end = Done (log1, h1) ∧
              (state_ c = None → log1 = [] ∧ h1 = h0) ∧
              pass_post h0 log1 h1 ∧
              (∀ i, i ∈ log1 → ∃ m, h0 !! inv_manager i = Some m ∧
                                    registry m !! inv_token i = Some (inv_callback i)))
    as Hown.
  { intros h0 Hc0 Hcl0 Hfuel0. destruct (state_ c) as [st|] eqn:Hst.
    - destruct (StartCancel_total fuel this h0 Hcl0 (mk_is_Some _ _ Hc0) Hfuel0)
        as (log1 & h1 & E).
      exists log1, h1. split_and!; [done|done| |].
      + by apply StartCancel_post in E as [? _].
      + by eapply StartCancel_log_from_registry.
    - exists [], h0. split_and!; [done|done|apply pass_post_refl|].
      intros i Hi. by apply elem_of_nil in Hi. }
  split.
  - intros Hpar. destruct (Hown h Hc Hcl Hfuel) as (log1 & h1 & E & Hnone & _).
    exists log1, h1. split_and!; [done..|].
    unfold delete_CancellationManager, deref. rewrite Hc. simpl. rewrite Hpar. simpl.
    rewrite Hc. simpl. destruct (state_ c); rewrite E; done.
  - intros parent p Hpar Hp Hs Hne h0.
    assert (h0 !! this = Some c) as Hc0 by (unfold h0; by rewrite lookup_insert_ne).
    assert (closed h0) as Hcl0 by (by apply closed_erase).
    destruct (erase_frame (parent_token_ c) p) as (Hg & Hcd & _).
    assert (size (idle_managers h0) < fuel) as Hfuel0.
    { eapply Nat.le_lt_trans; [|exact Hfuel]. apply subseteq_size.
      eapply idle_managers_insert; [done|]. by apply manager_state_flags. }
    split_and!; [by apply DeregisterCallback_Idle|apply registry_erase|].
    destruct (Hown h0 Hc0 Hcl0 Hfuel0) as (log1 & h1 & E & Hnone & Hp1 & Hlog1).
    exists log1, h1. split_and!; [done..| |].
    { unfold delete_CancellationManager, deref. rewrite Hc. simpl. rewrite Hpar. simpl.
      rewrite (DeregisterCallback_Idle _ _ _ _ Hp Hs). simpl. fold h0.
      rewrite Hc0. simpl. destruct (state_ c); rewrite E; done. }
    intros Honly.
    assert (unreferenced this h0) as Hu0.
    { intros x mx token Hx Hr. destruct (decide (x = parent)) as [->|Hnx].
      - unfold h0 in Hx. rewrite lookup_insert_eq in Hx. injection Hx as <-.
        rewrite registry_erase in Hr. apply lookup_delete_Some in Hr as [Hnt Hr].
        destruct (Honly _ _ _ Hp Hr) as [_ ->]. done.
      - unfold h0 in Hx. rewrite lookup_insert_ne in Hx by done.
        destruct (Honly _ _ _ Hx Hr) as [-> _]. done. }
    pose proof (pass_post_unreferenced _ _ _ this Hp1 Hu0) as Hu1.
    split.
    { intros i Hi Heq. destruct (Hlog1 i Hi) as (m & Hm & Hr).
      rewrite Heq in Hr. by destruct (Hu0 _ _ _ Hm Hr). }
    assert (is_Some (delete this h1 !! parent)) as Hpar1.
    { rewrite lookup_delete_ne by done. apply (pass_post_dom _ _ _ parent Hp1).
      unfold h0. rewrite lookup_insert_eq. eauto. }
    destruct (StartCancel_total fuel parent (delete this h1)) as (log2 & h2 & E2);
      [|done| |].
    { apply closed_delete; [|done]. by eapply pass_post_closed. }
    { eapply Nat.le_lt_trans; [|exact Hfuel0]. apply subseteq_size.
      etrans; [apply idle_managers_delete|]. by eapply pass_post_idle_managers. }
    exists log2, h2. split_and!; [done| |].
    + intros i Hi.
      destruct (StartCancel_log_from_registry _ _ _ _ _ E2 i Hi) as (m & Hm & Hr).
      split.
      * intros Heq. rewrite Heq in Hr.
        by destruct (unreferenced_delete _ _ this Hu1 _ _ _ Hm Hr).
      * intros Heq. rewrite Heq, lookup_delete_eq in Hm. done.
    + apply StartCancel_post in E2 as [Hp2 _].
      destruct (h2 !! this) eqn:Hh2; [|done].
      assert (is_Some (delete this h1 !! this)) as [? Habs].
      { apply (pass_post_dom _ _ _ this Hp2). eauto. }
      by rewrite lookup_delete_eq in Habs.
Qed.

(** ** Two executions *)

(** The first registration succeeds and its callback is called once; the
    second registration fails and the second pass calls nothing. *)
Example register_then_cancel_runs :
  register_then_cancel =
  Done (true, [Invoked 0 0 (Closure 7)], false, [], Some true).
Proof. vm_compute. reflexivity. Qed.

(** The pass of the parent calls the lambda of the child, whose pass
    calls the callback registered on the child. *)
Example cancel_cascades_runs :
  cancel_cascades =
  Done ([Invoked 0 0 (ChildStartCancel 1); Invoked 1 0 (Closure 7)], Some true).
Proof. vm_compute. reflexivity. Qed.

(** ** The theorems at concrete inputs *)

(** C1 on a heap with one manager holding two callbacks, cancelled three
    times. *)
Lemma StartCancel_runs_each_callback_once_witness :
  register_all true [(0%Z, Closure 7); (1%Z, Closure 8)] two_tokens = Some two_callbacks ∧
  ({[0 := two_callbacks]} : gmap nat CancellationManager) !! 0 = Some two_callbacks ∧
  closed {[0 := two_callbacks]} ∧
  size (idle_managers {[0 := two_callbacks]}) < 2 ∧
  0 < 3 ∧
  ∃ log h',
    StartCancel 2 0 {[0 := two_callbacks]} = Done (log, h') ∧
    StartCancel_times 2 3 0 {[0 := two_callbacks]} = Done (log, h') ∧
    (∀ k, StartCancel_times 2 k 0 h' = Done ([], h')) ∧
    NoDup (by_manager 0 log) ∧
    (∀ token callback,
       Invoked 0 token callback ∈ log ↔ registry two_callbacks !! token = Some callback).
Proof.
  assert (register_all true [(0%Z, Closure 7); (1%Z, Closure 8)] two_tokens =
          Some two_callbacks) as H1 by (vm_compute; reflexivity).
  assert (({[0 := two_callbacks]} : gmap nat CancellationManager) !! 0 =
          Some two_callbacks) as H2 by (vm_compute; reflexivity).
  assert (closed {[0 := two_callbacks]}) as H3
    by (refine (bool_decide_unpack _ _); vm_compute; exact I).
  assert (size (idle_managers {[0 := two_callbacks]}) < 2) as H4 by (vm_compute; lia).
  assert (0 < 3) as H5 by lia.
  split_and!; try assumption.
  destruct (proj1 (StartCancel_runs_each_callback_once true) _ _ _ _ _ _ _ H1 H2 H3 H4 H5)
    as [_ (log & h' & E1 & E2 & E3 & Hcase)].
  change (manager_state two_callbacks) with Idle in Hcase.
  destruct Hcase as (Hnd & Hin & _).
  exists log, h'. split_and!; assumption.
Defined.

(** C2 on a manager whose pass is over. *)
Lemma RegisterCallback_succeeds_iff_Idle_witness :
  DCHECK_LT true 0 (next_cancellation_token_ cancelled_manager) = true ∧
  ∃ registered m',
    RegisterCallback true 0 (Closure 9) cancelled_manager = Some (registered, m') ∧
    (registered = true ↔ manager_state cancelled_manager = Idle) ∧
    registered = false ∧ m' = cancelled_manager.
Proof.
  assert (DCHECK_LT true 0 (next_cancellation_token_ cancelled_manager) = true) as H1
    by (vm_compute; reflexivity).
  split; [assumption|].
  destruct (RegisterCallback_succeeds_iff_Idle true 0 (Closure 9) cancelled_manager H1)
    as (registered & m' & E & Hiff & Hcase).
  change (manager_state cancelled_manager) with Cancelled in Hcase.
  destruct Hcase as (Hf & Hm & _).
  exists registered, m'. split_and!; assumption.
Defined.

(** C10 on a manager holding a callback under token 1. *)
Lemma RegisterCallback_replaces_witness :
  manager_state two_callbacks = Idle ∧
  registry two_callbacks !! 1%Z = Some (Closure 8) ∧
  DCHECK_LT true 1 (next_cancellation_token_ two_callbacks) = true ∧
  ∃ m',
    RegisterCallback true 1 (Closure 9) two_callbacks = Some (true, m') ∧
    registry m' = <[1%Z := Closure 9]> (registry two_callbacks) ∧
    registry m' !! 1%Z = Some (Closure 9).
Proof.
  assert (manager_state two_callbacks = Idle) as H1 by (vm_compute; reflexivity).
  assert (registry two_callbacks !! 1%Z = Some (Closure 8)) as H2 by (vm_compute; reflexivity).
  assert (DCHECK_LT true 1 (next_cancellation_token_ two_callbacks) = true) as H3
    by (vm_compute; reflexivity).
  split_and!; try assumption.
  destruct (RegisterCallback_replaces true 1 (Closure 8) (Closure 9) two_callbacks H1 H2 H3)
    as (m' & E & Hr & Hl & _).
  exists m'. split_and!; assumption.
Defined.

(** C3 after a manager was created, used and cancelled by one thread. *)
Lemma cancellation_state_is_monotonic_witness :
  reachable true cancelled_config ∧
  cfg_heap cancelled_config !! 0 =
    Some (mkCancellationManager false true 1 (Some (mkState false ∅)) None 0) ∧
  ∀ c', rtc (step true) cancelled_config c' →
        ∃ m', cfg_heap c' !! 0 = Some m' ∧ manager_state m' = Cancelled.
Proof.
  assert (reachable true cancelled_config) as H1 by apply run_schedule_reachable.
  assert (cfg_heap cancelled_config !! 0 =
          Some (mkCancellationManager false true 1 (Some (mkState false ∅)) None 0))
    as H2 by (vm_compute; reflexivity).
  split_and!; try assumption.
  intros c' Hsteps.
  destruct (cancellation_state_is_monotonic true cancelled_config 0 _ H1 H2) as [_ H].
  exact (H c' Hsteps eq_refl).
Defined.

(** C5 in the same configuration. *)
Lemma IsCancelled_implies_callbacks_returned_witness :
  reachable true cancelled_config ∧
  cfg_heap cancelled_config !! 0 =
    Some (mkCancellationManager false true 1 (Some (mkState false ∅)) None 0) ∧
  (∀ f, f ∈ frames_of cancelled_config → in_pass 0 f = false) ∧
  returned 0 (cfg_trace cancelled_config) = [(0%Z, Closure 7)].
Proof.
  assert (reachable true cancelled_config) as H1 by apply run_schedule_reachable.
  assert (cfg_heap cancelled_config !! 0 =
          Some (mkCancellationManager false true 1 (Some (mkState false ∅)) None 0))
    as H2 by (vm_compute; reflexivity).
  split_and!; try assumption.
  - destruct (IsCancelled_implies_callbacks_returned true cancelled_config 0 _ H1 H2)
      as (_ & _ & _ & H).
    destruct (H eq_refl) as [Hf _]. exact Hf.
  - vm_compute. reflexivity.
Defined.

(** C9 with two threads taking tokens of one manager in turn, the last
    one after the manager was cancelled. *)
Lemma tokens_are_strictly_increasing_witness :
  reachable true tokens_config ∧
  cfg_heap tokens_config !! 0 =
    Some (mkCancellationManager false true 5 None None 0) ∧
  tokens_issued 0 (cfg_trace tokens_config) = [0; 1; 2; 3; 4]%Z ∧
  StronglySorted Z.lt (tokens_issued 0 (cfg_trace tokens_config)) ∧
  NoDup (tokens_issued 0 (cfg_trace tokens_config)) ∧
  Forall (λ token, (token < 5)%Z) (tokens_issued 0 (cfg_trace tokens_config)) ∧
  frame_step true (AtCall (OpGetToken 0)) (cfg_heap tokens_config) =
    Some ([],
          <[0 := (get_cancellation_token
                    (mkCancellationManager false true 5 None None 0)).2]>
            (cfg_heap tokens_config),
          [EvToken 0 5; EvReturn (OpGetToken 0) (VToken 5)]).
Proof.
  assert (reachable true tokens_config) as H1 by apply run_schedule_reachable.
  assert (cfg_heap tokens_config !! 0 =
          Some (mkCancellationManager false true 5 None None 0))
    as H2 by (vm_compute; reflexivity).
  assert (tokens_issued 0 (cfg_trace tokens_config) = [0; 1; 2; 3; 4]%Z) as H3
    by (vm_compute; reflexivity).
  destruct (tokens_are_strictly_increasing true tokens_config 0 _ H1 H2)
    as (_ & _ & _ & _ & Hstep & Hs & Hnd & Hall).
  split_and!; assumption.
Defined.

(** C6 with a parent whose pass is over. *)
Lemma child_of_cancelled_parent_is_cancelled_witness :
  ({[0 := cancelled_manager]} : gmap nat CancellationManager) !! 0 =
    Some cancelled_manager ∧
  ∃ this h' child,
    new_CancellationManager_child true 0 {[0 := cancelled_manager]} = Done (this, h') ∧
    h' !! this = Some child ∧
    manager_state child = Cancelled ∧
    state_ child = None.
Proof.
  assert (({[0 := cancelled_manager]} : gmap nat CancellationManager) !! 0 =
          Some cancelled_manager) as H1 by (vm_compute; reflexivity).
  split; [assumption|].
  destruct (child_of_cancelled_parent_is_cancelled true 0 _ _ H1)
    as (this & h' & child & p' & E & _ & Hc & _ & _ & _ & _ & _ & Hst & _ & _ & Hcase).
  change (manager_state cancelled_manager) with Cancelled in Hcase.
  destruct Hcase as (_ & _ & _ & _ & Hs & _).
  exists this, h', child. split_and!; assumption.
Defined.

(** C7 on a parent and its child. *)
Lemma destructor_deregisters_from_parent_witness :
  parent_and_child !! 1 = Some (mkCancellationManager false false 0 None (Some 0) 0) ∧
  closed parent_and_child ∧
  size (idle_managers parent_and_child) < 3 ∧
  ∃ log1 h1,
    delete_CancellationManager 3 1 parent_and_child = Done (log1, delete 1 h1) ∧
    ∃ log2 h2,
      StartCancel 3 0 (delete 1 h1) = Done (log2, h2) ∧
      (∀ i, i ∈ log2 → inv_callback i ≠ ChildStartCancel 1 ∧ inv_manager i ≠ 1) ∧
      h2 !! 1 = None.
Proof.
  assert (parent_and_child !! 1 =
          Some (mkCancellationManager false false 0 None (Some 0) 0)) as H1
    by (vm_compute; reflexivity).
  assert (closed parent_and_child) as H2
    by (refine (bool_decide_unpack _ _); vm_compute; exact I).
  assert (size (idle_managers parent_and_child) < 3) as H3 by (vm_compute; lia).
  split_and!; try assumption.
  destruct (destructor_deregisters_from_parent 3 1 parent_and_child _ H1 H2 H3) as [_ H].
  assert (parent_and_child !! 0 =
          Some (mkCancellationManager false false 1
                  (Some (mkState false {[0%Z := ChildStartCancel 1]})) None 0)) as H4
    by (vm_compute; reflexivity).
  destruct (H 0 _ eq_refl H4 eq_refl) as (_ & _ & log1 & h1 & _ & _ & E & Hrest); [lia|].
  exists log1, h1. split; [assumption|].
  apply Hrest. intros x mx token Hx Hr.
  destruct x as [|[|x]].
  - rewrite H4 in Hx. injection Hx as <-. unfold registry in Hr. simpl in Hr.
    apply lookup_singleton_Some in Hr as [<- _]. done.
  - rewrite H1 in Hx. injection Hx as <-. done.
  - assert (parent_and_child =
            <[1 := mkCancellationManager false false 0 None (Some 0) 0]>
              (<[0 := mkCancellationManager false false 1
                        (Some (mkState false {[0%Z := ChildStartCancel 1]})) None 0]> ∅))
      as Heq by (vm_compute; reflexivity).
    rewrite Heq, !lookup_insert_ne, lookup_empty in Hx by lia. discriminate Hx.
Defined.

(** * Further properties *)

(** ** What a pass leaves alone *)

Lemma finished_state m :
  manager_state m = Idle →
  state_ (finished m) = (λ _, mkState true ∅) <$> state_ m.
Proof.
  intros [Hc Hg]%manager_state_Idle.
  unfold finished, StartCancel_acquire. rewrite Hc, Hg. simpl.
  destruct (state_ m) as [st|] eqn:E; simpl; by rewrite ?E.
Qed.

(** X1. [StartCancel] returns on every closed heap, keeps the set of
    managers, and for every manager keeps the token counter, the parent
    and the parent token, and neither allocates nor frees the state
    block; a manager that is not idle is not written at all, and one
    that is written ends cancelled with an empty registry. *)
Theorem StartCancel_frame fuel this (h : gmap nat CancellationManager) :
  closed h → is_Some (h !! this) → size (idle_managers h) < fuel →
  ∃ log h',
    StartCancel fuel this h = Done (log, h') ∧
    dom h' = dom h ∧
    ∀ x m, h !! x = Some m →
      ∃ m', h' !! x = Some m' ∧
        next_cancellation_token_ m' = next_cancellation_token_ m ∧
        parent_ m' = parent_ m ∧ parent_token_ m' = parent_token_ m ∧
        (is_Some (state_ m') ↔ is_Some (state_ m)) ∧
        (manager_state m ≠ Idle → m' = m ∧ by_manager x log = []) ∧
        (m' = m ∨ manager_state m' = Cancelled ∧ registry m' = ∅).
Proof.
  intros Hc Hthis Hfuel.
  destruct (StartCancel_total fuel this h Hc Hthis Hfuel) as (log & h' & E).
  exists log, h'. split; [done|].
  apply StartCancel_post in E as [Hp _]. split.
  - apply set_eq. intros x. rewrite !elem_of_dom. by apply pass_post_dom with log.
  - intros x m Hx. destruct (Hp x) as [[H1 H2]|(m0 & H1 & H2 & H3 & H4)].
    + exists m. rewrite H1. split_and!; auto.
    + rewrite Hx in H1. injection H1 as <-.
      destruct (finished_Idle m H2) as (Hs & _ & Hr & _ & Hn & Hpa & Hpt).
      exists (finished m). split_and!; auto.
      * rewrite finished_state by done. destruct (state_ m); simpl; split; intros []; eauto; done.
      * intros Hni. done.
Qed.

(** ** Cascades *)

(** After the loop of a pass, no manager whose lambda the loop called is
    idle. *)
Lemma run_callbacks_cascades call this m :
  (∀ child h log h', call child h = Done (log, h') →
     pass_post h log h' ∧
     ∀ mc, h !! child = Some mc → manager_state mc = Idle →
           cancelled_by_pass child h log h') →
  manager_state m ≠ Idle →
  ∀ todo (h : gmap nat CancellationManager) log h',
    h !! this = Some m →
    run_callbacks call this todo h = Done (log, h') →
    ∀ token child mc',
      (token, ChildStartCancel child) ∈ todo → h' !! child = Some mc' →
      manager_state mc' ≠ Idle.
Proof.
  intros Hcall Hs todo. induction todo as [|[t0 cb0] rest IH];
    intros h log h' Hm Hrun token child mc' Hin Hc'.
  - by apply elem_of_nil in Hin.
  - simpl in Hrun.
    destruct (call_callback call cb0 h) as [[log1 h1]| | | |] eqn:E1; try done.
    simpl in Hrun.
    destruct (run_callbacks call this rest h1) as [[log2 h2]| | | |] eqn:E2; try done.
    simpl in Hrun. injection Hrun as <- <-.
    assert (pass_post h log1 h1) as Hp1.
    { destruct cb0; simpl in E1.
      - injection E1 as <- <-. apply pass_post_refl.
      - by apply Hcall in E1 as [? _]. }
    destruct (pass_post_not_Idle _ _ _ _ _ Hp1 Hm Hs) as [Hm1 _].
    apply elem_of_cons in Hin as [Heq|Hin]; [|by eapply IH].
    injection Heq as <- <-. simpl in E1.
    destruct (run_callbacks_post call this m (λ c h log h' H, proj1 (Hcall c h log h' H))
                Hs rest h1 log2 h2 Hm1 E2) as (Hm2 & _ & Hx).
    destruct (decide (child = this)) as [->|Hne]; [congruence|].
    assert (∀ mc1, h1 !! child = Some mc1 → manager_state mc1 ≠ Idle) as Hni1.
    { intros mc1 Hc1 Hidle. apply Hcall in E1 as [_ Hcanc].
      destruct (Hp1 child) as [[Ha _]|(mc & Ha & Hb & Hc & _)].
      - rewrite Ha in Hc1. destruct (Hcanc mc1 Hc1 Hidle) as (mc & Hd & _ & He & _).
        rewrite Hd in Hc1. injection Hc1 as ->. rewrite Ha, Hd in He.
        injection He as He. destruct (finished_Idle mc1 Hidle) as [Hf _].
        rewrite <- He in Hf. congruence.
      - rewrite Hc in Hc1. injection Hc1 as <-.
        destruct (finished_Idle mc Hb) as [Hf _]. congruence. }
    destruct (Hx child Hne) as [[Ha _]|(mc & Ha & Hb & Hc & _)].
    + rewrite Ha in Hc'. by apply Hni1.
    + by destruct (Hni1 mc Ha).
Qed.

(** The pass of an idle manager calls every entry of its registry. *)
Lemma StartCancel_invokes_registry fuel this (h : gmap nat CancellationManager)
    m token callback log h' :
  h !! this = Some m → manager_state m = Idle →
  registry m !! token = Some callback →
  StartCancel fuel this h = Done (log, h') →
  Invoked this token callback ∈ log.
Proof.
  intros Hm Hs Hr E.
  destruct (StartCancel_post _ _ _ _ _ E) as [_ Hthis].
  destruct (Hthis m Hm Hs) as (m0 & Hm0 & _ & _ & Hl).
  rewrite Hm in Hm0. injection Hm0 as <-.
  assert (Invoked this token callback ∈ by_manager this log) as Hin.
  { rewrite Hl. by apply elem_of_invocations. }
  by apply elem_of_by_manager in Hin as [_ ?].
Qed.

(** The pass of a manager enters the idle manager behind a lambda of its
    registry. *)
Lemma StartCancel_enters_child fuel this (h : gmap nat CancellationManager)
    m token child mc log h' :
  h !! this = Some m → manager_state m = Idle →
  registry m !! token = Some (ChildStartCancel child) →
  h !! child = Some mc → manager_state mc = Idle →
  StartCancel fuel this h = Done (log, h') →
  cancelled_by_pass child h log h'.
Proof.
  intros Hm Hs Hr Hc Hsc E.
  destruct (StartCancel_post _ _ _ _ _ E) as [Hp Hthis].
  destruct (decide (child = this)) as [->|Hne]; [by apply Hthis with m|].
  destruct (Hp child) as [[Ha _]|Hcanc]; [|done]. exfalso.
  destruct fuel as [|fuel]; [done|]. simpl in E. unfold deref in E.
  rewrite Hm in E. simpl in E.
  destruct (StartCancel_acquire_Some m Hs) as (m1 & Hacq & Hs1 & _).
  rewrite Hacq in E.
  destruct (run_callbacks (StartCancel fuel) this (map_to_list (registry m))
              (<[this := m1]> h)) as [[log1 h1]| | | |] eqn:E1; try done.
  simpl in E.
  destruct (h1 !! this) as [m2|] eqn:Hm2; [|done]. simpl in E.
  injection E as <- <-. rewrite lookup_insert_ne in Ha by done.
  assert (manager_state m1 ≠ Idle) as Hn1 by congruence.
  eapply (run_callbacks_cascades (StartCancel fuel) this m1
            (λ c h log h' H, StartCancel_post fuel c h log h' H) Hn1
            _ _ _ _ (lookup_insert_eq h this m1) E1 token child mc).
  - by apply elem_of_map_to_list.
  - by rewrite Ha.
  - done.
Qed.

(** X2. A pass cancels every idle manager whose lambda is in the registry it
    captured, and runs the callbacks of that manager exactly once. *)
Theorem StartCancel_cascades fuel this (h : gmap nat CancellationManager)
    m token child mc :
  closed h → size (idle_managers h) < fuel →
  h !! this = Some m → manager_state m = Idle →
  registry m !! token = Some (ChildStartCancel child) →
  h !! child = Some mc → manager_state mc = Idle →
  ∃ log h',
    StartCancel fuel this h = Done (log, h') ∧
    Invoked this token (ChildStartCancel child) ∈ log ∧
    h' !! child = Some (finished mc) ∧
    manager_state (finished mc) = Cancelled ∧
    by_manager child log = invocations child (map_to_list (registry mc)).
Proof.
  intros Hcl Hfuel Hm Hs Hr Hc Hsc.
  destruct (StartCancel_total fuel this h Hcl (mk_is_Some _ _ Hm) Hfuel) as (log & h' & E).
  exists log, h'. split; [done|].
  split; [by eapply StartCancel_invokes_registry|].
  destruct (StartCancel_enters_child fuel this h m token child mc log h'
              Hm Hs Hr Hc Hsc E) as (mc0 & Hc0 & _ & Hfc & Hlc).
  rewrite Hc in Hc0. injection Hc0 as <-.
  split_and!; [done| |done]. by destruct (finished_Idle mc Hsc).
Qed.

Section Construction.
Variable dcheck_is_on : bool.

(** The constructor of a child, on an idle parent. *)
Lemma new_CancellationManager_child_Idle parent (h : gmap nat CancellationManager) p :
  h !! parent = Some p → manager_state p = Idle →
  ∃ p',
    new_CancellationManager_child dcheck_is_on parent h =
      Done (fresh (dom h),
            <[fresh (dom h) :=
                mkCancellationManager false false 0 None (Some parent)
                  (next_cancellation_token_ p)]> (<[parent := p']> h)) ∧
    manager_state p' = Idle ∧
    registry p' =
      <[next_cancellation_token_ p := ChildStartCancel (fresh (dom h))]> (registry p) ∧
    next_cancellation_token_ p' = (next_cancellation_token_ p + 1)%Z.
Proof.
  intros Hp Hs.
  unfold new_CancellationManager_child, call_get_cancellation_token,
    call_RegisterCallback, deref.
  rewrite Hp. simpl. rewrite lookup_insert_eq. simpl.
  pose proof (DCHECK_LT_succ dcheck_is_on (next_cancellation_token_ p)) as Hd.
  destruct (RegisterCallback_Idle dcheck_is_on (next_cancellation_token_ p)
              (ChildStartCancel (fresh (dom h)))
              (set_next_cancellation_token (next_cancellation_token_ p + 1) p) Hs Hd)
    as (p' & E & Hr & _ & Hs' & _ & Hnx & _).
  rewrite E. simpl. rewrite insert_insert_eq. exists p'. done.
Qed.

(** X3. A child bound to an idle parent is cancelled by the pass of the
    parent: the constructor registers its lambda, [StartCancel] on the
    parent calls it, and both end cancelled. *)
Theorem child_is_cancelled_with_parent fuel parent (h : gmap nat CancellationManager) p :
  h !! parent = Some p → manager_state p = Idle →
  closed h → S (size (idle_managers h)) < fuel →
  ∃ child h1 log h2,
    new_CancellationManager_child dcheck_is_on parent h = Done (child, h1) ∧
    h !! child = None ∧
    (manager_state <$> h1 !! child) = Some Idle ∧
    StartCancel fuel parent h1 = Done (log, h2) ∧
    Invoked parent (next_cancellation_token_ p) (ChildStartCancel child) ∈ log ∧
    by_manager child log = [] ∧
    (manager_state <$> h2 !! child) = Some Cancelled ∧
    (manager_state <$> h2 !! parent) = Some Cancelled.
Proof.
  intros Hp Hs Hcl Hfuel.
  destruct (new_CancellationManager_child_Idle parent h p Hp Hs)
    as (p' & E & Hs' & Hr & _).
  set (child := fresh (dom h)) in *.
  set (mc := mkCancellationManager false false 0 None (Some parent)
               (next_cancellation_token_ p)) in *.
  set (h1 := <[child := mc]> (<[parent := p']> h)) in *.
  assert (h !! child = None) as Hfresh by apply not_elem_of_dom, is_fresh.
  assert (child ≠ parent) as Hne by congruence.
  assert (h1 !! child = Some mc) as Hc1 by apply lookup_insert_eq.
  assert (h1 !! parent = Some p') as Hp1.
  { unfold h1. by rewrite lookup_insert_ne, lookup_insert_eq. }
  assert (closed h1) as Hcl1.
  { apply closed_alt. intros x mx t c Hx Hreg.
    assert (c = child ∨ is_Some (h !! c)) as [->|[mc' Hmc']]; [|eauto|].
    - unfold h1 in Hx. destruct (decide (x = child)) as [->|Hnx].
      + rewrite lookup_insert_eq in Hx. injection Hx as <-. done.
      + rewrite lookup_insert_ne in Hx by done.
        destruct (decide (x = parent)) as [->|Hnp].
        * rewrite lookup_insert_eq in Hx. injection Hx as <-. rewrite Hr in Hreg.
          destruct (decide (t = next_cancellation_token_ p)) as [->|Hnt].
          -- rewrite lookup_insert_eq in Hreg. injection Hreg as <-. by left.
          -- rewrite lookup_insert_ne in Hreg by done. right.
             by apply (proj1 (closed_alt h) Hcl _ _ _ _ Hp Hreg).
        * rewrite lookup_insert_ne in Hx by done. right.
          by apply (proj1 (closed_alt h) Hcl _ _ _ _ Hx Hreg).
    - unfold h1. destruct (decide (c = child)) as [->|Hnc].
      + rewrite lookup_insert_eq. eauto.
      + rewrite lookup_insert_ne by done. destruct (decide (c = parent)) as [->|Hnp].
        * rewrite lookup_insert_eq. eauto.
        * rewrite lookup_insert_ne by done. eauto. }
  assert (size (idle_managers h1) < fuel) as Hfuel1.
  { eapply Nat.le_lt_trans; [|exact Hfuel].
    assert (idle_managers h1 ⊆ {[child]} ∪ idle_managers h) as Hsub.
    { intros x. rewrite elem_of_union, elem_of_singleton, !elem_of_idle_managers.
      intros (mx & Hx & Hsx). unfold h1 in Hx.
      destruct (decide (x = child)) as [->|Hnx]; [by left|]. right.
      rewrite lookup_insert_ne in Hx by done.
      destruct (decide (x = parent)) as [->|Hnp].
      - exists p. done.
      - rewrite lookup_insert_ne in Hx by done. eauto. }
    etrans; [apply (subseteq_size _ _ Hsub)|].
    rewrite size_union_alt, size_singleton.
    assert (idle_managers h ∖ {[child]} ⊆ idle_managers h) as Hsub2 by set_solver.
    apply subseteq_size in Hsub2. lia. }
  assert (registry p' !! next_cancellation_token_ p = Some (ChildStartCancel child))
    as Hreg by (rewrite Hr; apply lookup_insert_eq).
  destruct (StartCancel_total fuel parent h1 Hcl1 (mk_is_Some _ _ Hp1) Hfuel1)
    as (log & h2 & E2).
  pose proof (StartCancel_invokes_registry fuel parent h1 p' _ _ log h2
                Hp1 Hs' Hreg E2) as Hin.
  destruct (StartCancel_enters_child fuel parent h1 p' _ child mc log h2
              Hp1 Hs' Hreg Hc1 eq_refl E2) as (mc0 & Hc0 & _ & Hc2 & Hl).
  rewrite Hc1 in Hc0. injection Hc0 as <-.
  assert (manager_state (finished mc) = Cancelled) as Hsc by reflexivity.
  exists child, h1, log, h2. rewrite Hc1, Hc2. simpl. rewrite Hsc.
  split_and!; try done.
  apply StartCancel_post in E2 as [_ Hthis].
  destruct (Hthis p' Hp1 Hs') as (p0 & Hp0 & _ & Hf & _).
  rewrite Hp1 in Hp0. injection Hp0 as <-. rewrite Hf. simpl.
  by destruct (finished_Idle p' Hs') as [-> _].
Qed.

End Construction.

(** ** Registration undone *)

Section Undo.
Variable dcheck_is_on : bool.

(** X4. Registering a callback on an idle manager and deregistering its
    token, with either deregistration function, leaves the registry as it
    was without the token (as it was, if the token had no entry), and a
    later pass calls nothing for that token. *)
Theorem deregistered_callback_is_not_called token callback m :
  manager_state m = Idle →
  DCHECK_LT dcheck_is_on token (next_cancellation_token_ m) = true →
  ∃ m1 m2,
    RegisterCallback dcheck_is_on token callback m = Some (true, m1) ∧
    DeregisterCallback_locked token m1 = (Returns true, m2) ∧
    TryDeregisterCallback token m1 = (true, m2) ∧
    registry m2 = delete token (registry m) ∧
    (registry m !! token = None → registry m2 = registry m) ∧
    manager_state m2 = Idle ∧
    next_cancellation_token_ m2 = next_cancellation_token_ m ∧
    ∀ this (h : gmap nat CancellationManager) fuel,
      h !! this = Some m2 → closed h → size (idle_managers h) < fuel →
      ∃ log h',
        StartCancel fuel this h = Done (log, h') ∧
        (∀ cb, Invoked this token cb ∉ log) ∧
        (∀ t cb, Invoked this t cb ∈ log ↔ t ≠ token ∧ registry m !! t = Some cb).
Proof.
  intros Hs Hd.
  destruct (RegisterCallback_Idle dcheck_is_on token callback m Hs Hd)
    as (m1 & E & Hr1 & _ & Hs1 & _ & Hnx1 & _).
  destruct (erase_frame token m1) as (Hg & Hc & Hnx2 & _).
  assert (registry (erase token m1) = delete token (registry m)) as Hr2.
  { rewrite registry_erase, Hr1. apply delete_insert_eq. }
  assert (manager_state (erase token m1) = Idle) as Hs2.
  { rewrite <- Hs1. by apply manager_state_flags. }
  exists m1, (erase token m1). split_and!; try done.
  - by apply DeregisterCallback_locked_Idle.
  - by apply TryDeregisterCallback_Idle.
  - intros Hnone. rewrite Hr2. by apply delete_id.
  - congruence.
  - intros this h fuel Hm Hcl Hfuel.
    destruct (StartCancel_total fuel this h Hcl (mk_is_Some _ _ Hm) Hfuel) as (log & h' & Erun).
    exists log, h'. split; [done|].
    destruct (StartCancel_post _ _ _ _ _ Erun) as [_ Hp].
    destruct (Hp _ Hm Hs2) as (m0 & Hm0 & _ & _ & Hl).
    rewrite Hm in Hm0. injection Hm0 as <-.
    assert (∀ t cb, Invoked this t cb ∈ log ↔ t ≠ token ∧ registry m !! t = Some cb) as Hin.
    { intros t cb.
      pose proof (elem_of_invocations this (registry (erase token m1)) this t cb) as Hin.
      rewrite <- Hl, elem_of_by_manager, Hr2, lookup_delete_Some in Hin. simpl in Hin.
      destruct Hin as [Hin1 Hin2]. split.
      - intros H. destruct (Hin1 (conj eq_refl H)) as (_ & ? & ?). auto.
      - intros [H1 H2]. apply Hin2. auto. }
    split; [|done]. intros cb [Hne _]%Hin. done.
Qed.

End Undo.

(** ** The destructor and the callbacks still registered *)

(** X5. Deleting a manager without parent.  Idle with a state block: the
    destructor runs the pass, which calls every callback still registered
    exactly once; otherwise it calls nothing and writes no other
    manager.  In both cases the manager is gone afterwards. *)
Theorem destructor_runs_pending_callbacks fuel this (h : gmap nat CancellationManager) c :
  h !! this = Some c → parent_ c = None →
  closed h → size (idle_managers h) < fuel →
  ∃ log h',
    delete_CancellationManager fuel this h = Done (log, h') ∧
    h' !! this = None ∧
    (∀ x, x ≠ this → is_Some (h' !! x) ↔ is_Some (h !! x)) ∧
    if decide (manager_state c = Idle ∧ is_Some (state_ c))
    then NoDup (by_manager this log) ∧
         ∀ token callback,
           Invoked this token callback ∈ log ↔ registry c !! token = Some callback
    else log = [] ∧ h' = delete this h.
Proof.
  intros Hc Hpar Hcl Hfuel.
  unfold delete_CancellationManager, deref. rewrite Hc. simpl. rewrite Hpar. simpl.
  rewrite Hc. simpl.
  destruct (state_ c) as [st|] eqn:Hst.
  - destruct (StartCancel_total fuel this h Hcl (mk_is_Some _ _ Hc) Hfuel) as (log & h1 & E).
    rewrite E. simpl. exists log, (delete this h1).
    destruct (StartCancel_post _ _ _ _ _ E) as [Hp Hthis].
    split_and!; [done|apply lookup_delete_eq| |].
    + intros x Hne. rewrite lookup_delete_ne by done. by apply pass_post_dom with log.
    + destruct (decide (manager_state c = Idle)) as [Hs|Hs].
      * rewrite decide_True by eauto.
        destruct (Hthis c Hc Hs) as (c0 & Hc0 & _ & _ & Hl).
        rewrite Hc in Hc0. injection Hc0 as <-. split.
        -- rewrite Hl. apply NoDup_invocations.
        -- intros token cb.
           pose proof (elem_of_invocations this (registry c) this token cb) as Hin.
           rewrite <- Hl, elem_of_by_manager in Hin. simpl in Hin. tauto.
      * rewrite decide_False by tauto.
        destruct fuel as [|fuel]; [lia|].
        rewrite (StartCancel_not_Idle _ _ _ _ Hc Hs) in E. by injection E as <- <-.
  - exists [], (delete this h). split_and!; [done|apply lookup_delete_eq| |].
    + intros x Hne. by rewrite lookup_delete_ne.
    + rewrite decide_False; [done|]. intros [_ []]. done.
Qed.

(** X6. Deleting a child whose parent is already cancelled: the
    deregistration returns false without waiting and without writing
    the parent, the destructor then runs the pass of the child if its
    state block exists, and the parent is the same afterwards. *)
Theorem destructor_after_parent_cancelled fuel this parent
    (h : gmap nat CancellationManager) c p :
  h !! this = Some c → parent_ c = Some parent → h !! parent = Some p →
  manager_state p = Cancelled → this ≠ parent →
  closed h → size (idle_managers h) < fuel →
  DeregisterCallback parent (parent_token_ c) h = Done (false, h) ∧
  ∃ log h1,
    match state_ c with
    | Some _ => StartCancel fuel this h
    | None => Done ([], h)
    end = Done (log, h1) ∧
    delete_CancellationManager fuel this h = Done (log, delete this h1) ∧
    delete this h1 !! parent = Some p ∧
    by_manager parent log = [].
Proof.
  intros Hc Hpar Hp Hs Hne Hcl Hfuel.
  assert (DeregisterCallback parent (parent_token_ c) h = Done (false, h)) as Hd.
  { unfold DeregisterCallback, deref, DeregisterCallback_locked. rewrite Hp. simpl.
    apply manager_state_Cancelled in Hs. rewrite Hs. by rewrite insert_id. }
  split; [done|].
  assert (∃ log h1,
            match state_ c with
            | Some _ => StartCancel fuel this h
            | None => Done ([], h)
            end = Done (log, h1) ∧ pass_post h log h1) as (log & h1 & E & Hpp).
  { destruct (state_ c).
    - destruct (StartCancel_total fuel this h Hcl (mk_is_Some _ _ Hc) Hfuel) as (log & h1 & E).
      exists log, h1. split; [done|]. by apply StartCancel_post in E as [? _].
    - exists [], h. split; [done|apply pass_post_refl]. }
  exists log, h1.
  destruct (pass_post_not_Idle _ _ _ _ _ Hpp Hp) as [Hp1 Hl]; [congruence|].
  split_and!; [done| | |done].
  - unfold delete_CancellationManager, deref. rewrite Hc. simpl. rewrite Hpar. simpl.
    rewrite Hd. simpl. rewrite Hc. simpl. destruct (state_ c); by rewrite E.
  - by rewrite lookup_delete_ne.
Qed.

(** ** Further invariants of the interleaving semantics *)

Section MoreInvariants.
Variable dcheck_is_on : bool.

(** Induction on the executions, one step of one frame at a time, with
    the invariant at hand. *)
Lemma reachable_frames_ind
    (P : gmap nat CancellationManager → list Frame → list Event → Prop) :
  (∀ h frames frames' trace, frames ≡ₚ frames' → P h frames trace → P h frames' trace) →
  (∀ programs, P ∅ (frames_of (initial programs)) []) →
  (∀ h f rest trace fs h1 events,
     invariant h (f :: rest) trace → P h (f :: rest) trace →
     frame_step dcheck_is_on f h = Some (fs, h1, events) →
     P h1 (fs ++ rest) (trace ++ events)) →
  ∀ c, reachable dcheck_is_on c → P (cfg_heap c) (frames_of c) (cfg_trace c).
Proof.
  intros Hperm Hinit Hstep c Hreach.
  assert (invariant (cfg_heap c) (frames_of c) (cfg_trace c) ∧
          P (cfg_heap c) (frames_of c) (cfg_trace c)) as [_ ?]; [|done].
  destruct Hreach as [programs Hsteps]. revert c Hsteps. apply rtc_ind_r.
  - split; [apply invariant_initial|apply Hinit].
  - intros c1 c2 _ [tid Hs] [Hinv IH]. split; [by eapply thread_step_invariant|].
    unfold thread_step in Hs.
    destruct (cfg_threads c1 !! tid) as [[|f stack]|] eqn:Hl; try done.
    destruct (frame_step dcheck_is_on f (cfg_heap c1)) as [[[fs h1] events]|] eqn:Hf;
      [|done].
    simpl in Hs. injection Hs as <-. unfold frames_of in *. simpl.
    destruct (frames_of_step _ _ _ _ fs Hl) as (rest & Hp1 & Hp2).
    eapply Hperm; [symmetry; exact Hp2|].
    eapply Hstep; [| |done].
    + by eapply invariant_perm.
    + by eapply Hperm.
Qed.

(** X7. Whatever the threads do, a manager that left the idle state has an
    empty registry, its two flags are never set together, and its
    notification is signalled only once it is cancelled. *)
Theorem registry_is_empty_once_cancelling c this m :
  reachable dcheck_is_on c →
  cfg_heap c !! this = Some m →
  (manager_state m ≠ Idle → registry m = ∅) ∧
  is_cancelling_ m && is_cancelled_ m = false ∧
  (notified m = true → IsCancelled m = true ∧ is_cancelling_ m = false).
Proof.
  intros Hreach Hm.
  destruct (reachable_invariant dcheck_is_on c Hreach) as [_ Hms _].
  destruct (Hms this m Hm) as [Hflags _ Hnot Hdr _ _ _ _].
  split_and!.
  - done.
  - destruct (is_cancelling_ m); [|done]. by rewrite Hflags.
  - intros Hn. specialize (Hnot Hn). unfold manager_state, IsCancelled in *.
    destruct (is_cancelled_ m) eqn:E1, (is_cancelling_ m) eqn:E2; try done.
    by specialize (Hflags eq_refl).
Qed.

(** X8. A token that a manager issued can be used to register at any later
    time: the manager exists, the [DCHECK_LT] of [RegisterCallback]
    holds, and the call returns true exactly when the manager is idle. *)
Theorem issued_token_can_be_registered c this token callback :
  reachable dcheck_is_on c →
  token ∈ tokens_issued this (cfg_trace c) →
  ∃ m registered m',
    cfg_heap c !! this = Some m ∧
    (token < next_cancellation_token_ m)%Z ∧
    RegisterCallback dcheck_is_on token callback m = Some (registered, m') ∧
    (registered = true ↔ manager_state m = Idle) ∧
    is_Some (frame_step dcheck_is_on
               (AtCall (OpRegisterCallback this token callback)) (cfg_heap c)).
Proof.
  intros Hreach Hin.
  destruct (reachable_invariant dcheck_is_on c Hreach) as [_ Hms Habs].
  destruct (cfg_heap c !! this) as [m|] eqn:Hm.
  2: { destruct (Habs this Hm) as (_ & _ & _ & E). rewrite E in Hin.
       by apply elem_of_nil in Hin. }
  destruct (Hms this m Hm) as [_ _ _ _ _ _ _ Hiss].
  rewrite Forall_forall in Hiss. specialize (Hiss token Hin).
  assert (DCHECK_LT dcheck_is_on token (next_cancellation_token_ m) = true) as Hd.
  { unfold DCHECK_LT. rewrite bool_decide_true by done. by destruct dcheck_is_on. }
  assert (∃ registered m', RegisterCallback dcheck_is_on token callback m
                           = Some (registered, m') ∧
                           (registered = true ↔ manager_state m = Idle))
    as (registered & m' & E & Hiff).
  { unfold RegisterCallback, manager_state. rewrite Hd.
    destruct (is_cancelled_ m), (is_cancelling_ m); simpl; eexists _, _;
      (split; [reflexivity|]); split; done. }
  exists m, registered, m'. split_and!; try done.
  simpl. rewrite Hm. simpl. rewrite E. simpl. eauto.
Qed.

(** Only [get_cancellation_token] moves the counter. *)
Lemma counter_DeregisterCallback_locked token m d m1 :
  DeregisterCallback_locked token m = (d, m1) →
  next_cancellation_token_ m1 = next_cancellation_token_ m.
Proof.
  unfold DeregisterCallback_locked, erase.
  destruct (is_cancelled_ m), (is_cancelling_ m), (state_ m); intros [= <- <-]; done.
Qed.

Lemma counter_TryDeregisterCallback token m b m1 :
  TryDeregisterCallback token m = (b, m1) →
  next_cancellation_token_ m1 = next_cancellation_token_ m.
Proof.
  unfold TryDeregisterCallback, erase.
  destruct (is_cancelled_ m), (is_cancelling_ m), (state_ m); intros [= <- <-]; done.
Qed.

Lemma counter_StartCancel_acquire m m1 cbs n :
  StartCancel_acquire m = Some (m1, cbs, n) →
  next_cancellation_token_ m1 = next_cancellation_token_ m.
Proof.
  unfold StartCancel_acquire.
  destruct (is_cancelled_ m), (is_cancelling_ m), (state_ m) eqn:E; simpl;
    rewrite ?E; intros [= <- <- <-]; done.
Qed.

Lemma counter_Notify m :
  next_cancellation_token_ (Notify m) = next_cancellation_token_ m.
Proof. unfold Notify. by destruct (state_ m). Qed.

Lemma tokens_issued_callback_returned x this running :
  tokens_issued x (callback_returned this running) = [].
Proof. by destruct running. Qed.

(** What a step does to the counter of a manager and to the tokens the
    trace shows for it. *)
Lemma frame_step_tokens (h : gmap nat CancellationManager) f fs h' events x :
  frame_step dcheck_is_on f h = Some (fs, h', events) →
  match h !! x with
  | Some m =>
      ∃ m', h' !! x = Some m' ∧
        (tokens_issued x events = [] ∧
         next_cancellation_token_ m' = next_cancellation_token_ m ∨
         tokens_issued x events = [next_cancellation_token_ m] ∧
         next_cancellation_token_ m' = (next_cancellation_token_ m + 1)%Z)
  | None =>
      tokens_issued x events = [] ∧
      ∀ m', h' !! x = Some m' → next_cancellation_token_ m' = 0%Z
  end.
Proof.
  intros Hstep.
  pose proof (proj1 (not_elem_of_dom h _) (is_fresh (dom h))) as Hfresh.
  frame_cases f Hstep.
  all: repeat match goal with
       | H : RegisterCallback _ _ _ _ = Some _ |- _ =>
           apply RegisterCallback_keeps in H as [_ ?]
       | H : DeregisterCallback_locked _ _ = _ |- _ =>
           apply counter_DeregisterCallback_locked in H
       | H : TryDeregisterCallback _ _ = _ |- _ =>
           apply counter_TryDeregisterCallback in H
       | H : StartCancel_acquire _ = Some _ |- _ =>
           apply counter_StartCancel_acquire in H
       end.
  all: rewrite ?tokens_issued_app, ?tokens_issued_callback_returned;
       unfold tokens_issued; simpl.
  all: repeat match goal with
       | |- context [<[?y := _]> _ !! ?z] =>
           destruct (decide (y = z)) as [<-|?];
           [rewrite lookup_insert_eq|rewrite lookup_insert_ne by done]
       end.
  all: repeat match goal with
       | H : ?h !! ?y = _ |- context [?h !! ?y] => rewrite H
       end.
  all: repeat case_decide; try done.
  all: try (destruct (h !! x) as [m|] eqn:Hx).
  all: try (eexists; split; [reflexivity|]; simpl; rewrite ?counter_Notify; auto; fail).
  all: try (split; [done|]; intros ? [= <-]; by destruct (negb _)).
  all: try (split; [done|]; by intros ? [=]).
  split; [done|]. by intros ? [= <-].
Qed.

(** X9. The tokens a manager issued are 0, 1, 2, ... in this order, as many
    as its counter says: the default constructor and the constructor of a
    child start the counter at 0 and no member function of
    cancellation.cc writes it.  So [kInvalidToken] is never issued, though
    the [DCHECK_LT] of [RegisterCallback] would let it pass. *)
Theorem kInvalidToken_is_never_issued c this m :
  reachable dcheck_is_on c →
  cfg_heap c !! this = Some m →
  tokens_issued this (cfg_trace c) = seqZ 0 (next_cancellation_token_ m) ∧
  (kInvalidToken ∉ tokens_issued this (cfg_trace c)) ∧
  (get_cancellation_token m).1 ≠ kInvalidToken ∧
  DCHECK_LT dcheck_is_on kInvalidToken (next_cancellation_token_ m) = true.
Proof.
  intros Hreach Hm.
  assert ((0 ≤ next_cancellation_token_ m)%Z ∧
          tokens_issued this (cfg_trace c) = seqZ 0 (next_cancellation_token_ m))
    as [Hpos Heq].
  { revert this m Hm.
    apply (reachable_frames_ind
             (λ h _ trace, ∀ x m, h !! x = Some m →
                (0 ≤ next_cancellation_token_ m)%Z ∧
                tokens_issued x trace = seqZ 0 (next_cancellation_token_ m)));
      [done|done| |done].
    intros h f rest trace fs h1 events Hinv IH Hstep x m' Hx.
    pose proof (frame_step_tokens h f fs h1 events x Hstep) as Ht.
    rewrite tokens_issued_app.
    destruct (h !! x) as [m|] eqn:Hm.
    - destruct Ht as (m'' & Hx' & Ht). rewrite Hx in Hx'. injection Hx' as <-.
      destruct (IH x m Hm) as [Hpos Heq].
      destruct Ht as [[-> ->]|[-> ->]].
      + by rewrite app_nil_r.
      + split; [lia|]. rewrite seqZ_app by lia. rewrite Heq. f_equal.
    - destruct Ht as [-> Hz]. rewrite (Hz m' Hx).
      destruct (inv_absent _ _ _ Hinv x Hm) as (_ & _ & _ & ->). done. }
  split_and!.
  - done.
  - rewrite Heq. intros Hin%elem_of_seqZ. unfold kInvalidToken in Hin. lia.
  - simpl. unfold kInvalidToken. lia.
  - unfold DCHECK_LT, kInvalidToken. rewrite bool_decide_true by lia.
    by destruct dcheck_is_on.
Qed.


(** The [DCHECK_LT] of [RegisterCallback] holds of a token the manager
    issued. *)
Lemma issued_token_DCHECK_LT c this token :
  reachable dcheck_is_on c →
  token ∈ tokens_issued this (cfg_trace c) →
  ∃ m, cfg_heap c !! this = Some m ∧
       (token < next_cancellation_token_ m)%Z ∧
       DCHECK_LT dcheck_is_on token (next_cancellation_token_ m) = true.
Proof.
  intros Hreach Hin.
  destruct (reachable_invariant dcheck_is_on c Hreach) as [_ Hms Habs].
  destruct (cfg_heap c !! this) as [m|] eqn:Hm.
  2: { destruct (Habs this Hm) as (_ & _ & _ & E). rewrite E in Hin.
       by apply elem_of_nil in Hin. }
  destruct (Hms this m Hm) as [_ _ _ _ _ _ _ Hiss].
  rewrite Forall_forall in Hiss. specialize (Hiss token Hin).
  exists m. split_and!; [done..|].
  unfold DCHECK_LT. rewrite bool_decide_true by done. by destruct dcheck_is_on.
Qed.

Lemma RegisterCallback_returns token callback m :
  DCHECK_LT dcheck_is_on token (next_cancellation_token_ m) = true →
  ∃ registered m',
    RegisterCallback dcheck_is_on token callback m = Some (registered, m') ∧
    (registered = true ↔ manager_state m = Idle).
Proof.
  intros Hd. unfold RegisterCallback, manager_state. rewrite Hd.
  destruct (is_cancelled_ m), (is_cancelling_ m); simpl; eexists _, _;
    (split; [reflexivity|]); split; done.
Qed.

Lemma frame_step_constructor (h : gmap nat CancellationManager) f fs h' events p t :
  frame_step dcheck_is_on f h = Some (fs, h', events) →
  InConstructor p t ∈ fs → t ∈ tokens_issued p events.
Proof.
  intros Hstep Hin. frame_cases f Hstep.
  all: repeat match goal with
       | H : _ ∈ [] |- _ => by apply elem_of_nil in H
       | H : _ ∈ _ :: _ |- _ => apply elem_of_cons in H as [H|H]
       | H : _ ∈ (if ?b then _ else _) |- _ => destruct b
       | H : InConstructor _ _ = enter_callback ?cb |- _ => by destruct cb
       end; try done.
  injection Hin as -> ->. unfold tokens_issued. simpl.
  rewrite decide_True by done. apply list_elem_of_singleton. done.
Qed.

Lemma reachable_constructor_ok c :
  reachable dcheck_is_on c → Forall (constructor_ok (cfg_trace c)) (frames_of c).
Proof.
  apply (reachable_frames_ind (λ _ frames trace, Forall (constructor_ok trace) frames)).
  - intros _ frames frames' trace Hp. by rewrite Hp.
  - intros programs. unfold frames_of, initial. simpl.
    apply Forall_forall. intros f Hin. apply list_elem_of_In, in_concat in Hin.
    destruct Hin as (l & Hl & Hf). apply in_map_iff in Hl as (ops & <- & _).
    apply in_map_iff in Hf as (op & <- & _). done.
  - intros h f rest trace fs h1 events _ IH Hstep.
    apply Forall_cons in IH as [_ IH]. apply Forall_app. split.
    + apply Forall_forall. intros [| p t | | | |] Hin; try done. simpl.
      rewrite tokens_issued_app, elem_of_app. right.
      by eapply frame_step_constructor.
    + eapply Forall_impl; [done|]. intros [| p t | | | |]; try done. simpl.
      rewrite tokens_issued_app, elem_of_app. auto.
Qed.

(** X10. Between the initialisation of [parent_token_] (line 36) and the
    call of [RegisterCallback] (line 37) in the constructor of a child,
    other threads may take tokens of the parent, register on it and
    cancel it.  Whatever they do, as long as the parent is alive, which
    the caller of the constructor has to ensure, [parent_token_] is a
    token the parent issued and is below its counter: the [DCHECK_LT] of
    the registration holds, the registration returns true exactly when
    the parent is still idle, and the constructor completes. *)
Theorem constructor_registration_never_aborts c parent parent_token p callback :
  reachable dcheck_is_on c →
  InConstructor parent parent_token ∈ frames_of c →
  cfg_heap c !! parent = Some p →
  parent_token ∈ tokens_issued parent (cfg_trace c) ∧
  (parent_token < next_cancellation_token_ p)%Z ∧
  DCHECK_LT dcheck_is_on parent_token (next_cancellation_token_ p) = true ∧
  (∃ registered p',
     RegisterCallback dcheck_is_on parent_token callback p = Some (registered, p') ∧
     (registered = true ↔ manager_state p = Idle)) ∧
  ∃ p' child,
    frame_step dcheck_is_on (InConstructor parent parent_token) (cfg_heap c) =
      Some ([], <[fresh (dom (cfg_heap c)) := child]> (<[parent := p']> (cfg_heap c)),
            [EvReturn (OpNewChild parent) (VAddr (fresh (dom (cfg_heap c))))]) ∧
    parent_ child = Some parent ∧ parent_token_ child = parent_token ∧
    (manager_state child = Idle ↔ manager_state p = Idle).
Proof.
  intros Hreach Hin Hp.
  pose proof (reachable_constructor_ok c Hreach) as Hok.
  rewrite Forall_forall in Hok. specialize (Hok _ Hin). simpl in Hok.
  destruct (issued_token_DCHECK_LT c parent parent_token Hreach Hok)
    as (p0 & Hp0 & Hlt & Hd).
  rewrite Hp in Hp0. injection Hp0 as <-.
  split_and!; try done.
  - by apply RegisterCallback_returns.
  - destruct (RegisterCallback_returns parent_token
                (ChildStartCancel (fresh (dom (cfg_heap c)))) p Hd)
      as (registered & p' & E & Hiff).
    exists p'. eexists. simpl. rewrite Hp. simpl. rewrite E. simpl.
    split; [reflexivity|]. rewrite <- Hiff.
    destruct registered; simpl; split_and!; try done.
Qed.


Lemma registered_in_app_l trace events this token callback :
  registered_in trace this token callback →
  registered_in (trace ++ events) this token callback.
Proof.
  intros [H|(child & -> & H)]; [left|right; exists child; split; [done|]];
    apply elem_of_app; auto.
Qed.

Lemma registered_in_app_r trace events this token callback :
  registered_in events this token callback →
  registered_in (trace ++ events) this token callback.
Proof.
  intros [H|(child & -> & H)]; [left|right; exists child; split; [done|]];
    apply elem_of_app; auto.
Qed.

Lemma RegisterCallback_registry token callback m registered m' :
  RegisterCallback dcheck_is_on token callback m = Some (registered, m') →
  registry m' = if registered then <[token := callback]> (registry m) else registry m.
Proof.
  unfold RegisterCallback, registry.
  destruct (DCHECK_LT _ _ _); [|done].
  destruct (is_cancelled_ m), (is_cancelling_ m), (state_ m) eqn:E; simpl;
    intros [= <- <-]; simpl; rewrite ?E; done.
Qed.

Lemma registry_DeregisterCallback_locked token m d m1 t cb :
  DeregisterCallback_locked token m = (d, m1) →
  registry m1 !! t = Some cb → registry m !! t = Some cb.
Proof.
  unfold DeregisterCallback_locked.
  destruct (is_cancelled_ m), (is_cancelling_ m), (state_ m) eqn:E;
    intros [= <- <-]; try done.
  all: rewrite registry_erase; by intros [_ ?]%lookup_delete_Some.
Qed.

Lemma registry_TryDeregisterCallback token m b m1 t cb :
  TryDeregisterCallback token m = (b, m1) →
  registry m1 !! t = Some cb → registry m !! t = Some cb.
Proof.
  unfold TryDeregisterCallback.
  destruct (is_cancelled_ m), (is_cancelling_ m); simpl; intros [= <- <-]; try done.
  rewrite registry_erase; by intros [_ ?]%lookup_delete_Some.
Qed.

Lemma StartCancel_acquire_registry m m1 cbs n :
  StartCancel_acquire m = Some (m1, cbs, n) →
  cbs = registry m ∧ registry m1 = ∅.
Proof.
  intros H.
  destruct (decide (manager_state m = Idle)) as [Hs|Hs].
  - destruct (StartCancel_acquire_Some m Hs) as (m1' & E & _ & Hr & _).
    rewrite E in H. by injection H as <- <- <-.
  - apply StartCancel_acquire_None in Hs. congruence.
Qed.

Lemma registry_StartCancel_release m :
  registry (StartCancel_release m) = registry m.
Proof. reflexivity. Qed.

Lemma registry_Notify m : registry (Notify m) = registry m.
Proof. unfold Notify, registry. by destruct (state_ m) eqn:E; simpl; rewrite ?E. Qed.

Lemma RegisterCallback_DCHECK_LT token callback m registered m' :
  RegisterCallback dcheck_is_on token callback m = Some (registered, m') →
  DCHECK_LT dcheck_is_on token (next_cancellation_token_ m) = true.
Proof. unfold RegisterCallback. by destruct (DCHECK_LT _ _ _). Qed.

(** An entry that a step leaves in a registry was there before, or the
    step registered it, past the [DCHECK_LT]. *)
Lemma frame_step_registry (h : gmap nat CancellationManager) f fs h' events x m' t cb :
  frame_step dcheck_is_on f h = Some (fs, h', events) →
  h' !! x = Some m' → registry m' !! t = Some cb →
  (∃ m, h !! x = Some m ∧ registry m !! t = Some cb) ∨
  (registered_in events x t cb ∧
   ∃ m, h !! x = Some m ∧
        DCHECK_LT dcheck_is_on t (next_cancellation_token_ m) = true).
Proof.
  intros Hstep Hx Hr. frame_cases f Hstep.
  all: repeat match goal with
       | H : <[?y := _]> _ !! ?z = Some _ |- _ =>
           destruct (decide (y = z)) as [<-|?];
           [rewrite lookup_insert_eq in H; injection H as <-
           |rewrite lookup_insert_ne in H by done]
       end.
  all: try (left; eexists; split; [eassumption|]; eassumption).
  all: try (left; eexists; split; [eassumption|];
            rewrite ?registry_StartCancel_release, ?registry_Notify in Hr;
            eauto using registry_DeregisterCallback_locked,
              registry_TryDeregisterCallback; fail).
  all: try (apply StartCancel_acquire_registry in Hacquire as [_ E];
            rewrite E in Hr; done).
  all: try (destruct (negb _); done).
  all: try (unfold registry in Hr; simpl in Hr; by rewrite lookup_empty in Hr).
  all: pose proof (RegisterCallback_DCHECK_LT _ _ _ _ _ Hregister) as Hd.
  all: apply RegisterCallback_registry in Hregister; rewrite Hregister in Hr.
  all: match goal with
       | H : registry (if ?b then _ else _) !! _ = _ |- _ => destruct b
       | H : (if ?b then _ else _) !! _ = _ |- _ => destruct b
       end.
  all: try (left; eexists; split; [eassumption|]; eassumption).
  all: apply lookup_insert_Some in Hr as [[<- <-]|[_ Hr]];
       [|left; eexists; split; [eassumption|]; eassumption].
  - right. split; [|by eauto]. left. apply list_elem_of_singleton. done.
  - right. split; [|by eauto]. right. eexists. split; [done|].
    apply list_elem_of_singleton. done.
Qed.

(** A pass captures the registry of its manager. *)
Lemma frame_step_passes (h : gmap nat CancellationManager) f fs h' events x cbs :
  frame_step dcheck_is_on f h = Some (fs, h', events) →
  cbs ∈ passes_started x events →
  ∃ m, h !! x = Some m ∧ cbs = registry m.
Proof.
  intros Hstep Hin. frame_cases f Hstep.
  all: rewrite ?passes_started_app in Hin.
  all: try (destruct running); unfold passes_started in Hin; simpl in Hin.
  all: repeat case_decide; subst.
  all: repeat match goal with
       | H : _ ∈ [] |- _ => by apply elem_of_nil in H
       | H : _ ∈ [_] |- _ => apply list_elem_of_singleton in H
       end; subst.
  apply StartCancel_acquire_registry in Hacquire as [-> _]. eauto.
Qed.

Lemma reachable_registered c :
  reachable dcheck_is_on c →
  (∀ x m t cb, cfg_heap c !! x = Some m → registry m !! t = Some cb →
               registered_in (cfg_trace c) x t cb) ∧
  (∀ x cbs t cb, cbs ∈ passes_started x (cfg_trace c) → cbs !! t = Some cb →
                 registered_in (cfg_trace c) x t cb).
Proof.
  apply (reachable_frames_ind
           (λ h _ trace,
              (∀ x m t cb, h !! x = Some m → registry m !! t = Some cb →
                           registered_in trace x t cb) ∧
              (∀ x cbs t cb, cbs ∈ passes_started x trace → cbs !! t = Some cb →
                             registered_in trace x t cb))).
  - done.
  - intros programs. split; [done|]. intros x cbs t cb Hin. by apply elem_of_nil in Hin.
  - intros h f rest trace fs h1 events _ [IH1 IH2] Hstep. split.
    + intros x m' t cb Hx Hr.
      destruct (frame_step_registry h f fs h1 events x m' t cb Hstep Hx Hr)
        as [(m & Hm & Hr')|[Hreg _]].
      * apply registered_in_app_l. eauto.
      * by apply registered_in_app_r.
    + intros x cbs t cb Hin Hcb. rewrite passes_started_app in Hin.
      apply elem_of_app in Hin as [Hin|Hin].
      * apply registered_in_app_l. eauto.
      * destruct (frame_step_passes h f fs h1 events x cbs Hstep Hin) as (m & Hm & ->).
        apply registered_in_app_l. eauto.
Qed.

(** X11. [StartCancel] calls nothing but what was registered: every callback
    a pass called was stored by a [RegisterCallback] on that manager that
    returned true under that token, or is the lambda of a child that was
    constructed with that manager as its parent. *)
Theorem only_registered_callbacks_are_called c this token callback :
  reachable dcheck_is_on c →
  (token, callback) ∈ invoked this (cfg_trace c) →
  registered_in (cfg_trace c) this token callback.
Proof.
  intros Hreach Hin.
  destruct (reachable_invariant dcheck_is_on c Hreach) as [_ _ Habs].
  destruct (cfg_heap c !! this) as [m|] eqn:Hm.
  2: { destruct (Habs this Hm) as (_ & E & _). rewrite E in Hin.
       by apply elem_of_nil in Hin. }
  pose proof (one_pass_per_manager dcheck_is_on c this m Hreach Hm) as Hone.
  destruct (reachable_registered c Hreach) as [_ Hpass].
  destruct (passes_started this (cfg_trace c)) as [|cbs [|]] eqn:Hp; [| |done].
  - destruct Hone as [E _]. rewrite E in Hin. by apply elem_of_nil in Hin.
  - destruct Hone as (_ & [k Hpre] & _).
    apply (Hpass this cbs); [rewrite Hp; apply list_elem_of_singleton; done|].
    apply elem_of_map_to_list. rewrite Hpre. apply elem_of_app. auto.
Qed.


(** The critical sections that take [mu_] once leave a manager that is
    not idle as it is. *)
Lemma not_Idle_unchanged m :
  manager_state m ≠ Idle →
  (∀ token callback registered m1,
     RegisterCallback dcheck_is_on token callback m = Some (registered, m1) → m1 = m) ∧
  (∀ token d m1, DeregisterCallback_locked token m = (d, m1) → m1 = m) ∧
  (∀ token b m1, TryDeregisterCallback token m = (b, m1) → m1 = m).
Proof.
  unfold manager_state, RegisterCallback, DeregisterCallback_locked,
    TryDeregisterCallback.
  intros Hs. split_and!; intros *.
  - destruct (DCHECK_LT _ _ _); [|done].
    destruct (is_cancelled_ m), (is_cancelling_ m); simpl; by intros [= <- <-].
  - destruct (is_cancelled_ m), (is_cancelling_ m), (state_ m); simpl;
      by intros [= <- <-].
  - destruct (is_cancelled_ m), (is_cancelling_ m); simpl; by intros [= <- <-].
Qed.

(** Once a manager has left the idle state, its [State] changes only by
    the [Notify] of line 72. *)
Lemma frame_step_state_block (h : gmap nat CancellationManager) f fs h' events x m :
  frame_step dcheck_is_on f h = Some (fs, h', events) →
  h !! x = Some m → manager_state m ≠ Idle →
  ∃ m', h' !! x = Some m' ∧
        (state_ m' = state_ m ∨ f = AtNotify x ∧ m' = Notify m).
Proof.
  intros Hstep Hx Hs.
  pose proof (proj1 (not_elem_of_dom h _) (is_fresh (dom h))) as Hfresh.
  destruct (not_Idle_unchanged m Hs) as (Hreg & Hder & Htry).
  frame_cases f Hstep.
  all: repeat match goal with
       | |- context [<[?y := _]> _ !! ?z] =>
           destruct (decide (y = z)) as [<-|?];
           [rewrite lookup_insert_eq|rewrite lookup_insert_ne by done]
       end.
  all: try (eexists; split; [eassumption|]; left; reflexivity).
  all: try congruence.
  all: rewrite Hx in *; simplify_eq.
  all: try (eexists; split; [reflexivity|]; auto; fail).
  all: eexists; split; [reflexivity|]; left.
  all: try (apply StartCancel_acquire_None in Hs; congruence).
  all: f_equal; eauto.
Qed.

Lemma notified_Notify m : is_Some (state_ (Notify m)) → notified (Notify m) = true.
Proof.
  unfold Notify, notified. destruct (state_ m) eqn:E; simpl; rewrite ?E; [done|].
  by intros [].
Qed.

(** A manager is born without a [State]. *)
Lemma frame_step_born (h : gmap nat CancellationManager) f fs h' events x m' :
  frame_step dcheck_is_on f h = Some (fs, h', events) →
  h !! x = None → h' !! x = Some m' → state_ m' = None.
Proof.
  intros Hstep Hx Hx'. frame_cases f Hstep.
  all: repeat match goal with
       | H : <[?y := _]> _ !! ?z = Some _ |- _ =>
           destruct (decide (y = z)) as [<-|?];
           [rewrite lookup_insert_eq in H; injection H as <-
           |rewrite lookup_insert_ne in H by done]
       end.
  all: try congruence.
  all: try done.
  by destruct (negb _).
Qed.

(** Who waits was told to: the step that starts a wait found the manager
    cancelling with a [State]. *)
Lemma frame_step_waiter (h : gmap nat CancellationManager) f fs h' events x token :
  frame_step dcheck_is_on f h = Some (fs, h', events) →
  AtWaitForNotification x token ∈ fs →
  ∃ m, h !! x = Some m ∧ manager_state m = Cancelling ∧ is_Some (state_ m).
Proof.
  intros Hstep Hin. frame_cases f Hstep.
  all: repeat match goal with
       | H : _ ∈ [] |- _ => by apply elem_of_nil in H
       | H : _ ∈ _ :: _ |- _ => apply elem_of_cons in H as [H|H]
       | H : _ ∈ (if ?b then _ else _) |- _ => destruct b
       | H : AtWaitForNotification _ _ = enter_callback ?cb |- _ => by destruct cb
       end; try done.
  injection Hin as -> ->. eexists. split; [done|].
  unfold DeregisterCallback_locked, manager_state in *.
  destruct (is_cancelled_ c), (is_cancelling_ c), (state_ c); try done.
  all: by eauto.
Qed.

Lemma reachable_waiter_ok c :
  reachable dcheck_is_on c →
  Forall (waiter_ok (cfg_heap c)) (frames_of c) ∧
  will_notify (cfg_heap c) (frames_of c).
Proof.
  apply (reachable_frames_ind
           (λ h frames _, Forall (waiter_ok h) frames ∧ will_notify h frames)).
  - intros h frames frames' _ Hp [H1 H2]. split; [by rewrite <-Hp|].
    intros x m Hx Hs Hst. destruct (H2 x m Hx Hs Hst); [auto|right]. by rewrite <-Hp.
  - intros programs. split; [|done].
    unfold frames_of, initial. simpl.
    apply Forall_forall. intros f Hin. apply list_elem_of_In, in_concat in Hin.
    destruct Hin as (l & Hl & Hf). apply in_map_iff in Hl as (ops & <- & _).
    apply in_map_iff in Hf as (op & <- & _). done.
  - intros h f rest trace fs h1 events Hinv [IH1 IH2] Hstep. split.
    + apply Forall_cons in IH1 as [_ IH1]. apply Forall_app. split.
      * apply Forall_forall. intros [| | | | |x token] Hin; try done. simpl.
        destruct (frame_step_waiter h f fs h1 events x token Hstep Hin)
          as (m & Hm & Hs & Hst).
        assert (manager_state m ≠ Idle) as Hni by congruence.
        destruct (frame_step_state_block h f fs h1 events x m Hstep Hm Hni)
          as (m' & Hm' & Hblock).
        destruct (frame_step_states dcheck_is_on h f fs h1 events x m Hstep Hm)
          as (m'' & Hm'' & Hstates).
        rewrite Hm' in Hm''. injection Hm'' as <-.
        exists m'. split_and!; [done| |].
        -- destruct Hstates as [E|[(_ & E & _)|(? & ? & _ & ->)]]; [congruence..|].
           done.
        -- destruct Hblock as [->|[_ ->]]; [done|].
           unfold Notify. destruct (state_ m); [by eauto|done].
      * eapply Forall_impl; [done|]. intros [| | | | |x token]; try done. simpl.
        intros (m & Hm & Hni & Hst).
        destruct (frame_step_state_block h f fs h1 events x m Hstep Hm Hni)
          as (m' & Hm' & Hblock).
        destruct (frame_step_states dcheck_is_on h f fs h1 events x m Hstep Hm)
          as (m'' & Hm'' & Hstates).
        rewrite Hm' in Hm''. injection Hm'' as <-.
        exists m'. split_and!; [done| |].
        -- destruct Hstates as [E|[(_ & E & _)|(? & ? & _ & ->)]]; [congruence..|].
           done.
        -- destruct Hblock as [->|[_ ->]]; [done|].
           unfold Notify. destruct (state_ m); [by eauto|done].
    + intros x m' Hx' Hs' Hst'.
      destruct (h !! x) as [m|] eqn:Hx.
      2: { rewrite (frame_step_born h f fs h1 events x m' Hstep Hx Hx') in Hst'.
           by destruct Hst'. }
      destruct (frame_step_states dcheck_is_on h f fs h1 events x m Hstep Hx)
        as (m'' & Hm'' & Hstates).
      rewrite Hx' in Hm''. injection Hm'' as <-.
      destruct Hstates as [E|[(_ & _ & E)|(running & n & -> & ->)]];
        [|congruence|].
      * assert (manager_state m ≠ Idle) as Hni by congruence.
        destruct (frame_step_state_block h f fs h1 events x m Hstep Hx Hni)
          as (m'' & Hm'' & Hblock).
        rewrite Hx' in Hm''. injection Hm'' as <-.
        destruct Hblock as [Hsame|[-> ->]].
        -- destruct (IH2 x m Hx) as [Hn|Hn]; [congruence|congruence| |].
           ++ left. unfold notified in *. by rewrite Hsame.
           ++ apply elem_of_cons in Hn as [<-|Hn].
              ** simpl in Hstep. rewrite Hx in Hstep. simpl in Hstep.
                 injection Hstep as <- <- <-.
                 rewrite lookup_insert_eq in Hx'. injection Hx' as <-.
                 left. by apply notified_Notify.
              ** right. apply elem_of_app. auto.
        -- left. by apply notified_Notify.
      * pose proof (inv_frames _ _ _ Hinv) as Hfr.
        apply Forall_cons in Hfr as [Hf _].
        destruct Hf as (m0 & cbs & Hm0 & _ & Hn & _).
        rewrite Hx in Hm0. injection Hm0 as <-.
        simpl in Hstep. rewrite Hx in Hstep. simpl in Hstep.
        injection Hstep as <- <- <-.
        simpl in Hst'. rewrite Hn, bool_decide_true by done.
        right. apply elem_of_app. left. apply list_elem_of_singleton. done.
Qed.

(** X12. No wake-up is lost.  Whenever a thread waits in [DeregisterCallback]
    (line 104), the notification it waits for is already set and it can
    return, or the thread that runs the pass has not yet reached the
    [Notify] of line 72, and will signal it: it is in the loop with a
    non-null [cancelled_notification], or between the second critical
    section and the [Notify]. *)
Theorem waiter_is_always_notified c this token :
  reachable dcheck_is_on c →
  AtWaitForNotification this token ∈ frames_of c →
  ∃ m, cfg_heap c !! this = Some m ∧ manager_state m ≠ Idle ∧
       if notified m
       then frame_step dcheck_is_on (AtWaitForNotification this token) (cfg_heap c)
            = Some ([], cfg_heap c,
                    [EvReturn (OpDeregisterCallback this token) (VBool false)])
       else match manager_state m with
            | Cancelling =>
                ∃ running todo, InStartCancel this running todo true ∈ frames_of c
            | _ => AtNotify this ∈ frames_of c
            end.
Proof.
  intros Hreach Hin.
  destruct (reachable_waiter_ok c Hreach) as [Hw Hn].
  rewrite Forall_forall in Hw. destruct (Hw _ Hin) as (m & Hm & Hni & Hst).
  exists m. split_and!; [done..|].
  destruct (notified m) eqn:Hnot.
  - simpl. rewrite Hm. simpl. by rewrite Hnot.
  - destruct (manager_state m) eqn:Hs; [done| |].
    + destruct (cancelling_pass_in_flight dcheck_is_on c this m Hreach Hm Hs)
        as (running & todo & cbs & Hf & _).
      rewrite bool_decide_true in Hf by done. eauto.
    + destruct (Hn this m Hm Hs Hst); [congruence|done].
Qed.


(** X13. [DeregisterCallback] returns false only when it is safe to free what
    the callbacks use (the comment of lines 99-102): whichever of its
    three [return false] a step takes, the manager has left the idle
    state and every callback its pass called has returned, none is left
    to call. *)
Theorem DeregisterCallback_false_means_callbacks_returned
    c f fs h' events this token :
  reachable dcheck_is_on c →
  frame_step dcheck_is_on f (cfg_heap c) = Some (fs, h', events) →
  EvReturn (OpDeregisterCallback this token) (VBool false) ∈ events →
  ∃ m, cfg_heap c !! this = Some m ∧ manager_state m ≠ Idle ∧
       returned this (cfg_trace c) = invoked this (cfg_trace c) ∧
       match passes_started this (cfg_trace c) with
       | [] => invoked this (cfg_trace c) = []
       | [cbs] => invoked this (cfg_trace c) = map_to_list cbs
       | _ => False
       end.
Proof.
  intros Hreach Hstep Hin.
  pose proof (reachable_invariant dcheck_is_on c Hreach) as Hinv.
  assert (∀ m, cfg_heap c !! this = Some m → manager_state m = Cancelled →
    ∃ m, cfg_heap c !! this = Some m ∧ manager_state m ≠ Idle ∧
       returned this (cfg_trace c) = invoked this (cfg_trace c) ∧
       match passes_started this (cfg_trace c) with
       | [] => invoked this (cfg_trace c) = []
       | [cbs] => invoked this (cfg_trace c) = map_to_list cbs
       | _ => False
       end) as Hcancelled.
  { intros m Hm Hs. exists m. split; [done|]. split; [congruence|].
    pose proof (ok_invoked _ _ _ _ (inv_managers _ _ _ Hinv this m Hm)) as Hok.
    destruct (passes_started this (cfg_trace c)) as [|cbs [|]]; [| |done].
    - destruct Hok as [-> ->]. done.
    - destruct (Hok Hs) as [-> ->]. done. }
  frame_cases f Hstep.
  all: rewrite ?elem_of_app in Hin.
  all: repeat match goal with
       | H : _ ∨ _ |- _ => destruct H as [H|H]
       | H : _ ∈ callback_returned _ ?r |- _ => destruct r; simpl in H
       | H : _ ∈ [] |- _ => by apply elem_of_nil in H
       | H : _ ∈ _ :: _ |- _ => apply elem_of_cons in H as [H|H]
       end; try discriminate.
  - (* returned without waiting *)
    injection Hin as <- <- <-.
    destruct (manager_state c0) eqn:Hs.
    + apply manager_state_Idle in Hs as [Hg Hc].
      unfold DeregisterCallback_locked in Hderegister. rewrite Hg, Hc in Hderegister.
      discriminate.
    + destruct (cancelling_pass_in_flight dcheck_is_on c this c0 Hreach Hlookup Hs)
        as (running & todo & cbs & Hf & Hp & Hi & Hnone).
      assert (state_ c0 = None) as Hst.
      { apply manager_state_Cancelling in Hs as [Hg Hc].
        unfold DeregisterCallback_locked in Hderegister.
        rewrite Hg, Hc in Hderegister. by destruct (state_ c0). }
      pose proof (inv_frames _ _ _ Hinv) as Hfr. rewrite Forall_forall in Hfr.
      destruct (Hfr _ Hf) as (m0 & cbs0 & _ & _ & _ & Hp0 & Hir & _).
      specialize (Hnone Hst). subst cbs. rewrite map_to_list_empty in Hi.
      apply app_eq_nil in Hi as [Hi _]. rewrite Hi in Hir.
      symmetry in Hir. apply app_eq_nil in Hir as [Hr _].
      exists c0. rewrite Hp, Hi, Hr, map_to_list_empty. split_and!; congruence.
    + by eapply Hcancelled.
  - (* returned from the wait *)
    injection Hin as <- <-.
    eapply Hcancelled; [done|].
    by apply (ok_notified _ _ _ _ (inv_managers _ _ _ Hinv _ _ Hlookup)).
Qed.


(** X14. In a build with [DCHECK]s every key of a registry is below the
    counter: no callback is registered yet under the token that
    [get_cancellation_token] returns next. *)
Theorem next_token_is_unused c this m :
  dcheck_is_on = true →
  reachable dcheck_is_on c →
  cfg_heap c !! this = Some m →
  (∀ token callback, registry m !! token = Some callback →
                     (token < next_cancellation_token_ m)%Z) ∧
  registry m !! (get_cancellation_token m).1 = None.
Proof.
  intros Hon Hreach Hm.
  assert (∀ token callback, registry m !! token = Some callback →
                            (token < next_cancellation_token_ m)%Z) as Hkeys.
  { revert this m Hm.
    apply (reachable_frames_ind
             (λ h _ _, ∀ x m, h !! x = Some m → ∀ t cb,
                registry m !! t = Some cb → (t < next_cancellation_token_ m)%Z));
      [done|done| |done].
    intros h f rest trace fs h1 events _ IH Hstep x m' Hx' t cb Hr.
    pose proof (frame_step_tokens h f fs h1 events x Hstep) as Ht.
    destruct (frame_step_registry h f fs h1 events x m' t cb Hstep Hx' Hr)
      as [(m & Hx & Hr')|[_ (m & Hx & Hd)]]; rewrite Hx in Ht;
      destruct Ht as (m'' & Hx'' & Ht); rewrite Hx' in Hx''; injection Hx'' as <-.
    - specialize (IH x m Hx t cb Hr'). destruct Ht as [[_ ->]|[_ ->]]; lia.
    - unfold DCHECK_LT in Hd. rewrite Hon in Hd. simpl in Hd.
      apply bool_decide_eq_true in Hd. destruct Ht as [[_ ->]|[_ ->]]; lia. }
  split; [done|]. simpl.
  destruct (registry m !! next_cancellation_token_ m) as [cb|] eqn:E; [|done].
  specialize (Hkeys _ _ E). lia.
Qed.

(** A frame in the pass of a manager counts. *)
Lemma in_flight_elem_of this f frames :
  f ∈ frames → in_pass this f = true → 1 ≤ in_flight this frames.
Proof.
  intros Hin Hp. unfold in_flight.
  assert (f ∈ filter (λ f, in_pass this f = true) frames) as Hf
    by (apply list_elem_of_filter; done).
  destruct (filter _ frames); [by apply elem_of_nil in Hf|simpl; lia].
Qed.

Lemma elem_of_concat_lookup (threads : list (list Frame)) tid stack f :
  threads !! tid = Some stack → f ∈ stack → f ∈ concat threads.
Proof.
  intros Hl Hin. apply list_elem_of_In, in_concat. exists stack.
  split; apply list_elem_of_In; [by eapply list_elem_of_lookup_2|done].
Qed.

(** Frames of two threads in the pass of one manager count twice. *)
Lemma in_flight_two_threads this (threads : list (list Frame))
    tid1 tid2 stack1 stack2 f1 f2 :
  tid1 < tid2 →
  threads !! tid1 = Some stack1 → threads !! tid2 = Some stack2 →
  f1 ∈ stack1 → f2 ∈ stack2 →
  in_pass this f1 = true → in_pass this f2 = true →
  2 ≤ in_flight this (concat threads).
Proof.
  intros Hlt Hl1 Hl2 Hin1 Hin2 Hp1 Hp2.
  rewrite <- (take_drop_middle threads tid1 stack1 Hl1).
  rewrite concat_app, concat_cons, !in_flight_app.
  pose proof (in_flight_elem_of this f1 stack1 Hin1 Hp1).
  assert (drop (S tid1) threads !! (tid2 - S tid1) = Some stack2) as Hd.
  { rewrite lookup_drop. replace (S tid1 + (tid2 - S tid1)) with tid2 by lia. done. }
  pose proof (in_flight_elem_of this f2 _ (elem_of_concat_lookup _ _ _ _ Hd Hin2) Hp2).
  lia.
Qed.

(** X15. While [StartCancel] runs the callbacks, between its two critical
    sections, [IsCancelled] is still false although no registration is
    accepted any more: [RegisterCallback] and [TryDeregisterCallback]
    return false and leave the manager as it is, and its registry is
    empty.  The pass is alone: among the frames of all threads exactly
    one is in a pass of this manager, so no other thread is, and the
    thread of the pass is in it once. *)
Theorem IsCancelled_is_false_during_the_pass c this running todo n :
  reachable dcheck_is_on c →
  InStartCancel this running todo n ∈ frames_of c →
  ∃ m, cfg_heap c !! this = Some m ∧
       IsCancelled m = false ∧
       manager_state m = Cancelling ∧
       registry m = ∅ ∧
       (∀ token, TryDeregisterCallback token m = (false, m)) ∧
       (∀ token callback,
          DCHECK_LT dcheck_is_on token (next_cancellation_token_ m) = true →
          RegisterCallback dcheck_is_on token callback m = Some (false, m)) ∧
       (∀ f, f ∈ frames_of c → in_pass this f = true →
             f = InStartCancel this running todo n) ∧
       in_flight this (frames_of c) = 1 ∧
       (∀ tid1 tid2 stack1 stack2 f1 f2,
          cfg_threads c !! tid1 = Some stack1 → cfg_threads c !! tid2 = Some stack2 →
          f1 ∈ stack1 → f2 ∈ stack2 →
          in_pass this f1 = true → in_pass this f2 = true →
          tid1 = tid2 ∧ in_flight this stack1 = 1).
Proof.
  intros Hreach Hin.
  pose proof (reachable_invariant dcheck_is_on c Hreach) as Hinv.
  pose proof (inv_frames _ _ _ Hinv) as Hfr. rewrite Forall_forall in Hfr.
  destruct (Hfr _ Hin) as (m & cbs & Hm & Hs & _).
  pose proof (inv_managers _ _ _ Hinv this m Hm) as Hok.
  assert (manager_state m ≠ Idle) as Hni by congruence.
  pose proof (ok_in_flight _ _ _ _ Hok) as Hone.
  rewrite decide_True in Hone by done.
  exists m. split_and!; try done.
  - apply manager_state_Cancelling in Hs as [Hc _]. done.
  - by apply (ok_drained _ _ _ _ Hok).
  - intros token. by apply TryDeregisterCallback_not_Idle.
  - intros token callback Hd. by apply RegisterCallback_not_Idle.
  - intros f Hf Hp.
    unfold in_flight in Hone.
    assert (f ∈ filter (λ f, in_pass this f = true) (frames_of c)) as H1
      by (apply list_elem_of_filter; done).
    assert (InStartCancel this running todo n
              ∈ filter (λ f, in_pass this f = true) (frames_of c)) as H2.
    { apply list_elem_of_filter. split; [|done]. simpl. by apply bool_decide_eq_true. }
    destruct (filter _ (frames_of c)) as [|g [|]]; try done.
    apply list_elem_of_singleton in H1, H2. congruence.
  - intros tid1 tid2 stack1 stack2 f1 f2 Hl1 Hl2 Hin1 Hin2 Hp1 Hp2.
    unfold frames_of in Hone.
    assert (tid1 = tid2) as <-.
    { destruct (Nat.lt_total tid1 tid2) as [Hlt|[Heq|Hlt]]; [|done|].
      - pose proof (in_flight_two_threads this _ _ _ _ _ _ _ Hlt Hl1 Hl2 Hin1 Hin2
                      Hp1 Hp2). lia.
      - pose proof (in_flight_two_threads this _ _ _ _ _ _ _ Hlt Hl2 Hl1 Hin2 Hin1
                      Hp2 Hp1). lia. }
    split; [done|].
    pose proof (in_flight_elem_of this f1 stack1 Hin1 Hp1) as Hge.
    rewrite <- (take_drop_middle (cfg_threads c) tid1 stack1 Hl1) in Hone.
    rewrite concat_app, concat_cons, !in_flight_app in Hone. lia.
Qed.

End MoreInvariants.

(** X16. [TryDeregisterCallback] is [DeregisterCallback] without the wait: the
    two return the same value and leave the same heap whenever
    [DeregisterCallback] returns, and where it waits for a notification
    that is not set, [TryDeregisterCallback] returns false at once and
    leaves the manager as it is. *)
Theorem TryDeregisterCallback_agrees_with_DeregisterCallback
    this token (h : gmap nat CancellationManager) :
  match DeregisterCallback this token h with
  | Deadlock =>
      ∃ m, h !! this = Some m ∧ manager_state m = Cancelling ∧
           is_Some (state_ m) ∧ notified m = false ∧
           call_TryDeregisterCallback this token h = Done (false, <[this := m]> h)
  | outcome => call_TryDeregisterCallback this token h = outcome
  end.
Proof.
  unfold DeregisterCallback, call_TryDeregisterCallback, deref.
  destruct (h !! this) as [m|] eqn:Hm; simpl; [|done].
  unfold DeregisterCallback_locked, TryDeregisterCallback, manager_state, notified.
  destruct (is_cancelled_ m) eqn:Hc, (is_cancelling_ m) eqn:Hg; simpl; try done.
  destruct (state_ m) as [st|] eqn:Hst; simpl.
  2: { reflexivity. }
  destruct (cancelled_notification st) eqn:Hn; simpl; rewrite Hst, Hn;
    [reflexivity|].
  exists m. rewrite Hc, Hg, Hst. split_and!; eauto.
Qed.

(** ** The further properties at concrete inputs *)

(** X1 on a parent and its child. *)
Lemma StartCancel_frame_witness :
  closed parent_and_child ∧
  is_Some (parent_and_child !! 0) ∧
  size (idle_managers parent_and_child) < 3 ∧
  ∃ log h',
    StartCancel 3 0 parent_and_child = Done (log, h') ∧
    dom h' = dom parent_and_child.
Proof.
  assert (closed parent_and_child) as H1
    by (refine (bool_decide_unpack _ _); vm_compute; exact I).
  assert (parent_and_child !! 0 =
          Some (mkCancellationManager false false 1
                  (Some (mkState false {[0%Z := ChildStartCancel 1]})) None 0)) as H0
    by (vm_compute; reflexivity).
  assert (is_Some (parent_and_child !! 0)) as H2 by (rewrite H0; eexists; reflexivity).
  assert (size (idle_managers parent_and_child) < 3) as H3 by (vm_compute; lia).
  split_and!; try assumption.
  destruct (StartCancel_frame 3 0 parent_and_child H1 H2 H3) as (log & h' & E & Hd & _).
  exists log, h'. split; assumption.
Defined.

(** X2 on the same heap. *)
Lemma StartCancel_cascades_witness :
  closed parent_and_child ∧
  size (idle_managers parent_and_child) < 3 ∧
  parent_and_child !! 0 =
    Some (mkCancellationManager false false 1
            (Some (mkState false {[0%Z := ChildStartCancel 1]})) None 0) ∧
  parent_and_child !! 1 = Some (mkCancellationManager false false 0 None (Some 0) 0) ∧
  ∃ log h',
    StartCancel 3 0 parent_and_child = Done (log, h') ∧
    Invoked 0 0 (ChildStartCancel 1) ∈ log ∧
    h' !! 1 = Some (finished (mkCancellationManager false false 0 None (Some 0) 0)).
Proof.
  assert (closed parent_and_child) as H1
    by (refine (bool_decide_unpack _ _); vm_compute; exact I).
  assert (size (idle_managers parent_and_child) < 3) as H2 by (vm_compute; lia).
  assert (parent_and_child !! 0 =
          Some (mkCancellationManager false false 1
                  (Some (mkState false {[0%Z := ChildStartCancel 1]})) None 0)) as H3
    by (vm_compute; reflexivity).
  assert (parent_and_child !! 1 =
          Some (mkCancellationManager false false 0 None (Some 0) 0)) as H4
    by (vm_compute; reflexivity).
  assert (registry (mkCancellationManager false false 1
                      (Some (mkState false {[0%Z := ChildStartCancel 1]})) None 0)
            !! 0%Z = Some (ChildStartCancel 1)) as H5
    by (vm_compute; reflexivity).
  split_and!; try assumption.
  destruct (StartCancel_cascades 3 0 parent_and_child _ 0 1 _ H1 H2 H3 eq_refl H5 H4
              eq_refl) as (log & h' & E & Hin & Hc & _).
  exists log, h'. split_and!; assumption.
Defined.

(** X3 with a manager alone on the heap as the parent. *)
Lemma child_is_cancelled_with_parent_witness :
  lone_manager !! 0 = Some CancellationManager_ctor ∧
  closed lone_manager ∧
  S (size (idle_managers lone_manager)) < 3 ∧
  ∃ child h1 log h2,
    new_CancellationManager_child true 0 lone_manager = Done (child, h1) ∧
    StartCancel 3 0 h1 = Done (log, h2) ∧
    (manager_state <$> h2 !! child) = Some Cancelled.
Proof.
  assert (lone_manager !! 0 = Some CancellationManager_ctor) as H1
    by (vm_compute; reflexivity).
  assert (closed lone_manager) as H2
    by (refine (bool_decide_unpack _ _); vm_compute; exact I).
  assert (S (size (idle_managers lone_manager)) < 3) as H3 by (vm_compute; lia).
  split_and!; try assumption.
  destruct (child_is_cancelled_with_parent true 3 0 lone_manager _ H1 eq_refl H2 H3)
    as (child & h1 & log & h2 & E1 & _ & _ & E2 & _ & _ & Hc & _).
  exists child, h1, log, h2. split_and!; assumption.
Defined.

(** X4 on a manager that issued two tokens. *)
Lemma deregistered_callback_is_not_called_witness :
  manager_state two_tokens = Idle ∧
  DCHECK_LT true 0 (next_cancellation_token_ two_tokens) = true ∧
  ∃ m1 m2,
    RegisterCallback true 0 (Closure 7) two_tokens = Some (true, m1) ∧
    DeregisterCallback_locked 0 m1 = (Returns true, m2) ∧
    registry m2 = delete 0%Z (registry two_tokens).
Proof.
  assert (manager_state two_tokens = Idle) as H1 by (vm_compute; reflexivity).
  assert (DCHECK_LT true 0 (next_cancellation_token_ two_tokens) = true) as H2
    by (vm_compute; reflexivity).
  split_and!; try assumption.
  destruct (deregistered_callback_is_not_called true 0 (Closure 7) two_tokens H1 H2)
    as (m1 & m2 & E1 & E2 & _ & Hr & _).
  exists m1, m2. split_and!; assumption.
Defined.

(** X5 on a manager holding two callbacks. *)
Lemma destructor_runs_pending_callbacks_witness :
  lone_two_callbacks !! 0 = Some two_callbacks ∧
  parent_ two_callbacks = None ∧
  closed lone_two_callbacks ∧
  size (idle_managers lone_two_callbacks) < 2 ∧
  ∃ log h',
    delete_CancellationManager 2 0 lone_two_callbacks = Done (log, h') ∧
    h' !! 0 = None.
Proof.
  assert (lone_two_callbacks !! 0 = Some two_callbacks) as H1
    by (vm_compute; reflexivity).
  assert (parent_ two_callbacks = None) as H2 by (vm_compute; reflexivity).
  assert (closed lone_two_callbacks) as H3
    by (refine (bool_decide_unpack _ _); vm_compute; exact I).
  assert (size (idle_managers lone_two_callbacks) < 2) as H4 by (vm_compute; lia).
  split_and!; try assumption.
  destruct (destructor_runs_pending_callbacks 2 0 lone_two_callbacks _ H1 H2 H3 H4)
    as (log & h' & E & Hn & _).
  exists log, h'. split; assumption.
Defined.

(** X6 on a parent and its child, both cancelled. *)
Lemma destructor_after_parent_cancelled_witness :
  cancelled_family !! 1 = Some (mkCancellationManager false true 0 None (Some 0) 0) ∧
  cancelled_family !! 0 =
    Some (mkCancellationManager false true 1 (Some (mkState true ∅)) None 0) ∧
  closed cancelled_family ∧
  size (idle_managers cancelled_family) < 1 ∧
  DeregisterCallback 0 0 cancelled_family = Done (false, cancelled_family).
Proof.
  assert (cancelled_family !! 1 =
          Some (mkCancellationManager false true 0 None (Some 0) 0)) as H1
    by (vm_compute; reflexivity).
  assert (cancelled_family !! 0 =
          Some (mkCancellationManager false true 1 (Some (mkState true ∅)) None 0))
    as H2 by (vm_compute; reflexivity).
  assert (closed cancelled_family) as H3
    by (refine (bool_decide_unpack _ _); vm_compute; exact I).
  assert (size (idle_managers cancelled_family) < 1) as H4 by (vm_compute; lia).
  assert (1 ≠ 0) as H5 by lia.
  split_and!; try assumption.
  destruct (destructor_after_parent_cancelled 1 1 0 cancelled_family _ _
              H1 eq_refl H2 eq_refl H5 H3 H4) as [E _].
  exact E.
Defined.

(** X7 after a manager was created, used and cancelled by one thread. *)
Lemma registry_is_empty_once_cancelling_witness :
  reachable true cancelled_config ∧
  cfg_heap cancelled_config !! 0 =
    Some (mkCancellationManager false true 1 (Some (mkState false ∅)) None 0) ∧
  registry (mkCancellationManager false true 1 (Some (mkState false ∅)) None 0) = ∅.
Proof.
  assert (reachable true cancelled_config) as H1 by apply run_schedule_reachable.
  assert (cfg_heap cancelled_config !! 0 =
          Some (mkCancellationManager false true 1 (Some (mkState false ∅)) None 0))
    as H2 by (vm_compute; reflexivity).
  split_and!; try assumption.
  destruct (registry_is_empty_once_cancelling true cancelled_config 0 _ H1 H2)
    as (Hr & _).
  apply Hr. discriminate.
Defined.

(** X8 in the same configuration. *)
Lemma issued_token_can_be_registered_witness :
  reachable true cancelled_config ∧
  0%Z ∈ tokens_issued 0 (cfg_trace cancelled_config) ∧
  ∃ m registered m',
    cfg_heap cancelled_config !! 0 = Some m ∧
    RegisterCallback true 0 (Closure 9) m = Some (registered, m').
Proof.
  assert (reachable true cancelled_config) as H1 by apply run_schedule_reachable.
  assert (tokens_issued 0 (cfg_trace cancelled_config) = [0%Z]) as E
    by (vm_compute; reflexivity).
  assert (0%Z ∈ tokens_issued 0 (cfg_trace cancelled_config)) as H2
    by (rewrite E; apply list_elem_of_singleton; reflexivity).
  split_and!; try assumption.
  destruct (issued_token_can_be_registered true cancelled_config 0 0 (Closure 9) H1 H2)
    as (m & registered & m' & Hm & _ & Hr & _).
  exists m, registered, m'. split; assumption.
Defined.

(** X9 in the same configuration. *)
Lemma kInvalidToken_is_never_issued_witness :
  reachable true cancelled_config ∧
  cfg_heap cancelled_config !! 0 =
    Some (mkCancellationManager false true 1 (Some (mkState false ∅)) None 0) ∧
  kInvalidToken ∉ tokens_issued 0 (cfg_trace cancelled_config).
Proof.
  assert (reachable true cancelled_config) as H1 by apply run_schedule_reachable.
  assert (cfg_heap cancelled_config !! 0 =
          Some (mkCancellationManager false true 1 (Some (mkState false ∅)) None 0))
    as H2 by (vm_compute; reflexivity).
  split_and!; try assumption.
  destruct (kInvalidToken_is_never_issued true cancelled_config 0 _ H1 H2)
    as (_ & Hn & _).
  exact Hn.
Defined.

(** X10 with a thread between lines 36 and 37. *)
Lemma constructor_registration_never_aborts_witness :
  reachable true child_under_construction ∧
  InConstructor 0 0 ∈ frames_of child_under_construction ∧
  cfg_heap child_under_construction !! 0 =
    Some (mkCancellationManager false false 1 None None 0) ∧
  DCHECK_LT true 0 1 = true ∧
  ∃ registered p',
    RegisterCallback true 0 (ChildStartCancel 1)
      (mkCancellationManager false false 1 None None 0) = Some (registered, p') ∧
    (registered = true ↔
     manager_state (mkCancellationManager false false 1 None None 0) = Idle).
Proof.
  assert (reachable true child_under_construction) as H1
    by apply run_schedule_reachable.
  assert (frames_of child_under_construction = [InConstructor 0 0]) as E
    by (vm_compute; reflexivity).
  assert (InConstructor 0 0 ∈ frames_of child_under_construction) as H2
    by (rewrite E; apply list_elem_of_singleton; reflexivity).
  assert (cfg_heap child_under_construction !! 0 =
          Some (mkCancellationManager false false 1 None None 0)) as H3
    by (vm_compute; reflexivity).
  split_and!; try assumption;
    destruct (constructor_registration_never_aborts true child_under_construction 0 0
                _ (ChildStartCancel 1) H1 H2 H3)
      as (_ & _ & Hd & Hr & _); [exact Hd|exact Hr].
Defined.

(** X11 after a manager was created, used and cancelled by one thread. *)
Lemma only_registered_callbacks_are_called_witness :
  reachable true cancelled_config ∧
  (0%Z, Closure 7) ∈ invoked 0 (cfg_trace cancelled_config) ∧
  registered_in (cfg_trace cancelled_config) 0 0 (Closure 7).
Proof.
  assert (reachable true cancelled_config) as H1 by apply run_schedule_reachable.
  assert (invoked 0 (cfg_trace cancelled_config) = [(0%Z, Closure 7)]) as E
    by (vm_compute; reflexivity).
  assert ((0%Z, Closure 7) ∈ invoked 0 (cfg_trace cancelled_config)) as H2
    by (rewrite E; apply list_elem_of_singleton; reflexivity).
  split_and!; try assumption.
  exact (only_registered_callbacks_are_called true cancelled_config 0 0 (Closure 7)
           H1 H2).
Defined.

(** X12 with one thread in the pass and another waiting. *)
Lemma waiter_is_always_notified_witness :
  reachable true waiting_config ∧
  AtWaitForNotification 0 0 ∈ frames_of waiting_config ∧
  ∃ m, cfg_heap waiting_config !! 0 = Some m ∧ manager_state m ≠ Idle.
Proof.
  assert (reachable true waiting_config) as H1 by apply run_schedule_reachable.
  assert (frames_of waiting_config =
          [InStartCancel 0 None [(0%Z, Closure 7)] true; AtWaitForNotification 0 0])
    as E by (vm_compute; reflexivity).
  assert (AtWaitForNotification 0 0 ∈ frames_of waiting_config) as H2.
  { rewrite E. apply elem_of_cons. right. apply list_elem_of_singleton. reflexivity. }
  split_and!; try assumption.
  destruct (waiter_is_always_notified true waiting_config 0 0 H1 H2)
    as (m & Hm & Hs & _).
  exists m. split; assumption.
Defined.

(** X13 on a cancelled manager. *)
Lemma DeregisterCallback_false_means_callbacks_returned_witness :
  reachable true cancelled_config ∧
  frame_step true (AtCall (OpDeregisterCallback 0 0)) (cfg_heap cancelled_config) =
    Some ([], cfg_heap cancelled_config,
          [EvReturn (OpDeregisterCallback 0 0) (VBool false)]) ∧
  returned 0 (cfg_trace cancelled_config) = invoked 0 (cfg_trace cancelled_config).
Proof.
  assert (reachable true cancelled_config) as H1 by apply run_schedule_reachable.
  assert (frame_step true (AtCall (OpDeregisterCallback 0 0))
            (cfg_heap cancelled_config) =
          Some ([], cfg_heap cancelled_config,
                [EvReturn (OpDeregisterCallback 0 0) (VBool false)])) as H2
    by (vm_compute; reflexivity).
  assert (EvReturn (OpDeregisterCallback 0 0) (VBool false)
            ∈ [EvReturn (OpDeregisterCallback 0 0) (VBool false)]) as H3
    by (apply list_elem_of_singleton; reflexivity).
  split_and!; try assumption.
  destruct (DeregisterCallback_false_means_callbacks_returned true cancelled_config
              _ _ _ _ 0 0 H1 H2 H3) as (m & _ & _ & Hr & _).
  exact Hr.
Defined.

(** X14 after one registration. *)
Lemma next_token_is_unused_witness :
  reachable true registered_config ∧
  cfg_heap registered_config !! 0 =
    Some (mkCancellationManager false false 1
            (Some (mkState false {[0%Z := Closure 7]})) None 0) ∧
  registry (mkCancellationManager false false 1
              (Some (mkState false {[0%Z := Closure 7]})) None 0) !! 1%Z = None.
Proof.
  assert (reachable true registered_config) as H1 by apply run_schedule_reachable.
  assert (cfg_heap registered_config !! 0 =
          Some (mkCancellationManager false false 1
                  (Some (mkState false {[0%Z := Closure 7]})) None 0)) as H2
    by (vm_compute; reflexivity).
  split_and!; try assumption.
  destruct (next_token_is_unused true registered_config 0 _ eq_refl H1 H2) as [_ Hn].
  exact Hn.
Defined.

(** X15 with one thread in the pass and another waiting. *)
Lemma IsCancelled_is_false_during_the_pass_witness :
  reachable true waiting_config ∧
  InStartCancel 0 None [(0%Z, Closure 7)] true ∈ frames_of waiting_config ∧
  in_flight 0 (frames_of waiting_config) = 1 ∧
  ∃ m, cfg_heap waiting_config !! 0 = Some m ∧ IsCancelled m = false.
Proof.
  assert (reachable true waiting_config) as H1 by apply run_schedule_reachable.
  assert (frames_of waiting_config =
          [InStartCancel 0 None [(0%Z, Closure 7)] true; AtWaitForNotification 0 0])
    as E by (vm_compute; reflexivity).
  assert (InStartCancel 0 None [(0%Z, Closure 7)] true ∈ frames_of waiting_config)
    as H2.
  { rewrite E. apply elem_of_cons. left. reflexivity. }
  destruct (IsCancelled_is_false_during_the_pass true waiting_config 0 _ _ _ H1 H2)
    as (m & Hm & Hc & _ & _ & _ & _ & _ & Hone & _).
  split_and!; try assumption.
  exists m. split; assumption.
Defined.

Section Deregistration.
Variable dcheck_is_on : bool.

(** X17. When [DeregisterCallback] or [TryDeregisterCallback] returns true,
    it found the manager idle and erased the entry of the token; no pass
    of the manager has begun and none of its callbacks has been called,
    so the callback that was under the token was not called and is in no
    registry any more. *)
Theorem deregistration_true_means_not_called c f fs h' events this token :
  reachable dcheck_is_on c →
  frame_step dcheck_is_on f (cfg_heap c) = Some (fs, h', events) →
  EvReturn (OpDeregisterCallback this token) (VBool true) ∈ events ∨
  EvReturn (OpTryDeregisterCallback this token) (VBool true) ∈ events →
  ∃ m, cfg_heap c !! this = Some m ∧ manager_state m = Idle ∧
       h' = <[this := erase token m]> (cfg_heap c) ∧
       registry (erase token m) !! token = None ∧
       passes_started this (cfg_trace c ++ events) = [] ∧
       invoked this (cfg_trace c ++ events) = [].
Proof.
  intros Hreach Hstep Hin.
  pose proof (reachable_invariant dcheck_is_on c Hreach) as Hinv.
  assert (∀ m, cfg_heap c !! this = Some m → manager_state m = Idle →
               passes_started this (cfg_trace c) = [] ∧
               invoked this (cfg_trace c) = []) as Hidle.
  { intros m Hm Hs.
    pose proof (inv_managers _ _ _ Hinv this m Hm) as Hok.
    pose proof (ok_idle _ _ _ _ Hok Hs) as Hp.
    pose proof (ok_invoked _ _ _ _ Hok) as Hi. rewrite Hp in Hi.
    by destruct Hi. }
  frame_cases f Hstep.
  all: rewrite ?elem_of_app in Hin.
  all: repeat match goal with
       | H : _ ∨ _ |- _ => destruct H as [H|H]
       | H : _ ∈ callback_returned _ ?r |- _ => destruct r; simpl in H
       | H : _ ∈ [] |- _ => by apply elem_of_nil in H
       | H : _ ∈ _ :: _ |- _ => apply elem_of_cons in H as [H|H]
       end; try discriminate.
  - injection Hin as <- <- <-.
    assert (manager_state c0 = Idle) as Hs.
    { unfold DeregisterCallback_locked, manager_state in *.
      by destruct (is_cancelled_ c0), (is_cancelling_ c0), (state_ c0). }
    rewrite (DeregisterCallback_locked_Idle token c0 Hs) in Hderegister.
    injection Hderegister as <-.
    destruct (Hidle c0 Hlookup Hs) as [Hp Hi].
    exists c0. rewrite passes_started_app, invoked_app, Hp, Hi, registry_erase.
    split_and!; try done. apply lookup_delete_eq.
  - injection Hin as <- <- <-.
    assert (manager_state c0 = Idle) as Hs.
    { unfold TryDeregisterCallback, manager_state in *.
      by destruct (is_cancelled_ c0), (is_cancelling_ c0). }
    rewrite (TryDeregisterCallback_Idle token c0 Hs) in Hderegister.
    injection Hderegister as <-.
    destruct (Hidle c0 Hlookup Hs) as [Hp Hi].
    exists c0. rewrite passes_started_app, invoked_app, Hp, Hi, registry_erase.
    split_and!; try done. apply lookup_delete_eq.
Qed.

End Deregistration.

(** X17 on a manager holding one callback. *)
Lemma deregistration_true_means_not_called_witness :
  reachable true registered_config ∧
  frame_step true (AtCall (OpTryDeregisterCallback 0 0)) (cfg_heap registered_config) =
    Some ([], <[0 := mkCancellationManager false false 1
                       (Some (mkState false ∅)) None 0]> ∅,
          [EvReturn (OpTryDeregisterCallback 0 0) (VBool true)]) ∧
  invoked 0 (cfg_trace registered_config ++
             [EvReturn (OpTryDeregisterCallback 0 0) (VBool true)]) = [].
Proof.
  assert (reachable true registered_config) as H1 by apply run_schedule_reachable.
  assert (frame_step true (AtCall (OpTryDeregisterCallback 0 0))
            (cfg_heap registered_config) =
          Some ([], <[0 := mkCancellationManager false false 1
                             (Some (mkState false ∅)) None 0]> ∅,
                [EvReturn (OpTryDeregisterCallback 0 0) (VBool true)])) as H2
    by (vm_compute; reflexivity).
  assert (EvReturn (OpTryDeregisterCallback 0 0) (VBool true)
            ∈ [EvReturn (OpTryDeregisterCallback 0 0) (VBool true)]) as H3
    by (apply list_elem_of_singleton; reflexivity).
  split_and!; try assumption.
  destruct (deregistration_true_means_not_called true registered_config
              _ _ _ _ 0 0 H1 H2 (or_intror H3)) as (m & _ & _ & _ & _ & _ & Hi).
  exact Hi.
Defined.
